(** * Ceres Solver: TinySolver and DynamicAutoDiffCostFunction

    A shallow embedding of
      - [include/ceres/tiny_solver.h]
          ([TinySolver::Initialize], [TinySolver::Update],
           [TinySolver::Solve],
           [TinySolverFunctionAutoDiffAdapter::operator()]) and
      - [include/ceres/dynamic_autodiff_cost_function.h]
          ([DynamicAutoDiffCostFunction::AddParameterBlock],
           [SetNumResiduals] and [Evaluate]),
    together with the properties of these functions.

    The C++ code is generic in its scalar type ([Function::Scalar], the
    template argument [T] of the adapter).  The embedding keeps that
    genericity: every definition is stated over a type [T] with the
    operations of the class [Scalar] below and assumes no algebraic law
    about them, so the structural theorems hold for any arithmetic,
    rounding or not.  The instance [Q_scalar] (exact rationals) is used to
    run the code on concrete inputs and for the statements that compare
    magnitudes.

    C++ [int] quantities are [Z]; sizes and indices into buffers are [nat].
    Signed overflow is undefined behaviour in C++ and is not modelled: the
    counters of the solver are bounded by [max_iterations]. *)

From Stdlib Require Import ZArith QArith Qabs Qround Qminmax Qpower Lia Lqa Bool.
From stdpp Require Import base list.

Local Open Scope Z_scope.

(** ** Scalars *)

(** The operations the C++ code applies to values of its scalar type. *)
Class Scalar (T : Type) := {
  s_of_Z : Z -> T;          (* [Scalar(2)], [T(1.0)], the literals [1], [3.] *)
  s_add  : T -> T -> T;
  s_sub  : T -> T -> T;
  s_mul  : T -> T -> T;
  s_div  : T -> T -> T;
  s_neg  : T -> T;
  s_abs  : T -> T;
  s_sqrt : T -> T;
  s_ltb  : T -> T -> bool   (* [a < b] *)
}.

Declare Scope scalar_scope.
Delimit Scope scalar_scope with S.
Infix "+" := s_add : scalar_scope.
Infix "-" := s_sub : scalar_scope.
Infix "*" := s_mul : scalar_scope.
Infix "/" := s_div : scalar_scope.
Infix "<?" := s_ltb : scalar_scope.

Section LinearAlgebra.
Context {T : Type} `{Scalar T}.

Definition s_zero : T := s_of_Z 0.
Definition s_one : T := s_of_Z 1.

(** [std::max(a, b)] is [(a < b) ? b : a]. *)
Definition s_max (a b : T) : T := if (a <? b)%S then b else a.

(** Reading a buffer; an index outside the buffer is undefined behaviour
    in C++ and reads [s_zero] here. *)
Definition rd (l : list T) (i : nat) : T := default s_zero (l !! i).

(** Eigen vectors are lists; reductions run from the first coefficient. *)
Definition v_neg (a : list T) : list T := map s_neg a.
Definition v_add (a b : list T) : list T := zip_with s_add a b.
Definition v_scale (c : T) (a : list T) : list T := map (s_mul c) a.
Definition v_sum (a : list T) : T := fold_left s_add a s_zero.
Definition dot (a b : list T) : T := v_sum (zip_with s_mul a b).
Definition squaredNorm (a : list T) : T := dot a a.
Definition norm (a : list T) : T := s_sqrt (squaredNorm a).

(** [maxCoeff()]: Eigen asserts that the vector is not empty. *)
Definition maxCoeff (a : list T) : T :=
  match a with
  | [] => s_zero
  | x :: rest => fold_left s_max rest x
  end.

(** Dense matrices are stored column-major (Eigen's default): the
    coefficient in row [r] and column [c] of a matrix with [rows] rows is
    at offset [c * rows + r]. *)
Definition m_at (rows : nat) (M : list T) (r c : nat) : T :=
  rd M (c * rows + r)%nat.

Definition m_col (rows : nat) (M : list T) (c : nat) : list T :=
  map (fun r => m_at rows M r c) (seq 0 rows).

Definition m_row (rows cols : nat) (M : list T) (r : nat) : list T :=
  map (fun c => m_at rows M r c) (seq 0 cols).

(** [J.transpose() * J], a [cols] x [cols] matrix. *)
Definition m_JtJ (rows cols : nat) (J : list T) : list T :=
  c ← seq 0 cols; r ← seq 0 cols; [dot (m_col rows J r) (m_col rows J c)].

(** [J.transpose() * e], a vector of [cols] coefficients. *)
Definition m_Jtv (rows cols : nat) (J e : list T) : list T :=
  map (fun c => dot (m_col rows J c) e) (seq 0 cols).

(** [M * x] for a square matrix of dimension [n]. *)
Definition m_mulv (n : nat) (M x : list T) : list T :=
  map (fun r => dot (m_row n n M r) x) (seq 0 n).

Definition m_diagonal (n : nat) (M : list T) : list T :=
  map (fun i => m_at n M i i) (seq 0 n).

(** [M.diagonal().array() += u]. *)
Definition m_add_diagonal (n : nat) (M : list T) (u : T) : list T :=
  fold_left (fun A i => <[(i * n + i)%nat := (m_at n A i i + u)%S]> A)
            (seq 0 n) M.
End LinearAlgebra.

(** ** TinySolver *)

Inductive Status :=
| RUNNING
| GRADIENT_TOO_SMALL
| RELATIVE_STEP_SIZE_TOO_SMALL
| ERROR_TOO_SMALL
| HIT_MAX_ITERATIONS
| FAILED_TO_EVALUATE_COST_FUNCTION
| FAILED_TO_SOLVER_LINEAR_SYSTEM.

Definition Status_eqb (a b : Status) : bool :=
  match a, b with
  | RUNNING, RUNNING
  | GRADIENT_TOO_SMALL, GRADIENT_TOO_SMALL
  | RELATIVE_STEP_SIZE_TOO_SMALL, RELATIVE_STEP_SIZE_TOO_SMALL
  | ERROR_TOO_SMALL, ERROR_TOO_SMALL
  | HIT_MAX_ITERATIONS, HIT_MAX_ITERATIONS
  | FAILED_TO_EVALUATE_COST_FUNCTION, FAILED_TO_EVALUATE_COST_FUNCTION
  | FAILED_TO_SOLVER_LINEAR_SYSTEM, FAILED_TO_SOLVER_LINEAR_SYSTEM => true
  | _, _ => false
  end.

Record SolverParameters (T : Type) := {
  gradient_threshold : T;
  relative_step_threshold : T;
  error_threshold : T;
  initial_scale_factor : T;
  max_iterations : Z
}.
Arguments gradient_threshold {T}.
Arguments relative_step_threshold {T}.
Arguments error_threshold {T}.
Arguments initial_scale_factor {T}.
Arguments max_iterations {T}.

Record Results (T : Type) := {
  error_magnitude : T;
  gradient_magnitude : T;
  num_failed_linear_solves : Z;
  iterations : Z;
  status : Status
}.
Arguments error_magnitude {T}.
Arguments gradient_magnitude {T}.
Arguments num_failed_linear_solves {T}.
Arguments iterations {T}.
Arguments status {T}.

(** The cost function handed to the solver.  [operator()] receives the
    parameters and two output buffers; it may write any part of them and
    returns its success flag, so a call maps the old buffer contents to the
    new ones.  [fn_eval] is the call with a null Jacobian pointer. *)
Record Function (T : Type) := {
  NumResiduals : nat;
  NumParameters : nat;
  fn_eval_jacobian : list T -> list T -> list T -> bool * list T * list T;
  fn_eval : list T -> list T -> bool * list T
}.
Arguments NumResiduals {T}.
Arguments NumParameters {T}.
Arguments fn_eval_jacobian {T}.
Arguments fn_eval {T}.

(** The members of a [TinySolver] object. *)
Record TinySolver (T : Type) := {
  params : SolverParameters T;
  results : Results T;
  dx_ : list T;
  x_new_ : list T;
  g_ : list T;
  error_ : list T;
  f_x_new_ : list T;
  jacobian_ : list T;
  jtj_ : list T;
  jtj_augmented_ : list T
}.
Arguments params {T}.
Arguments results {T}.
Arguments dx_ {T}.
Arguments x_new_ {T}.
Arguments g_ {T}.
Arguments error_ {T}.
Arguments f_x_new_ {T}.
Arguments jacobian_ {T}.
Arguments jtj_ {T}.
Arguments jtj_augmented_ {T}.

(** The four ways through the body of the loop of [Solve]. *)
Inductive Outcome :=
| StepTooSmall        (* [break] with RELATIVE_STEP_SIZE_TOO_SMALL *)
| Accepted            (* [rho > 0], [continue] *)
| Rejected            (* solved, but not [rho > 0] *)
| FailedLinearSolve.  (* the [else] branch of [if (solved)] *)

Definition Outcome_eqb (a b : Outcome) : bool :=
  match a, b with
  | StepTooSmall, StepTooSmall | Accepted, Accepted
  | Rejected, Rejected | FailedLinearSolve, FailedLinearSolve => true
  | _, _ => false
  end.

Section TinySolver.
Context {T : Type} `{Scalar T}.

(** The template arguments of [TinySolver]: the problem sizes of
    [Function] ([None] is [Eigen::Dynamic]) and the [LinearSolver], whose
    [compute] followed by [solve] maps a matrix and a right-hand side to a
    solution. *)
Variable NUM_RESIDUALS NUM_PARAMETERS : option nat.
Variable linear_solve : list T -> list T -> list T.

(** Eigen's [isApprox] (fuzzy comparison at the scalar type's default
    precision) and the contents of storage that [resize] reallocates
    belong to Eigen; both are parameters here. *)
Variable isApprox : list T -> list T -> bool.
Variable uninit : T.

Definition residual_count (function : Function T) : nat :=
  from_option id (NumResiduals function) NUM_RESIDUALS.
Definition parameter_count (function : Function T) : nat :=
  from_option id (NumParameters function) NUM_PARAMETERS.

(** Eigen's [resize]: nothing happens when the size is unchanged,
    otherwise the storage is reallocated. *)
Definition resize (n : nat) (l : list T) : list T :=
  if decide (length l = n) then l else replicate n uninit.

(** [Initialize(int num_residuals, int num_parameters)]. *)
Definition Initialize_sizes (nr np : nat) (s : TinySolver T) : TinySolver T :=
  {| params := params s; results := results s;
     dx_ := dx_ s; x_new_ := x_new_ s; g_ := g_ s;
     error_ := resize nr (error_ s);
     f_x_new_ := resize nr (f_x_new_ s);
     jacobian_ := resize (nr * np) (jacobian_ s);
     jtj_ := resize (np * np) (jtj_ s);
     jtj_augmented_ := resize (np * np) (jtj_augmented_ s) |}.

(** [Initialize<R, P>(function)]: the four overloads selected by which of
    the two sizes is dynamic. *)
Definition Initialize (function : Function T) (s : TinySolver T)
  : TinySolver T :=
  match NUM_RESIDUALS, NUM_PARAMETERS with
  | None, None =>
      Initialize_sizes (NumResiduals function) (NumParameters function) s
  | None, Some P => Initialize_sizes (NumResiduals function) P s
  | Some R, None => Initialize_sizes R (NumParameters function) s
  | Some _, Some _ => s
  end.

(** [Status Update(const Function& function, const Parameters &x)].
    The value returned by [function] is dropped, as in the source. *)
Definition Update (function : Function T) (x : list T) (s : TinySolver T)
  : Status * TinySolver T :=
  let '(_, residuals, jacobian) :=
    fn_eval_jacobian function x (error_ s) (jacobian_ s) in
  let error := v_neg residuals in
  let jtj :=
    m_JtJ (residual_count function) (parameter_count function) jacobian in
  let g :=
    m_Jtv (residual_count function) (parameter_count function) jacobian error in
  let s' :=
    {| params := params s; results := results s;
       dx_ := dx_ s; x_new_ := x_new_ s; g_ := g;
       error_ := error; f_x_new_ := f_x_new_ s;
       jacobian_ := jacobian; jtj_ := jtj;
       jtj_augmented_ := jtj_augmented_ s |} in
  if (maxCoeff (map s_abs g) <? gradient_threshold (params s))%S
  then (GRADIENT_TOO_SMALL, s')
  else if (norm error <? error_threshold (params s))%S
  then (ERROR_TOO_SMALL, s')
  else (RUNNING, s').

Definition set_status (st : Status) (s : TinySolver T) : TinySolver T :=
  {| params := params s;
     results :=
       {| error_magnitude := error_magnitude (results s);
          gradient_magnitude := gradient_magnitude (results s);
          num_failed_linear_solves := num_failed_linear_solves (results s);
          iterations := iterations (results s);
          status := st |};
     dx_ := dx_ s; x_new_ := x_new_ s; g_ := g_ s;
     error_ := error_ s; f_x_new_ := f_x_new_ s;
     jacobian_ := jacobian_ s; jtj_ := jtj_ s;
     jtj_augmented_ := jtj_augmented_ s |}.

(** [results.num_failed_linear_solves++]. *)
Definition count_failed_linear_solve (s : TinySolver T) : TinySolver T :=
  {| params := params s;
     results :=
       {| error_magnitude := error_magnitude (results s);
          gradient_magnitude := gradient_magnitude (results s);
          num_failed_linear_solves :=
            num_failed_linear_solves (results s) + 1;
          iterations := iterations (results s);
          status := status (results s) |};
     dx_ := dx_ s; x_new_ := x_new_ s; g_ := g_ s;
     error_ := error_ s; f_x_new_ := f_x_new_ s;
     jacobian_ := jacobian_ s; jtj_ := jtj_ s;
     jtj_augmented_ := jtj_augmented_ s |}.

(** The local variables of [Solve] that live across iterations, with the
    solver object. [ls_x] is the caller's vector [*x_and_min]. *)
Record LoopState := {
  ls_i : Z;
  ls_x : list T;
  ls_u : T;
  ls_v : T;
  ls_solver : TinySolver T
}.

(** The quantities the body of the loop computes before it branches:
    the damped matrix, the step, the degeneracy check, the tentative point,
    the residuals there and the gain ratio. *)
Definition step_jtj_augmented (function : Function T) (ls : LoopState)
  : list T :=
  m_add_diagonal (parameter_count function) (jtj_ (ls_solver ls)) (ls_u ls).

Definition step_dx (function : Function T) (ls : LoopState) : list T :=
  linear_solve (step_jtj_augmented function ls) (g_ (ls_solver ls)).

Definition step_solved (function : Function T) (ls : LoopState) : bool :=
  isApprox
    (m_mulv (parameter_count function) (step_jtj_augmented function ls)
            (step_dx function ls))
    (g_ (ls_solver ls)).

Definition step_too_small (function : Function T) (ls : LoopState) : bool :=
  (norm (step_dx function ls)
   <? relative_step_threshold (params (ls_solver ls)) * norm (ls_x ls))%S.

Definition step_x_new (function : Function T) (ls : LoopState) : list T :=
  v_add (ls_x ls) (step_dx function ls).

Definition step_f_x_new (function : Function T) (ls : LoopState) : list T :=
  (fn_eval function (step_x_new function ls) (f_x_new_ (ls_solver ls))).2.

Definition step_rho (function : Function T) (ls : LoopState) : T :=
  let dx := step_dx function ls in
  ((squaredNorm (error_ (ls_solver ls))
    - squaredNorm (step_f_x_new function ls))
   / dot dx (v_add (v_scale (ls_u ls) dx) (g_ (ls_solver ls))))%S.

(** The factor applied to [u] after an accepted step:
    [std::max(1 / 3., 1 - tmp * tmp * tmp)] with [tmp = 2 * rho - 1]. *)
Definition damping_factor (rho : T) : T :=
  let tmp := (s_of_Z 2 * rho - s_one)%S in
  s_max (s_one / s_of_Z 3)%S (s_one - tmp * tmp * tmp)%S.

(** One execution of the body of the [for] loop of [Solve], for a state in
    which the loop condition holds.  The result names the path taken.  The
    value returned by [function] for the tentative point is dropped, as in
    the source. *)
Definition iteration (function : Function T) (ls : LoopState)
  : Outcome * LoopState :=
  let s := ls_solver ls in
  let s1 :=
    {| params := params s; results := results s;
       dx_ := step_dx function ls; x_new_ := x_new_ s; g_ := g_ s;
       error_ := error_ s; f_x_new_ := f_x_new_ s;
       jacobian_ := jacobian_ s; jtj_ := jtj_ s;
       jtj_augmented_ := step_jtj_augmented function ls |} in
  if step_solved function ls then
    if step_too_small function ls then
      (StepTooSmall,
       {| ls_i := ls_i ls; ls_x := ls_x ls; ls_u := ls_u ls; ls_v := ls_v ls;
          ls_solver := set_status RELATIVE_STEP_SIZE_TOO_SMALL s1 |})
    else
      let s2 :=
        {| params := params s1; results := results s1;
           dx_ := dx_ s1; x_new_ := step_x_new function ls; g_ := g_ s1;
           error_ := error_ s1; f_x_new_ := step_f_x_new function ls;
           jacobian_ := jacobian_ s1; jtj_ := jtj_ s1;
           jtj_augmented_ := jtj_augmented_ s1 |} in
      let rho := step_rho function ls in
      if (s_zero <? rho)%S then
        let '(st, s3) := Update function (step_x_new function ls) s2 in
        (Accepted,
         {| ls_i := ls_i ls; ls_x := step_x_new function ls;
            ls_u := (ls_u ls * damping_factor rho)%S;
            ls_v := s_of_Z 2;
            ls_solver := set_status st s3 |})
      else
        (Rejected,
         {| ls_i := ls_i ls; ls_x := ls_x ls;
            ls_u := (ls_u ls * ls_v ls)%S;
            ls_v := (ls_v ls * s_of_Z 2)%S;
            ls_solver := s2 |})
  else
    (FailedLinearSolve,
     {| ls_i := ls_i ls; ls_x := ls_x ls;
        ls_u := (ls_u ls * ls_v ls)%S;
        ls_v := (ls_v ls * s_of_Z 2)%S;
        ls_solver := count_failed_linear_solve s1 |}).

(** [++i]. *)
Definition next_i (ls : LoopState) : LoopState :=
  {| ls_i := ls_i ls + 1; ls_x := ls_x ls; ls_u := ls_u ls; ls_v := ls_v ls;
     ls_solver := ls_solver ls |}.

(** The loop [for (i = 0; results.status == RUNNING && i < max_iterations;
    ++i)].  [n] is the number of values [i] can still take below
    [max_iterations]; the list is the path each executed iteration took. *)
Fixpoint loop (function : Function T) (n : nat) (ls : LoopState)
  : list Outcome * LoopState :=
  match n with
  | O => ([], ls)
  | S n' =>
      if Status_eqb (status (results (ls_solver ls))) RUNNING then
        let '(o, ls') := iteration function ls in
        match o with
        | StepTooSmall => ([o], ls')
        | _ =>
            let '(os, ls'') := loop function n' (next_i ls') in
            (o :: os, ls'')
        end
      else ([], ls)
  end.

(** The state in which [Solve] enters its loop. *)
Definition Solve_init (function : Function T) (x : list T) (s : TinySolver T)
  : LoopState :=
  let s0 := Initialize function s in
  let '(st, s1) := Update function x s0 in
  let s2 := set_status st s1 in
  {| ls_i := 0; ls_x := x;
     ls_u :=
       (initial_scale_factor (params s2)
        * maxCoeff (m_diagonal (parameter_count function) (jtj_ s2)))%S;
     ls_v := s_of_Z 2;
     ls_solver := s2 |}.

(** The statements of [Solve] after its loop. *)
Definition Solve_finish (ls : LoopState) : TinySolver T :=
  let s := ls_solver ls in
  let st :=
    if Status_eqb (status (results s)) RUNNING
    then HIT_MAX_ITERATIONS else status (results s) in
  {| params := params s;
     results :=
       {| error_magnitude := norm (error_ s);
          gradient_magnitude := norm (g_ s);
          num_failed_linear_solves := num_failed_linear_solves (results s);
          iterations := ls_i ls;
          status := st |};
     dx_ := dx_ s; x_new_ := x_new_ s; g_ := g_ s;
     error_ := error_ s; f_x_new_ := f_x_new_ s;
     jacobian_ := jacobian_ s; jtj_ := jtj_ s;
     jtj_augmented_ := jtj_augmented_ s |}.

(** A run of [Solve]: the path of every iteration, the caller's parameter
    vector and the solver object after the call. *)
Definition Solve_run (function : Function T) (x : list T) (s : TinySolver T)
  : list Outcome * list T * TinySolver T :=
  let '(os, ls) :=
    loop function (Z.to_nat (max_iterations (params s)))
         (Solve_init function x s) in
  (os, ls_x ls, Solve_finish ls).

(** [Results Solve(const Function& function, Parameters* x_and_min)]. *)
Definition Solve (function : Function T) (x : list T) (s : TinySolver T)
  : Results T :=
  results (Solve_run function x s).2.

(** The states in which [Solve] evaluates the condition of its loop: the
    state after initialisation, and the state after [++i] of every
    iteration that did not [break]. *)
Inductive visited (function : Function T) (x : list T) (s : TinySolver T)
  : LoopState -> Prop :=
| visited_init : visited function x s (Solve_init function x s)
| visited_next ls :
    visited function x s ls ->
    status (results (ls_solver ls)) = RUNNING ->
    ls_i ls < max_iterations (params s) ->
    (iteration function ls).1 <> StepTooSmall ->
    visited function x s (next_i (iteration function ls).2).

End TinySolver.

(** ** Jets *)

(** Modelled from the spec: the dual number of [ceres/jet.h], which is not
    among the sources: "a numeric type carrying a value and an N-dimensional
    derivative vector".  The width [N] of a [Jet<T, N>] is the length of
    [v]. *)
Record Jet (T : Type) := mkJet { a : T; v : list T }.
Arguments mkJet {T}.
Arguments a {T}.
Arguments v {T}.

Section Jets.
Context {T : Type} `{Scalar T}.

Definition zero_jet : Jet T := mkJet s_zero [].

(** Reading an array of jets; outside the array (undefined behaviour in
    C++) the read gives [zero_jet]. *)
Definition rd_jet (l : list (Jet T)) (i : nat) : Jet T :=
  default zero_jet (l !! i).

(** The derivative vector with a one in position [i] and zeros elsewhere:
    [v.setZero(); v[i] = 1.0]. *)
Definition basis (N i : nat) : list T :=
  <[i := s_one]> (replicate N s_zero).
End Jets.

(** ** TinySolverFunctionAutoDiffAdapter *)

(** A cost functor with a templated [operator()]: its instance at the plain
    scalar type and its instance at the jet type.  Each receives the
    parameters and the output array and returns the success flag and the
    output array after the call. *)
Record CostFunctor (T : Type) := {
  call_scalar : list T -> list T -> bool * list T;
  call_jet : list (Jet T) -> list (Jet T) -> bool * list (Jet T)
}.
Arguments call_scalar {T}.
Arguments call_jet {T}.

Section Adapter.
Context {T : Type} `{Scalar T}.

(** The template arguments, and [kImpossibleValue], a constant of
    [ceres/internal/autodiff.h], which is not among the sources. *)
Variable kNumResiduals kNumParameters : nat.
Variable kImpossibleValue : T.
Variable cost_functor_ : CostFunctor T.

(** The first loop of [operator()]: the input jets. *)
Definition adapter_jet_parameters (parameters : list T) : list (Jet T) :=
  map (fun i => mkJet (rd parameters i) (basis kNumParameters i))
      (seq 0 kNumParameters).

(** The second loop: the output jets before the call. *)
Definition adapter_jet_residuals : list (Jet T) :=
  map (fun _ => mkJet kImpossibleValue
                      (replicate kNumParameters kImpossibleValue))
      (seq 0 kNumResiduals).

(** [jacobian_matrix.row(r) = jet.v] on the column-major map of the
    caller's buffer. *)
Definition set_row (r : nat) (d : list T) (jacobian : list T) : list T :=
  fold_left (fun J c => <[(c * kNumResiduals + r)%nat := rd d c]> J)
            (seq 0 kNumParameters) jacobian.

(** The last loop: copy the values and the Jacobian out of the jets. *)
Definition adapter_copy_out (jet_residuals : list (Jet T))
    (residuals jacobian : list T) : list T * list T :=
  fold_left
    (fun '(res, J) r =>
       let jet := rd_jet jet_residuals r in
       (<[r := a jet]> res, set_row r (v jet) J))
    (seq 0 kNumResiduals) (residuals, jacobian).

(** [bool operator()(const T* parameters, T* residuals, T* jacobian)];
    [jacobian] is [None] for a null pointer. *)
Definition adapter_call (parameters residuals : list T)
    (jacobian : option (list T)) : bool * list T * option (list T) :=
  match jacobian with
  | None =>
      let '(ok, res) := call_scalar cost_functor_ parameters residuals in
      (ok, res, None)
  | Some J =>
      let '(ok, jet_residuals) :=
        call_jet cost_functor_ (adapter_jet_parameters parameters)
                 adapter_jet_residuals in
      if ok then
        let '(res, J') := adapter_copy_out jet_residuals residuals J in
        (true, res, Some J')
      else (false, residuals, Some J)
  end.
End Adapter.

(** ** Single-precision arithmetic of the pass count *)

(** [Evaluate] computes its number of passes as
    [int(ceil(num_parameters / float(Stride)))]: both operands are
    converted to [float] and divided in single precision.  The values that
    occur are non-negative and within the normal range of binary32, so a
    [float] is represented by the rational it denotes; conversion and
    division round to the nearest value with a 24-bit significand, ties to
    the even significand. *)
Module Float32.

(** Round the non-negative fraction [n / d] to the nearest integer, a tie
    to the even one. *)
Definition nearest_even (n d : Z) : Z :=
  let q := n / d in
  let r := n mod d in
  if 2 * r <? d then q
  else if d <? 2 * r then q + 1
  else if Z.even q then q else q + 1.

(** The exponent [e] with [2^e <= n / d < 2^(e+1)], for positive [n], [d]. *)
Definition exponent (n d : Z) : Z :=
  let e := Z.log2 n - Z.log2 d in
  if n * 2 ^ Z.max 0 (- e) <? d * 2 ^ Z.max 0 e then e - 1 else e.

(** The binary32 value nearest to [n / d]: a significand of 24 bits scaled
    by a power of two. *)
Definition round (n d : Z) : Q :=
  if n =? 0 then 0%Q
  else
    let e := exponent n d in
    let m := nearest_even (n * 2 ^ Z.max 0 (23 - e)) (d * 2 ^ Z.max 0 (e - 23)) in
    (inject_Z m * Qpower 2 (e - 23))%Q.

(** [float(n)] for an [int] [n >= 0]. *)
Definition of_int (n : Z) : Q := round n 1.

(** [x / y] on [float]s, for [x >= 0] and [y > 0]. *)
Definition div (x y : Q) : Q :=
  round (Qnum x * Zpos (Qden y)) (Zpos (Qden x) * Qnum y).

(** [int(ceil(x))]. *)
Definition ceil_to_int (x : Q) : Z := Qceiling x.

End Float32.

(** [int num_strides = int(ceil(num_parameters / float(Stride)))]. *)
Definition num_strides (num_parameters Stride : Z) : Z :=
  Float32.ceil_to_int
    (Float32.div (Float32.of_int num_parameters) (Float32.of_int Stride)).

(** The quotient the comment of the source intends: the least integer not
    below [P / S]. *)
Definition ceil_div (P S : Z) : Z := (P + S - 1) / S.

(** ** DynamicAutoDiffCostFunction *)

(** The functor of a [DynamicAutoDiffCostFunction<CostFunctor, Stride>].
    Its scalar instance receives the parameter blocks; its jet instance
    receives [jet_parameters], whose entries point to the starts of the
    blocks inside the one array [input_jets], so it is given that array. *)
Record DynamicCostFunctor (T : Type) := {
  dyn_call_scalar : list (list T) -> list T -> bool * list T;
  dyn_call_jet : list (Jet T) -> list (Jet T) -> bool * list (Jet T)
}.
Arguments dyn_call_scalar {T}.
Arguments dyn_call_jet {T}.

(** What a call of [Evaluate] leaves behind: its return value, the caller's
    two output buffers, and the sequence of jet arrays on which the functor
    was invoked (one entry per pass that was started). *)
Record Evaluation (T : Type) := {
  ev_ok : bool;
  ev_residuals : list T;
  ev_jacobians : list (list T);
  ev_calls : list (list (Jet T))
}.
Arguments ev_ok {T}.
Arguments ev_residuals {T}.
Arguments ev_jacobians {T}.
Arguments ev_calls {T}.

(** The positions visited by the loop nest
    [for (i = 0, parameter_cursor = 0; i < num_parameter_blocks; ++i)
       for (j = 0; j < parameter_block_sizes()[i]; ++j, parameter_cursor++)]
    as triples [(i, j, parameter_cursor)], in order. *)
Fixpoint parameter_positions (sizes : list nat) (i cursor : nat)
  : list (nat * nat * nat) :=
  match sizes with
  | [] => []
  | size :: rest =>
      map (fun j => (i, j, (cursor + j)%nat)) (seq 0 size)
      ++ parameter_positions rest (S i) (cursor + size)%nat
  end.

Definition for_each_parameter {St : Type} (sizes : list nat)
    (body : nat -> nat -> nat -> St -> St) (st : St) : St :=
  fold_left (fun st '(i, j, cursor) => body i j cursor st)
            (parameter_positions sizes 0 0) st.

Section DynamicAutoDiffCostFunction.
Context {T : Type} `{Scalar T}.

(** The template argument [Stride], the functor, the sizes registered with
    [AddParameterBlock] and [SetNumResiduals], and the value of a
    default-constructed [Jet<double, Stride>] ([ceres/jet.h]). *)
Variable Stride : nat.
Variable functor_ : DynamicCostFunctor T.
Variable parameter_block_sizes : list nat.
Variable num_residuals : nat.
Variable default_jet : Jet T.

(** [std::accumulate(sizes.begin(), sizes.end(), 0)]. *)
Definition num_parameters : nat := fold_left Nat.add parameter_block_sizes 0%nat.

(** [input_jets] after the loop that stores the parameter values. *)
Definition initial_input_jets (parameters : list (list T)) : list (Jet T) :=
  for_each_parameter parameter_block_sizes
    (fun i j cursor jets =>
       <[cursor := mkJet (rd (default [] (parameters !! i)) j)
                         (v (rd_jet jets cursor))]> jets)
    (replicate num_parameters default_jet).

(** The seeding loop of one pass. *)
Definition seed_input_jets (start_derivative_section end_derivative_section : nat)
    (input_jets : list (Jet T)) : list (Jet T) :=
  for_each_parameter parameter_block_sizes
    (fun i j cursor jets =>
       let zero := replicate Stride s_zero in
       let d :=
         if (start_derivative_section <=? cursor)%nat
            && (cursor <? end_derivative_section)%nat
         then <[(cursor - start_derivative_section)%nat := s_one]> zero
         else zero in
       <[cursor := mkJet (a (rd_jet jets cursor)) d]> jets)
    input_jets.

(** The loop that copies the pieces of the Jacobian into their final
    place. *)
Definition copy_jacobian (start_derivative_section end_derivative_section : nat)
    (output_jets : list (Jet T)) (jacobians : list (list T))
  : list (list T) :=
  for_each_parameter parameter_block_sizes
    (fun i j cursor jacs =>
       if (start_derivative_section <=? cursor)%nat
          && (cursor <? end_derivative_section)%nat
       then
         fold_left
           (fun jacs k =>
              alter
                (fun block =>
                   <[(k * default 0%nat (parameter_block_sizes !! i) + j)%nat
                     := rd (v (rd_jet output_jets k))
                           (cursor - start_derivative_section)]> block)
                i jacs)
           (seq 0 num_residuals) jacs
       else jacs)
    jacobians.

(** [for (k = 0; k < num_residuals(); ++k) residuals[k] = output_jets[k].a]. *)
Definition copy_residuals (output_jets : list (Jet T)) (residuals : list T)
  : list T :=
  fold_left (fun res k => <[k := a (rd_jet output_jets k)]> res)
            (seq 0 num_residuals) residuals.

(** The scratch arrays and the caller's buffers during the passes. *)
Record PassState := {
  input_jets : list (Jet T);
  output_jets : list (Jet T);
  ps_jacobians : list (list T);
  ps_residuals : list T;
  ps_calls : list (list (Jet T))
}.

(** The body of the loop over the passes; the flag is [false] when the
    functor failed and [Evaluate] returns. *)
Definition pass_body (pass : nat) (st : PassState) : bool * PassState :=
  let start_derivative_section := (pass * Stride)%nat in
  let end_derivative_section :=
    Nat.min ((pass + 1) * Stride) num_parameters in
  let jets :=
    seed_input_jets start_derivative_section end_derivative_section
                    (input_jets st) in
  let '(ok, outs) := dyn_call_jet functor_ jets (output_jets st) in
  if ok then
    let jacs :=
      copy_jacobian start_derivative_section end_derivative_section
                    outs (ps_jacobians st) in
    let res :=
      if Z.of_nat pass
         =? num_strides (Z.of_nat num_parameters) (Z.of_nat Stride) - 1
      then copy_residuals outs (ps_residuals st)
      else ps_residuals st in
    (true,
     {| input_jets := jets; output_jets := outs; ps_jacobians := jacs;
        ps_residuals := res; ps_calls := ps_calls st ++ [jets] |})
  else
    (false,
     {| input_jets := jets; output_jets := outs;
        ps_jacobians := ps_jacobians st; ps_residuals := ps_residuals st;
        ps_calls := ps_calls st ++ [jets] |}).

(** [for (int pass = 0; pass < num_strides; ++pass)], with [n] the number
    of passes still to run. *)
Fixpoint passes (n pass : nat) (st : PassState) : bool * PassState :=
  match n with
  | O => (true, st)
  | S n' =>
      let '(ok, st') := pass_body pass st in
      if ok then passes n' (S pass) st' else (false, st')
  end.

(** [bool Evaluate(double const* const* parameters, double* residuals,
    double** jacobians) const].  [None] is the fatal [CHECK_GT] on the
    number of residuals; [jacobians] is [None] for a null pointer. *)
Definition Evaluate (parameters : list (list T)) (residuals : list T)
    (jacobians : option (list (list T))) : option (Evaluation T) :=
  if (num_residuals =? 0)%nat then None
  else
    match jacobians with
    | None =>
        let '(ok, res) := dyn_call_scalar functor_ parameters residuals in
        Some {| ev_ok := ok; ev_residuals := res; ev_jacobians := [];
                ev_calls := [] |}
    | Some jacs =>
        let st :=
          {| input_jets := initial_input_jets parameters;
             output_jets := replicate num_residuals default_jet;
             ps_jacobians := jacs; ps_residuals := residuals;
             ps_calls := [] |} in
        let '(ok, st') :=
          passes
            (Z.to_nat (num_strides (Z.of_nat num_parameters) (Z.of_nat Stride)))
            0%nat st in
        Some {| ev_ok := ok; ev_residuals := ps_residuals st';
                ev_jacobians := ps_jacobians st'; ev_calls := ps_calls st' |}
    end.
End DynamicAutoDiffCostFunction.

(** ** Functors that are generic in the width of their jets *)

(** A templated functor is instantiated at [Jet<double, Stride>] for every
    [Stride]; [F N] is its instance at width [N]. *)
Section WidthGeneric.
Context {T : Type}.

(** Two jets, of widths [N] and [M], that carry the same value and the same
    derivative in positions [c] and [c'] respectively. *)
Definition jets_agree (N M c c' : nat) (j j' : Jet T) : Prop :=
  a j = a j' /\ length (v j) = N /\ length (v j') = M
  /\ v j !! c = v j' !! c'.

(** A functor that uses its jets only through operations that act on every
    derivative component alike, and that computes every residual from its
    parameters: on arrays of parameters that agree in a pair of positions,
    its instances return the same flag and residuals that agree in the same
    pair, whatever the output arrays held before. *)
Definition width_generic (F : nat -> DynamicCostFunctor T) : Prop :=
  forall N M c c' ins ins' outs outs',
    (c < N)%nat -> (c' < M)%nat ->
    Forall2 (jets_agree N M c c') ins ins' ->
    (dyn_call_jet (F N) ins outs).1 = (dyn_call_jet (F M) ins' outs').1
    /\ ((dyn_call_jet (F N) ins outs).1 = true ->
        Forall2 (jets_agree N M c c')
                (dyn_call_jet (F N) ins outs).2
                (dyn_call_jet (F M) ins' outs').2).
End WidthGeneric.

(** A small language of residual expressions, to have functors of that
    kind at hand. *)
Inductive Expr :=
| Param (i : nat)
| Const (c : Z)
| Add (e1 e2 : Expr)
| Sub (e1 e2 : Expr)
| Mul (e1 e2 : Expr)
| Div (e1 e2 : Expr).

Section Expressions.
Context {T : Type} `{Scalar T}.

Fixpoint eval_scalar (params : list T) (e : Expr) : T :=
  match e with
  | Param i => rd params i
  | Const c => s_of_Z c
  | Add e1 e2 => (eval_scalar params e1 + eval_scalar params e2)%S
  | Sub e1 e2 => (eval_scalar params e1 - eval_scalar params e2)%S
  | Mul e1 e2 => (eval_scalar params e1 * eval_scalar params e2)%S
  | Div e1 e2 => (eval_scalar params e1 / eval_scalar params e2)%S
  end.

(** Modelled from the spec: the arithmetic of [ceres/jet.h], which is not
    among the sources: "multiplication [(a1,v1)*(a2,v2) = (a1a2,
    a1v2+a2v1)]; division via the quotient rule"; a plain scalar becomes a
    jet with a zero derivative vector. *)
Definition jet_add (x y : Jet T) : Jet T :=
  mkJet (a x + a y)%S (zip_with s_add (v x) (v y)).
Definition jet_sub (x y : Jet T) : Jet T :=
  mkJet (a x - a y)%S (zip_with s_sub (v x) (v y)).
Definition jet_mul (x y : Jet T) : Jet T :=
  mkJet (a x * a y)%S
        (zip_with s_add (map (s_mul (a x)) (v y)) (map (s_mul (a y)) (v x))).
Definition jet_div (x y : Jet T) : Jet T :=
  let q := (a x / a y)%S in
  mkJet q (zip_with (fun dx dy => ((dx - q * dy) / a y)%S) (v x) (v y)).

Fixpoint eval_jet (N : nat) (params : list (Jet T)) (e : Expr) : Jet T :=
  match e with
  | Param i => default (mkJet s_zero (replicate N s_zero)) (params !! i)
  | Const c => mkJet (s_of_Z c) (replicate N s_zero)
  | Add e1 e2 => jet_add (eval_jet N params e1) (eval_jet N params e2)
  | Sub e1 e2 => jet_sub (eval_jet N params e1) (eval_jet N params e2)
  | Mul e1 e2 => jet_mul (eval_jet N params e1) (eval_jet N params e2)
  | Div e1 e2 => jet_div (eval_jet N params e1) (eval_jet N params e2)
  end.

(** The functor [residuals[k] = es[k]], which fails when the value of
    [guard] is negative. *)
Definition expr_functor (guard : Expr) (es : list Expr) (N : nat)
  : DynamicCostFunctor T :=
  {| dyn_call_scalar := fun blocks res =>
       let params := concat blocks in
       if (eval_scalar params guard <? s_zero)%S then (false, res)
       else (true, map (eval_scalar params) es);
     dyn_call_jet := fun ins outs =>
       if (a (eval_jet N ins guard) <? s_zero)%S then (false, outs)
       else (true, map (eval_jet N ins) es) |}.
End Expressions.

(** ** Exact rational arithmetic as a scalar type *)

(** The square root rounded down to a multiple of [2^-32]. *)
Definition Q_sqrt (x : Q) : Q :=
  if Qnum x <=? 0 then 0%Q
  else Qred (Z.sqrt (Qnum x * Zpos (Qden x) * 2 ^ 64)
             # (Qden x * 2 ^ 32)%positive).

Definition Q_ltb (x y : Q) : bool := negb (Qle_bool y x).

#[export] Instance Q_scalar : Scalar Q := {|
  s_of_Z := inject_Z;
  s_add x y := Qred (x + y);
  s_sub x y := Qred (x - y);
  s_mul x y := Qred (x * y);
  s_div x y := Qred (x / y);
  s_neg x := Qred (- x);
  s_abs x := Qred (Qabs x);
  s_sqrt := Q_sqrt;
  s_ltb := Q_ltb
|}.

(** Eigen's fuzzy comparison of two vectors at precision [1e-12]:
    [|a - b|^2 <= prec^2 * min(|a|^2, |b|^2)]. *)
Definition Q_isApprox (x y : list Q) : bool :=
  let d := zip_with s_sub x y in
  Qle_bool (squaredNorm d)
           ((1 # 10 ^ 24) * Qmin (squaredNorm x) (squaredNorm y)).

(** The solution of a system with one unknown. *)
Definition solve_1x1 (A g : list Q) : list Q := [Qred (rd g 0 / rd A 0)].

(** The values set by the constructor of [SolverParameters]. *)
Definition default_parameters : SolverParameters Q :=
  {| gradient_threshold := 1 # 10 ^ 16;
     relative_step_threshold := 1 # 10 ^ 16;
     error_threshold := 1 # 10 ^ 16;
     initial_scale_factor := 1 # 1000;
     max_iterations := 100 |}.

(** A solver for one residual and one parameter whose storage holds
    zeros and whose counter of failed linear solves holds [failed]. *)
Definition solver_1x1 (p : SolverParameters Q) (failed : Z) : TinySolver Q :=
  {| params := p;
     results := {| error_magnitude := 0%Q; gradient_magnitude := 0%Q;
                   num_failed_linear_solves := failed; iterations := 0;
                   status := RUNNING |};
     dx_ := [0%Q]; x_new_ := [0%Q]; g_ := [0%Q];
     error_ := [0%Q]; f_x_new_ := [0%Q];
     jacobian_ := [0%Q]; jtj_ := [0%Q]; jtj_augmented_ := [0%Q] |}.

Definition Solve_1x1 (function : Function Q) (x : list Q) (s : TinySolver Q)
  : Results Q :=
  Solve (Some 1%nat) (Some 1%nat) solve_1x1 Q_isApprox 0%Q function x s.

(** A cost function whose every evaluation fails: it returns [false] and
    leaves its output buffers as they are. *)
Definition failing_function : Function Q :=
  {| NumResiduals := 1; NumParameters := 1;
     fn_eval_jacobian := fun _ residuals jacobian => (false, residuals, jacobian);
     fn_eval := fun _ residuals => (false, residuals) |}.

(** The residual [1 + x + 3/2 x^2] with its derivative [1 + 3 x]. *)
Definition parabola : Function Q :=
  let r x := Qred (1 + x + (3 # 2) * x * x) in
  {| NumResiduals := 1; NumParameters := 1;
     fn_eval_jacobian := fun x _ _ =>
       (true, [r (rd x 0)], [Qred (1 + 3 * rd x 0)]);
     fn_eval := fun x _ => (true, [r (rd x 0)]) |}.

(** The residual [x - 3]. *)
Definition shifted_identity : Function Q :=
  {| NumResiduals := 1; NumParameters := 1;
     fn_eval_jacobian := fun x _ _ => (true, [Qred (rd x 0 - 3)], [1%Q]);
     fn_eval := fun x _ => (true, [Qred (rd x 0 - 3)]) |}.

(** ** Notions used in the statements *)

(** The number of failed linear solves among the iterations of a run. *)
Definition failed_solves (os : list Outcome) : Z :=
  Z.of_nat (length (List.filter (fun o => Outcome_eqb o FailedLinearSolve) os)).

(** The statuses that the statements of [Solve] assign before its final
    test. *)
Definition assigned_in_loop (st : Status) : Prop :=
  st = RUNNING \/ st = GRADIENT_TOO_SMALL \/ st = ERROR_TOO_SMALL
  \/ st = RELATIVE_STEP_SIZE_TOO_SMALL.

(** A cost function that can be evaluated at the origin only: elsewhere it
    returns [false] and leaves its output buffers as they are. *)
Definition fails_away_from_origin : Function Q :=
  {| NumResiduals := 1; NumParameters := 1;
     fn_eval_jacobian := fun x residuals jacobian =>
       if Qeq_bool (rd x 0) 0 then (true, [1%Q], [1%Q])
       else (false, residuals, jacobian);
     fn_eval := fun x residuals =>
       if Qeq_bool (rd x 0) 0 then (true, [1%Q]) else (false, residuals) |}.

(** The default parameters with [initial_scale_factor] set to one. *)
Definition unit_scale_parameters : SolverParameters Q :=
  {| gradient_threshold := 1 # 10 ^ 16;
     relative_step_threshold := 1 # 10 ^ 16;
     error_threshold := 1 # 10 ^ 16;
     initial_scale_factor := 1%Q;
     max_iterations := 100 |}.

(** The residual that is [1] everywhere, handed to the solver with the
    Jacobian [1]: no step reduces the error. *)
Definition constant_residual : Function Q :=
  {| NumResiduals := 1; NumParameters := 1;
     fn_eval_jacobian := fun _ _ _ => (true, [1%Q], [1%Q]);
     fn_eval := fun _ _ => (true, [1%Q]) |}.

(** The default parameters with [max_iterations] set to four. *)
Definition four_iterations_parameters : SolverParameters Q :=
  {| gradient_threshold := 1 # 10 ^ 16;
     relative_step_threshold := 1 # 10 ^ 16;
     error_threshold := 1 # 10 ^ 16;
     initial_scale_factor := 1 # 1000;
     max_iterations := 4 |}.

(** A linear solver that returns the zero vector, which solves no system
    with a non-zero right-hand side. *)
Definition zero_solver (A g : list Q) : list Q := [0%Q].

(** A loop state of a solver for one parameter whose damped matrix is
    singular: [jtj_ = 0], [u = 0], [g_ = 1]. *)
Definition singular_state : @LoopState Q :=
  {| ls_i := 0; ls_x := [5%Q]; ls_u := 0%Q; ls_v := 2%Q;
     ls_solver :=
       {| params := default_parameters;
          results := {| error_magnitude := 0%Q; gradient_magnitude := 0%Q;
                        num_failed_linear_solves := 0; iterations := 0;
                        status := RUNNING |};
          dx_ := [0%Q]; x_new_ := [0%Q]; g_ := [1%Q];
          error_ := [1%Q]; f_x_new_ := [0%Q];
          jacobian_ := [0%Q]; jtj_ := [0%Q]; jtj_augmented_ := [0%Q] |} |}.

(** A store into a buffer, as a pair of an offset and a value, and a store
    into one of several buffers. *)
Definition write {A : Type} (l : list A) (w : nat * A) : list A :=
  <[w.1 := w.2]> l.

Definition write_block {A : Type} (ls : list (list A)) (w : nat * nat * A)
  : list (list A) :=
  alter (fun block => <[w.1.2 := w.2]> block) w.1.1 ls.

(** The functor of the usage example in [tiny_solver.h]:
    [residuals[0] = x + 2 y + 4 z], [residuals[1] = y * z]. *)
Definition MyFunctor_residuals : list Expr :=
  [Add (Param 0) (Add (Mul (Const 2) (Param 1)) (Mul (Const 4) (Param 2)));
   Mul (Param 1) (Param 2)].

(** A functor whose jet instance fails: it returns [false] and leaves the
    output jets as it found them. *)
Definition failing_CostFunctor : CostFunctor Q :=
  {| call_scalar := fun _ residuals => (false, residuals);
     call_jet := fun _ jet_residuals => (false, jet_residuals) |}.

Definition MyFunctor : CostFunctor Q :=
  {| call_scalar := fun params _ =>
       (true, map (eval_scalar params) MyFunctor_residuals);
     call_jet := fun params _ =>
       (true, map (eval_jet 3 params) MyFunctor_residuals) |}.

(** ** The passes of [Evaluate], pass by pass *)

(** The entry at offset [idx] of the Jacobian of block [i], when the
    buffers hold one. *)
Definition jacobian_entry {T : Type} (jacobians : list (list T)) (i idx : nat)
  : option T :=
  jacobians !! i ≫= fun block => block !! idx.

(** The cursor at which parameter block [i] starts. *)
Definition block_offset (sizes : list nat) (i : nat) : nat :=
  sum_list (take i sizes).

(** The pair (residual [k], parameter cursor [c]) whose derivative is kept
    at offset [idx] of the Jacobian of block [i], a row-major array of
    [num_residuals] rows and [sizes[i]] columns. *)
Definition entry_position (sizes : list nat) (num_residuals i idx : nat)
  : option (nat * nat) :=
  let size := default 0%nat (sizes !! i) in
  if decide (idx < num_residuals * size)%nat
  then Some ((idx / size)%nat, (block_offset sizes i + idx mod size)%nat)
  else None.

Section Passes.
Context {T : Type} `{Scalar T}.
Variable Stride : nat.
Variable functor_ : DynamicCostFunctor T.
Variable parameter_block_sizes : list nat.
Variable num_residuals : nat.
Variable default_jet : Jet T.
Variable parameters : list (list T).

(** The derivative vector that the seeding loop of a pass over the cursors
    [lo .. hi - 1] gives to the jet at [cursor]: all zeros, except for a one
    in position [cursor - lo] when the cursor is in the pass. *)
Definition seed_vector (lo hi cursor : nat) : list T :=
  if (lo <=? cursor)%nat && (cursor <? hi)%nat
  then <[(cursor - lo)%nat := s_one]> (replicate Stride s_zero)
  else replicate Stride s_zero.

(** The jets on which pass [pass] invokes the functor. *)
Definition pass_input (pass : nat) : list (Jet T) :=
  imap (fun cursor jet =>
          mkJet (a jet)
                (seed_vector (pass * Stride)
                   (Nat.min ((pass + 1) * Stride)
                            (num_parameters parameter_block_sizes))
                   cursor))
       (initial_input_jets parameter_block_sizes default_jet parameters).

(** The flag and the output jets of the functor in pass [pass], when the
    earlier passes ran: [output_jets] is handed from pass to pass. *)
Fixpoint functor_run (pass : nat) : bool * list (Jet T) :=
  match pass with
  | O =>
      dyn_call_jet functor_ (pass_input 0)
                   (replicate num_residuals default_jet)
  | S p => dyn_call_jet functor_ (pass_input (S p)) (functor_run p).2
  end.

(** The caller's Jacobians after the first [passes] passes: the entry of
    residual [k] and cursor [c] holds component [c mod Stride] of the
    derivative of output jet [k] of pass [c / Stride] when [c] lies below
    [passes * Stride], and its old value otherwise. *)
Definition jacobians_after (passes : nat) (jacobians : list (list T))
  : list (list T) :=
  imap (fun i block =>
          imap (fun idx old =>
                  match entry_position parameter_block_sizes num_residuals
                                       i idx with
                  | Some (k, c) =>
                      if (c <? passes * Stride)%nat
                      then rd (v (rd_jet (functor_run (c / Stride)).2 k))
                              (c mod Stride)
                      else old
                  | None => old
                  end) block)
       jacobians.

(** The caller's residuals after the first [passes] passes: the values of
    the output jets of the last pass once that pass has run. *)
Definition residuals_after (passes : nat) (residuals : list T) : list T :=
  let last :=
    num_strides (Z.of_nat (num_parameters parameter_block_sizes))
                (Z.of_nat Stride) - 1 in
  if decide (0 <= last < Z.of_nat passes)
  then copy_residuals num_residuals (functor_run (Z.to_nat last)).2 residuals
  else residuals.

(** The scratch arrays and buffers after the first [passes] passes. *)
Definition state_after (passes : nat) (jacobians : list (list T))
    (residuals : list T) : @PassState T :=
  {| input_jets :=
       match passes with
       | O => initial_input_jets parameter_block_sizes default_jet parameters
       | S p => pass_input p
       end;
     output_jets :=
       match passes with
       | O => replicate num_residuals default_jet
       | S p => (functor_run p).2
       end;
     ps_jacobians := jacobians_after passes jacobians;
     ps_residuals := residuals_after passes residuals;
     ps_calls := pass_input <$> seq 0 passes |}.
End Passes.

(** ** Functors used in the examples *)

(** [residuals[0] = x0 + x1], with a jet instance that refuses a seeded
    second parameter: it returns [false] when the first derivative
    component of [x1] is not zero. *)
Definition rejects_seed_of_x1 : DynamicCostFunctor Q :=
  {| dyn_call_scalar := fun blocks _ =>
       (true, [eval_scalar (concat blocks) (Add (Param 0) (Param 1))]);
     dyn_call_jet := fun ins outs =>
       if Qeq_bool (rd (v (rd_jet ins 1)) 0) 0
       then (true, [eval_jet 1 ins (Add (Param 0) (Param 1))])
       else (false, outs) |}.

(** [residuals[0] = x0 * x1] guarded by a test that always fails. *)
Definition always_failing_functor (N : nat) : DynamicCostFunctor Q :=
  expr_functor (Const (-1)) [Mul (Param 0) (Param 1)] N.

(** [residuals[0] = x0 * x1 + x2 / x0], [residuals[1] = x1 - 2 x2], which
    fails for negative [x0]. *)
Definition three_parameter_functor (N : nat) : DynamicCostFunctor Q :=
  expr_functor (Param 0)
    [Add (Mul (Param 0) (Param 1)) (Div (Param 2) (Param 0));
     Sub (Param 1) (Mul (Const 2) (Param 2))] N.

(** [residuals[0] = x[index]], a functor that never fails. *)
Definition coordinate_functor (index N : nat) : DynamicCostFunctor Q :=
  expr_functor (Const 0) [Param index] N.

(** ** Notions used in the further statements about [Solve] *)

(** The iterations of a run that reached [++i]: all but the one that left
    the loop by [break]. *)
Definition completed_iterations (os : list Outcome) : Z :=
  Z.of_nat
    (length (List.filter (fun o => negb (Outcome_eqb o StepTooSmall)) os)).

(** A cost function that, handed output buffers of [R] and [R * P]
    coefficients, overwrites them with residuals [r x] and a Jacobian [J x]
    determined by [x], of the same sizes. *)
Definition fills_buffers {T : Type} (R P : nat) (function : Function T)
    (r J : list T -> list T) : Prop :=
  forall x residuals jacobian,
    length residuals = R -> length jacobian = (R * P)%nat ->
    (fn_eval_jacobian function x residuals jacobian).1.2 = r x
    /\ (fn_eval_jacobian function x residuals jacobian).2 = J x
    /\ length (r x) = R /\ length (J x) = (R * P)%nat.

Section CurrentPoint.
Context {T : Type} `{Scalar T}.

(** The buffers of the solver hold the evaluation at the vector [x] of the
    loop state, and the status, where it is one of those [Update] returns,
    is the one its two tests give on these buffers. *)
Definition at_current_point (R P : nat) (r J : list T -> list T)
    (ls : LoopState) : Prop :=
  let s := ls_solver ls in
  let gradient_small :=
    (maxCoeff (map s_abs (g_ s)) <? gradient_threshold (params s))%S in
  let error_small := (norm (error_ s) <? error_threshold (params s))%S in
  error_ s = v_neg (r (ls_x ls))
  /\ jacobian_ s = J (ls_x ls)
  /\ jtj_ s = m_JtJ R P (J (ls_x ls))
  /\ g_ s = m_Jtv R P (J (ls_x ls)) (v_neg (r (ls_x ls)))
  /\ (status (results s) = GRADIENT_TOO_SMALL -> gradient_small = true)
  /\ (status (results s) = ERROR_TOO_SMALL ->
      gradient_small = false /\ error_small = true)
  /\ (status (results s) = RUNNING ->
      gradient_small = false /\ error_small = false).
End CurrentPoint.

(** The default parameters with [max_iterations] set to two. *)
Definition two_iterations_parameters : SolverParameters Q :=
  {| gradient_threshold := 1 # 10 ^ 16;
     relative_step_threshold := 1 # 10 ^ 16;
     error_threshold := 1 # 10 ^ 16;
     initial_scale_factor := 1 # 1000;
     max_iterations := 2 |}.

(** ** The adapter as the function of a TinySolver *)

(** [TinySolver<TinySolverFunctionAutoDiffAdapter<...>>] (the usage example
    of the header) calls the adapter as
    [function(&x(0), &error_(0), &jacobian_(0, 0))] and as
    [function(&x_new_[0], &f_x_new_[0], NULL)]. *)
Definition adapter_Function {T : Type} `{Scalar T}
    (kNumResiduals kNumParameters : nat) (kImpossibleValue : T)
    (cost_functor_ : CostFunctor T) : Function T :=
  {| NumResiduals := kNumResiduals;
     NumParameters := kNumParameters;
     fn_eval_jacobian := fun x residuals jacobian =>
       let '(ok, residuals', jacobian') :=
         adapter_call kNumResiduals kNumParameters kImpossibleValue
                      cost_functor_ x residuals (Some jacobian) in
       (ok, residuals', default jacobian jacobian');
     fn_eval := fun x residuals =>
       let '(ok, residuals', _) :=
         adapter_call kNumResiduals kNumParameters kImpossibleValue
                      cost_functor_ x residuals None in
       (ok, residuals') |}.

(** A functor that computes its first residual, [x0], returns [true] and
    forgets every other residual. *)
Definition forgetful_functor : CostFunctor Q :=
  {| call_scalar := fun params residuals =>
       (true, <[0%nat := eval_scalar params (Param 0)]> residuals);
     call_jet := fun params jet_residuals =>
       (true, <[0%nat := eval_jet 3 params (Param 0)]> jet_residuals) |}.

(** ** Sizing a DynamicAutoDiffCostFunction *)

(** The sizes held by the [CostFunction] base class.  Modelled from the
    names of its accessors ([ceres/cost_function.h] is not among the
    sources): [mutable_parameter_block_sizes()->push_back(size)] appends to
    the vector of block sizes, [set_num_residuals] assigns the number of
    residuals. *)
Record CostFunctionSizes := {
  parameter_block_sizes_ : list nat;
  num_residuals_ : nat
}.

(** [void AddParameterBlock(int size)]. *)
Definition AddParameterBlock (size : nat) (sizes : CostFunctionSizes)
  : CostFunctionSizes :=
  {| parameter_block_sizes_ := parameter_block_sizes_ sizes ++ [size];
     num_residuals_ := num_residuals_ sizes |}.


(** ** Functors whose jets carry the scalar computation *)

(** A templated functor whose instance at jets computes, in the value
    parts, what its instance at scalars computes: on an array of jets that
    holds the values of parameter blocks of the registered sizes, the two
    instances return the same flag and, when it is [true], the values of
    the first [R] output jets are the first [R] residuals of the scalar
    instance, whatever the output arrays held before. *)
Definition value_consistent {T : Type} `{Scalar T}
    (F : DynamicCostFunctor T) (sizes : list nat) (R : nat) : Prop :=
  forall blocks ins outs res,
    Forall2 (fun (block : list T) size => length block = size) blocks sizes ->
    length ins = num_parameters sizes ->
    (forall i j c, (i, j, c) ∈ parameter_positions sizes 0 0 ->
       a (rd_jet ins c) = rd (default [] (blocks !! i)) j) ->
    (dyn_call_jet F ins outs).1 = (dyn_call_scalar F blocks res).1
    /\ ((dyn_call_jet F ins outs).1 = true ->
        forall k, (k < R)%nat ->
          a (rd_jet (dyn_call_jet F ins outs).2 k)
          = rd (dyn_call_scalar F blocks res).2 k).

(** * Properties of TinySolver *)

Lemma Status_eqb_eq (st st' : Status) : Status_eqb st st' = true <-> st = st'.
Proof. destruct st, st'; simpl; split; intros E; congruence. Qed.

Lemma Outcome_eqb_eq (o o' : Outcome) : Outcome_eqb o o' = true <-> o = o'.
Proof. destruct o, o'; simpl; split; intros E; congruence. Qed.

Section TinySolverProperties.
Context {T : Type} `{Scalar T}.
Variable NUM_RESIDUALS NUM_PARAMETERS : option nat.
Variable linear_solve : list T -> list T -> list T.
Variable isApprox : list T -> list T -> bool.
Variable uninit : T.

Local Abbreviation Update := (Update NUM_RESIDUALS NUM_PARAMETERS).
Local Abbreviation Initialize := (Initialize NUM_RESIDUALS NUM_PARAMETERS uninit).
Local Abbreviation iteration :=
  (iteration NUM_RESIDUALS NUM_PARAMETERS linear_solve isApprox).
Local Abbreviation loop := (loop NUM_RESIDUALS NUM_PARAMETERS linear_solve isApprox).
Local Abbreviation Solve_init := (Solve_init NUM_RESIDUALS NUM_PARAMETERS uninit).
Local Abbreviation Solve_run :=
  (Solve_run NUM_RESIDUALS NUM_PARAMETERS linear_solve isApprox uninit).
Local Abbreviation Solve :=
  (Solve NUM_RESIDUALS NUM_PARAMETERS linear_solve isApprox uninit).
Local Abbreviation step_solved :=
  (step_solved NUM_PARAMETERS linear_solve isApprox).
Local Abbreviation step_too_small := (step_too_small NUM_PARAMETERS linear_solve).
Local Abbreviation step_rho := (step_rho NUM_PARAMETERS linear_solve).
Local Abbreviation step_x_new := (step_x_new NUM_PARAMETERS linear_solve).
Local Abbreviation step_dx := (step_dx NUM_PARAMETERS linear_solve).
Local Abbreviation step_jtj_augmented := (step_jtj_augmented NUM_PARAMETERS).
Local Abbreviation parameter_count := (parameter_count NUM_PARAMETERS).
Local Abbreviation residual_count := (residual_count NUM_RESIDUALS).

(** *** Update *)

Lemma Update_results function x s :
  results (Update function x s).2 = results s
  /\ params (Update function x s).2 = params s.
Proof.
  unfold Update.
  destruct (fn_eval_jacobian function x (error_ s) (jacobian_ s)) as [[ok r] J].
  repeat case_match; simpl; auto.
Qed.

Lemma Update_status function x s : assigned_in_loop (Update function x s).1.
Proof.
  unfold Update, assigned_in_loop.
  destruct (fn_eval_jacobian function x (error_ s) (jacobian_ s)) as [[ok r] J].
  repeat case_match; simpl; auto.
Qed.

(** *** The body of the loop *)

(** The path through the body is decided by the degeneracy check, the step
    size test and the sign of the gain ratio, in that order. *)
Lemma iteration_outcome function ls :
  (iteration function ls).1 =
    if step_solved function ls then
      if step_too_small function ls then StepTooSmall
      else if (s_zero <? step_rho function ls)%S then Accepted else Rejected
    else FailedLinearSolve.
Proof.
  unfold iteration.
  destruct (step_solved function ls); [|reflexivity].
  destruct (step_too_small function ls); [reflexivity|].
  destruct (s_zero <? step_rho function ls)%S; [|reflexivity].
  destruct (Update _ _ _) as [st s3]. reflexivity.
Qed.

Lemma iteration_x function ls :
  ls_x (iteration function ls).2 =
    if Outcome_eqb (iteration function ls).1 Accepted
    then step_x_new function ls else ls_x ls.
Proof.
  unfold iteration.
  destruct (step_solved function ls); [|reflexivity].
  destruct (step_too_small function ls); [reflexivity|].
  destruct (s_zero <? step_rho function ls)%S; [|reflexivity].
  destruct (Update _ _ _) as [st s3]. reflexivity.
Qed.

Lemma iteration_i function ls : ls_i (iteration function ls).2 = ls_i ls.
Proof.
  unfold iteration.
  repeat case_match; reflexivity.
Qed.

Lemma iteration_params function ls :
  params (ls_solver (iteration function ls).2) = params (ls_solver ls).
Proof.
  unfold iteration.
  destruct (step_solved function ls); [|reflexivity].
  destruct (step_too_small function ls); [reflexivity|].
  destruct (s_zero <? step_rho function ls)%S; [|reflexivity].
  match goal with |- context [Update ?f ?x ?s] =>
    pose proof (Update_results f x s) as [_ Hp];
    destruct (Update f x s) as [st s3] end.
  simpl in *. exact Hp.
Qed.

Lemma iteration_status function ls :
  assigned_in_loop (status (results (ls_solver ls))) ->
  assigned_in_loop (status (results (ls_solver (iteration function ls).2))).
Proof.
  intros Hs. unfold iteration.
  destruct (step_solved function ls); [|exact Hs].
  destruct (step_too_small function ls).
  { simpl. unfold assigned_in_loop. auto. }
  destruct (s_zero <? step_rho function ls)%S; [|exact Hs].
  match goal with |- context [Update ?f ?x ?s] =>
    pose proof (Update_status f x s) as Hu;
    destruct (Update f x s) as [st s3] end.
  simpl in *. exact Hu.
Qed.

(** The counter of failed linear solves moves by one on the failure path
    and stays on the three others. *)
Lemma iteration_failed function ls :
  num_failed_linear_solves (results (ls_solver (iteration function ls).2)) =
    num_failed_linear_solves (results (ls_solver ls))
    + failed_solves [(iteration function ls).1].
Proof.
  unfold iteration, failed_solves.
  destruct (step_solved function ls); [|simpl; lia].
  destruct (step_too_small function ls); [simpl; lia|].
  destruct (s_zero <? step_rho function ls)%S; [|simpl; lia].
  match goal with |- context [Update ?f ?x ?s] =>
    pose proof (Update_results f x s) as [Hr _];
    destruct (Update f x s) as [st s3] end.
  simpl in *. rewrite Hr. simpl. lia.
Qed.

(** *** The loop *)

Lemma failed_solves_cons o os :
  failed_solves (o :: os) = failed_solves [o] + failed_solves os.
Proof.
  unfold failed_solves. simpl. destruct o; simpl; lia.
Qed.

Lemma failed_solves_nonneg os : 0 <= failed_solves os.
Proof. unfold failed_solves. lia. Qed.

(** Unfolding of the loop at a state in which its condition holds. *)
Lemma loop_running function n ls :
  status (results (ls_solver ls)) = RUNNING ->
  loop function (S n) ls =
    let o := (iteration function ls).1 in
    let ls' := (iteration function ls).2 in
    match o with
    | StepTooSmall => ([o], ls')
    | _ => (o :: (loop function n (next_i ls')).1,
            (loop function n (next_i ls')).2)
    end.
Proof.
  intros Hs. simpl. rewrite Hs. simpl.
  destruct (iteration function ls) as [o ls']. simpl.
  destruct o; try reflexivity;
    destruct (loop function n (next_i ls')); reflexivity.
Qed.

Lemma loop_stopped function n ls :
  status (results (ls_solver ls)) <> RUNNING ->
  loop function n ls = ([], ls).
Proof.
  intros Hs. destruct n; [reflexivity|]. simpl.
  destruct (Status_eqb _ RUNNING) eqn:E; [|reflexivity].
  apply Status_eqb_eq in E. contradiction.
Qed.

(** An induction principle that follows the loop. *)
Lemma loop_ind (P : nat -> LoopState -> list Outcome * LoopState -> Prop)
    function :
  (forall ls, P O ls ([], ls)) ->
  (forall n ls, status (results (ls_solver ls)) <> RUNNING ->
                P (S n) ls ([], ls)) ->
  (forall n ls, status (results (ls_solver ls)) = RUNNING ->
                (iteration function ls).1 = StepTooSmall ->
                P (S n) ls ([StepTooSmall], (iteration function ls).2)) ->
  (forall n ls, status (results (ls_solver ls)) = RUNNING ->
                (iteration function ls).1 <> StepTooSmall ->
                P n (next_i (iteration function ls).2)
                  (loop function n (next_i (iteration function ls).2)) ->
                P (S n) ls
                  ((iteration function ls).1
                     :: (loop function n (next_i (iteration function ls).2)).1,
                   (loop function n (next_i (iteration function ls).2)).2)) ->
  forall n ls, P n ls (loop function n ls).
Proof.
  intros H0 Hstop Hbreak Hnext. induction n as [|n IH]; intros ls.
  - apply H0.
  - destruct (Status_eqb (status (results (ls_solver ls))) RUNNING) eqn:E.
    + apply Status_eqb_eq in E. rewrite (loop_running _ _ _ E).
      specialize (Hbreak n ls E). specialize (Hnext n ls E).
      specialize (IH (next_i (iteration function ls).2)).
      destruct (iteration function ls).1 eqn:Eo; simpl;
        [apply Hbreak; reflexivity | apply Hnext; [discriminate | exact IH] ..].
    + assert (status (results (ls_solver ls)) <> RUNNING) as Hne.
      { intros E'. apply Status_eqb_eq in E'. congruence. }
      rewrite (loop_stopped _ _ _ Hne). apply Hstop, Hne.
Qed.

Lemma loop_status function n ls :
  assigned_in_loop (status (results (ls_solver ls))) ->
  assigned_in_loop (status (results (ls_solver (loop function n ls).2))).
Proof.
  pattern n, ls, (loop function n ls). apply loop_ind; clear n ls; simpl; auto.
  - intros _ ls _ _ Hs. apply iteration_status, Hs.
  - intros n ls _ _ IH Hs. apply IH. simpl. apply iteration_status, Hs.
Qed.

Lemma loop_params function n ls :
  params (ls_solver (loop function n ls).2) = params (ls_solver ls).
Proof.
  pattern n, ls, (loop function n ls). apply loop_ind; clear n ls; simpl; auto.
  - intros _ ls _ _. apply iteration_params.
  - intros n ls _ _ IH. rewrite IH. apply iteration_params.
Qed.

Lemma loop_failed function n ls :
  num_failed_linear_solves (results (ls_solver (loop function n ls).2)) =
    num_failed_linear_solves (results (ls_solver ls))
    + failed_solves (loop function n ls).1.
Proof.
  pattern n, ls, (loop function n ls). apply loop_ind; clear n ls;
    cbn [fst snd].
  - intros ls. unfold failed_solves. simpl. lia.
  - intros _ ls _. unfold failed_solves. simpl. lia.
  - intros _ ls _ Eo. rewrite iteration_failed, Eo. reflexivity.
  - intros n ls _ _ IH. rewrite IH. cbn [next_i ls_solver].
    rewrite iteration_failed.
    rewrite (failed_solves_cons _ (loop function n _).1). lia.
Qed.

Lemma loop_x function n ls :
  Accepted ∉ (loop function n ls).1 ->
  ls_x (loop function n ls).2 = ls_x ls.
Proof.
  pattern n, ls, (loop function n ls). apply loop_ind; clear n ls; simpl; auto.
  - intros _ ls _ Eo _. rewrite iteration_x, Eo. reflexivity.
  - intros n ls _ _ IH Hn. rewrite IH; simpl.
    + rewrite iteration_x.
      destruct (Outcome_eqb _ Accepted) eqn:E; [|reflexivity].
      apply Outcome_eqb_eq in E. exfalso. apply Hn. rewrite E. left.
    + intros Hin. apply Hn. right. exact Hin.
Qed.

(** The loop starts at most [n] iterations and counts the ones it
    completes. *)
Lemma loop_i function n ls :
  ls_i ls <= ls_i (loop function n ls).2 <= ls_i ls + Z.of_nat n
  /\ (length (loop function n ls).1 <= n)%nat.
Proof.
  pattern n, ls, (loop function n ls). apply loop_ind; clear n ls; simpl.
  - intros ls. lia.
  - intros n ls _. lia.
  - intros n ls _ _. rewrite iteration_i. lia.
  - intros n ls _ _. simpl. rewrite iteration_i. lia.
Qed.

(** *** Solve *)

Lemma Solve_init_x function x s : ls_x (Solve_init function x s) = x.
Proof.
  unfold Solve_init. destruct (Update _ _ _) as [st s1]. reflexivity.
Qed.

Lemma Solve_init_results function x s :
  assigned_in_loop (status (results (ls_solver (Solve_init function x s))))
  /\ num_failed_linear_solves (results (ls_solver (Solve_init function x s)))
     = num_failed_linear_solves (results s)
  /\ params (ls_solver (Solve_init function x s)) = params s
  /\ ls_i (Solve_init function x s) = 0.
Proof.
  unfold Solve_init.
  pose proof (Update_status function x (Initialize function s)) as Hst.
  pose proof (Update_results function x (Initialize function s)) as [Hr Hp].
  destruct (Update _ _ _) as [st s1]. simpl in *.
  rewrite Hr, Hp. repeat split; [exact Hst|..];
    unfold Initialize, Initialize_sizes; repeat case_match; reflexivity.
Qed.

Lemma Solve_unfold function x s :
  Solve function x s =
    results (Solve_finish
               (loop function (Z.to_nat (max_iterations (params s)))
                     (Solve_init function x s)).2)
  /\ (Solve_run function x s).1.1 =
       (loop function (Z.to_nat (max_iterations (params s)))
             (Solve_init function x s)).1
  /\ (Solve_run function x s).1.2 =
       ls_x (loop function (Z.to_nat (max_iterations (params s)))
                  (Solve_init function x s)).2
  /\ results (Solve_run function x s).2 = Solve function x s.
Proof.
  unfold Solve, Solve_run. destruct (loop _ _ _) as [os ls]. auto.
Qed.

(** [Solve] returns one of the four statuses that stand for a usable
    result; neither of the two failure statuses is ever assigned. *)
Lemma Solve_status function x s :
  let st := status (Solve function x s) in
  st = GRADIENT_TOO_SMALL \/ st = ERROR_TOO_SMALL
  \/ st = RELATIVE_STEP_SIZE_TOO_SMALL \/ st = HIT_MAX_ITERATIONS.
Proof.
  destruct (Solve_unfold function x s) as [-> _].
  pose proof (loop_status function (Z.to_nat (max_iterations (params s)))
                (Solve_init function x s)
                (proj1 (Solve_init_results function x s))) as Hs.
  destruct (loop _ _ _) as [os ls]. simpl in *.
  destruct Hs as [-> | [-> | [-> | ->]]]; simpl; auto.
Qed.

Lemma Solve_failed function x s :
  num_failed_linear_solves (Solve function x s) =
    num_failed_linear_solves (results s)
    + failed_solves (Solve_run function x s).1.1.
Proof.
  destruct (Solve_unfold function x s) as (-> & -> & _).
  pose proof (loop_failed function (Z.to_nat (max_iterations (params s)))
                (Solve_init function x s)) as Hf.
  destruct (Solve_init_results function x s) as (_ & Hn & _).
  rewrite Hn in Hf. destruct (loop _ _ _) as [os ls]. simpl in *. exact Hf.
Qed.

Lemma Solve_iterations function x s :
  0 <= iterations (Solve function x s) <= Z.max 0 (max_iterations (params s))
  /\ (length (Solve_run function x s).1.1
      <= Z.to_nat (max_iterations (params s)))%nat.
Proof.
  destruct (Solve_unfold function x s) as (-> & -> & _).
  pose proof (loop_i function (Z.to_nat (max_iterations (params s)))
                (Solve_init function x s)) as Hi.
  destruct (Solve_init_results function x s) as (_ & _ & _ & H0).
  rewrite H0 in Hi. destruct (loop _ _ _) as [os ls]. simpl in *. lia.
Qed.

(** *** Coefficients of the normal equations *)

Lemma lookup_bind_blocks {A B : Type} (g : A -> list B) (n : nat) (l : list A)
    (i j : nat) :
  (forall x, length (g x) = n) -> (j < n)%nat ->
  (l ≫= g) !! (i * n + j)%nat = l !! i ≫= fun x => g x !! j.
Proof.
  intros Hg Hj. revert i. induction l as [|y l IH]; intros i.
  - reflexivity.
  - rewrite bind_cons. destruct i as [|i].
    + simpl. rewrite lookup_app_l; [reflexivity | rewrite Hg; lia].
    + rewrite lookup_app_r; rewrite Hg; [|lia].
      replace (S i * n + j - n)%nat with (i * n + j)%nat by lia.
      apply IH.
Qed.

Lemma length_bind_singleton {A B : Type} (f : A -> B) (l : list A) :
  length (l ≫= fun x => [f x]) = length l.
Proof.
  induction l as [|y l IH]; [reflexivity|].
  rewrite bind_cons. simpl. rewrite IH. reflexivity.
Qed.

Lemma length_bind_blocks {A B : Type} (g : A -> list B) (n : nat) (l : list A) :
  (forall x, length (g x) = n) -> length (l ≫= g) = (length l * n)%nat.
Proof.
  intros Hg. induction l as [|y l IH]; [reflexivity|].
  rewrite bind_cons, length_app, IH, Hg. reflexivity.
Qed.

Lemma m_JtJ_length rows cols (J : list T) :
  length (m_JtJ rows cols J) = (cols * cols)%nat.
Proof.
  unfold m_JtJ. rewrite (length_bind_blocks _ cols), length_seq; [reflexivity|].
  intros c. rewrite length_bind_singleton, length_seq. reflexivity.
Qed.

Lemma m_JtJ_at rows cols (J : list T) i j :
  (i < cols)%nat -> (j < cols)%nat ->
  m_at cols (m_JtJ rows cols J) i j = dot (m_col rows J i) (m_col rows J j).
Proof.
  intros Hi Hj. unfold m_at, rd, m_JtJ.
  rewrite (lookup_bind_blocks _ cols).
  - rewrite lookup_seq_lt by lia. simpl.
    replace i with (i * 1 + 0)%nat at 1 by lia.
    rewrite (lookup_bind_blocks _ 1); [|reflexivity|lia].
    rewrite lookup_seq_lt by lia. reflexivity.
  - intros c. rewrite length_bind_singleton, length_seq. reflexivity.
  - exact Hi.
Qed.

Lemma m_Jtv_at rows cols (J e : list T) i :
  (i < cols)%nat -> rd (m_Jtv rows cols J e) i = dot (m_col rows J i) e.
Proof.
  intros Hi. unfold rd, m_Jtv.
  rewrite list_lookup_fmap, lookup_seq_lt by lia. reflexivity.
Qed.

(** C6: [Update] evaluates the function at [x] (with the solver's buffers
    as outputs), stores [error = -r], [A = J^T J] and [g = J^T error], and
    returns GRADIENT_TOO_SMALL exactly when [max |g_i|] is below the
    gradient threshold, otherwise ERROR_TOO_SMALL exactly when the norm of
    [error] is below the error threshold, otherwise RUNNING. *)
Theorem Update_normal_equations_and_status function x s :
  let '(_, r, J) := fn_eval_jacobian function x (error_ s) (jacobian_ s) in
  let st := (Update function x s).1 in
  let s' := (Update function x s).2 in
  let R := residual_count function in
  let P := parameter_count function in
  let gradient_small :=
    (maxCoeff (map s_abs (g_ s')) <? gradient_threshold (params s))%S in
  let error_small := (norm (error_ s') <? error_threshold (params s))%S in
  error_ s' = map s_neg r
  /\ jacobian_ s' = J
  /\ length (jtj_ s') = (P * P)%nat
  /\ (forall i j, (i < P)%nat -> (j < P)%nat ->
        m_at P (jtj_ s') i j = dot (m_col R J i) (m_col R J j))
  /\ length (g_ s') = P
  /\ (forall i, (i < P)%nat ->
        rd (g_ s') i = dot (m_col R J i) (error_ s'))
  /\ (st = GRADIENT_TOO_SMALL <-> gradient_small = true)
  /\ (st = ERROR_TOO_SMALL <-> gradient_small = false /\ error_small = true)
  /\ (st = RUNNING <-> gradient_small = false /\ error_small = false).
Proof using Type.
  unfold Update.
  destruct (fn_eval_jacobian function x (error_ s) (jacobian_ s)) as [[ok r] J].
  set (g := m_Jtv _ _ _ _).
  assert (length g = parameter_count function) as Hg.
  { unfold g, m_Jtv. rewrite length_map, length_seq. reflexivity. }
  assert (forall i, (i < parameter_count function)%nat ->
            rd g i = dot (m_col (residual_count function) J i) (v_neg r)) as Hgi.
  { intros i Hi. apply m_Jtv_at, Hi. }
  destruct (maxCoeff (map s_abs g) <? gradient_threshold (params s))%S eqn:E1;
    [|destruct (norm (v_neg r) <? error_threshold (params s))%S eqn:E2];
    cbn [fst snd error_ jacobian_ jtj_ g_]; rewrite ?E1, ?E2;
    (split; [reflexivity|]); (split; [reflexivity|]);
    (split; [apply m_JtJ_length|]); (split; [apply m_JtJ_at|]);
    (split; [exact Hg|]); (split; [exact Hgi|]);
    repeat split; intros;
    repeat match goal with E : _ /\ _ |- _ => destruct E end;
    try split; congruence.
Qed.

(** *** Accepting and rejecting steps *)

(** C3: the caller's vector [x] is assigned only on the path of an accepted
    step, which requires a solved system, a step that is not too small and
    a strictly positive gain ratio; on the three other paths through the
    body (failed linear solve, rejected step, exit on a small step), in the
    initial evaluation and in the statements after the loop (which set
    HIT_MAX_ITERATIONS) it keeps its value, so a run without an accepted
    step returns [x] as it was. *)
Theorem x_modified_only_on_accepted_step function :
  (forall ls,
     ((iteration function ls).1 = Accepted <->
        step_solved function ls = true
        /\ step_too_small function ls = false
        /\ (s_zero <? step_rho function ls)%S = true)
     /\ ((iteration function ls).1 = Accepted ->
         ls_x (iteration function ls).2 = step_x_new function ls)
     /\ ((iteration function ls).1 <> Accepted ->
         ls_x (iteration function ls).2 = ls_x ls))
  /\ (forall x s, ls_x (Solve_init function x s) = x)
  /\ (forall x s,
        Accepted ∉ (Solve_run function x s).1.1 ->
        (Solve_run function x s).1.2 = x).
Proof.
  split; [|split].
  - intros ls. rewrite iteration_x, iteration_outcome.
    destruct (step_solved function ls), (step_too_small function ls),
      (s_zero <? step_rho function ls)%S; simpl;
      repeat split; intros; try tauto; try congruence;
      intuition congruence.
  - apply Solve_init_x.
  - intros x s. destruct (Solve_unfold function x s) as (_ & -> & -> & _).
    intros Hn. rewrite loop_x by exact Hn. apply Solve_init_x.
Qed.

(** C7: when the damped system fails the degeneracy check, the body counts
    a failed linear solve, multiplies [u] by [v], doubles [v], leaves [x],
    the status and the normal equations as they are, and the loop goes on
    with the next value of [i]; no run of [Solve] ends with the status
    FAILED_TO_SOLVER_LINEAR_SYSTEM, and the number of iterations is at most
    [max_iterations]. *)
Theorem failed_linear_solve_escalates_damping function ls :
  step_solved function ls = false ->
  let ls' := (iteration function ls).2 in
  (iteration function ls).1 = FailedLinearSolve
  /\ num_failed_linear_solves (results (ls_solver ls'))
     = num_failed_linear_solves (results (ls_solver ls)) + 1
  /\ ls_u ls' = (ls_u ls * ls_v ls)%S
  /\ ls_v ls' = (ls_v ls * s_of_Z 2)%S
  /\ ls_x ls' = ls_x ls
  /\ status (results (ls_solver ls')) = status (results (ls_solver ls))
  /\ (g_ (ls_solver ls') = g_ (ls_solver ls)
      /\ jtj_ (ls_solver ls') = jtj_ (ls_solver ls)
      /\ error_ (ls_solver ls') = error_ (ls_solver ls))
  /\ (forall n,
        status (results (ls_solver ls)) = RUNNING ->
        loop function (S n) ls =
          (FailedLinearSolve :: (loop function n (next_i ls')).1,
           (loop function n (next_i ls')).2))
  /\ (forall x s,
        status (Solve function x s) <> FAILED_TO_SOLVER_LINEAR_SYSTEM
        /\ 0 <= iterations (Solve function x s)
             <= Z.max 0 (max_iterations (params s))).
Proof.
  intros Hs ls'.
  assert ((iteration function ls).1 = FailedLinearSolve) as Ho.
  { rewrite iteration_outcome, Hs. reflexivity. }
  split; [exact Ho|].
  assert (ls' = {| ls_i := ls_i ls; ls_x := ls_x ls;
                   ls_u := (ls_u ls * ls_v ls)%S;
                   ls_v := (ls_v ls * s_of_Z 2)%S;
                   ls_solver := ls_solver ls' |}
          /\ results (ls_solver ls') =
               results (count_failed_linear_solve (ls_solver ls))
          /\ g_ (ls_solver ls') = g_ (ls_solver ls)
          /\ jtj_ (ls_solver ls') = jtj_ (ls_solver ls)
          /\ error_ (ls_solver ls') = error_ (ls_solver ls)) as (E & Er & Eg).
  { unfold ls', iteration. rewrite Hs. simpl. auto. }
  rewrite E. cbn [ls_u ls_v ls_x ls_solver]. rewrite Er.
  repeat split; try reflexivity; try apply Eg.
  - intros n Hr. rewrite (loop_running _ _ _ Hr). cbn zeta. rewrite Ho.
    fold ls'. rewrite <- E. reflexivity.
  - pose proof (Solve_status function x s) as Hst. cbn zeta in Hst.
    intros E'. rewrite E' in Hst. intuition discriminate.
  - apply Solve_iterations.
  - apply Solve_iterations.
Qed.

(** C10: [Solve] never resets [results.num_failed_linear_solves]: the count
    it returns is the one the solver object held before the call, whatever
    that was, plus the failed linear solves of the call; after two calls on
    the same object the second result holds the total of both. *)
Theorem failed_linear_solves_accumulate function1 x1 function2 x2
    (s : TinySolver T) :
  let run1 := Solve_run function1 x1 s in
  let run2 := Solve_run function2 x2 run1.2 in
  results run1.2 = Solve function1 x1 s
  /\ results run2.2 = Solve function2 x2 run1.2
  /\ num_failed_linear_solves (Solve function1 x1 s)
     = num_failed_linear_solves (results s) + failed_solves run1.1.1
  /\ num_failed_linear_solves (Solve function2 x2 run1.2)
     = num_failed_linear_solves (results s)
       + failed_solves run1.1.1 + failed_solves run2.1.1.
Proof.
  intros run1 run2.
  destruct (Solve_unfold function1 x1 s) as (_ & _ & _ & E1).
  destruct (Solve_unfold function2 x2 run1.2) as (_ & _ & _ & E2).
  split; [exact E1|]. split; [exact E2|]. split; [apply Solve_failed|].
  rewrite Solve_failed. fold run2. unfold run1 at 1. rewrite E1, Solve_failed.
  reflexivity.
Qed.

End TinySolverProperties.

(** * TinySolver over exact rationals *)

(** C1 (the code does not do this): a [false] returned by the cost function
    is dropped, in [Update] and at the tentative point alike.  No run of
    [Solve], for any function, ends with FAILED_TO_EVALUATE_COST_FUNCTION;
    with a function whose every evaluation fails [Solve] reports
    GRADIENT_TOO_SMALL from the stale contents of its buffers; with a
    function that fails at the tentative point the step is accepted on the
    stale contents of [f_x_new_]. *)
Theorem evaluation_failure_is_not_reported :
  (forall (T : Type) (ops : Scalar T) NUM_RESIDUALS NUM_PARAMETERS
          linear_solve isApprox uninit (function : Function T) x s,
      status (Solve NUM_RESIDUALS NUM_PARAMETERS linear_solve isApprox uninit
                    function x s)
      <> FAILED_TO_EVALUATE_COST_FUNCTION)
  /\ status (Solve_1x1 failing_function [5%Q]
                       (solver_1x1 default_parameters 0))
     = GRADIENT_TOO_SMALL
  /\ (let ls := Solve_init (Some 1%nat) (Some 1%nat) 0%Q
                           fails_away_from_origin [0%Q]
                           (solver_1x1 default_parameters 0) in
      (fn_eval fails_away_from_origin
               (step_x_new (Some 1%nat) solve_1x1 fails_away_from_origin ls)
               (f_x_new_ (ls_solver ls))).1 = false
      /\ (iteration (Some 1%nat) (Some 1%nat) solve_1x1 Q_isApprox
                    fails_away_from_origin ls).1 = Accepted).
Proof.
  split; [|split].
  - intros T ops NR NP lsolve approx un function x s E.
    pose proof (Solve_status NR NP lsolve approx un function x s) as Hst.
    cbn zeta in Hst. rewrite E in Hst. intuition discriminate.
  - vm_compute. reflexivity.
  - vm_compute. split; reflexivity.
Qed.

Lemma Q_ltb_lt (x y : Q) : Q_ltb x y = true <-> (x < y)%Q.
Proof.
  unfold Q_ltb. rewrite negb_true_iff. split.
  - intros E. apply Qnot_le_lt. intros Hle.
    apply Qle_bool_iff in Hle. congruence.
  - intros Hlt. destruct (Qle_bool y x) eqn:E; [|reflexivity].
    apply Qle_bool_iff in E. exfalso. apply (Qlt_not_le _ _ Hlt E).
Qed.

Lemma Q_ltb_ge (x y : Q) : Q_ltb x y = false <-> (y <= x)%Q.
Proof.
  unfold Q_ltb. rewrite negb_false_iff. apply Qle_bool_iff.
Qed.

(** The factor applied to [u] on an accepted step, in exact arithmetic. *)
Lemma damping_factor_Q (rho : Q) :
  (damping_factor rho
   == Qmax (1 # 3) (1 - (2 * rho - 1) * (2 * rho - 1) * (2 * rho - 1)))%Q.
Proof.
  unfold damping_factor, s_max, s_one. cbn [s_ltb s_div s_sub s_mul s_of_Z Q_scalar].
  set (cube := (1 - (2 * rho - 1) * (2 * rho - 1) * (2 * rho - 1))%Q).
  assert (Qred (inject_Z 1 - Qred (Qred (Qred (Qred (inject_Z 2 * rho)
            - inject_Z 1) * Qred (Qred (inject_Z 2 * rho) - inject_Z 1))
            * Qred (Qred (inject_Z 2 * rho) - inject_Z 1))) == cube)%Q as Ec.
  { unfold cube. rewrite !Qred_correct. reflexivity. }
  assert (Qred (inject_Z 1 / inject_Z 3) == 1 # 3)%Q as Et.
  { rewrite Qred_correct. reflexivity. }
  destruct (Q_ltb _ _) eqn:E.
  - apply Q_ltb_lt in E. rewrite Ec, Et in E. rewrite Ec.
    symmetry. apply Q.max_r. apply Qlt_le_weak, E.
  - apply Q_ltb_ge in E. rewrite Ec, Et in E. rewrite Et.
    symmetry. apply Q.max_l. exact E.
Qed.

Lemma damping_factor_bounds (rho : Q) :
  (0 < rho)%Q ->
  (1 # 3 <= damping_factor rho)%Q /\ (damping_factor rho < 2)%Q
  /\ ((1 # 2 <= rho)%Q -> (damping_factor rho <= 1)%Q)
  /\ ((rho < 1 # 2)%Q -> (1 < damping_factor rho)%Q).
Proof.
  intros Hrho. rewrite damping_factor_Q.
  set (t := (2 * rho - 1)%Q).
  assert (-1 < t)%Q as Ht by (unfold t; lra).
  assert (0 <= t * t)%Q as Hsq by nra.
  repeat split.
  - apply Q.le_max_l.
  - apply Q.max_lub_lt; [lra|].
    assert (0 < (t + 1) * (t * t - t + 1))%Q by (apply Qmult_lt_0_compat; nra).
    nra.
  - intros Hh. assert (0 <= t)%Q as Ht0 by (unfold t; lra).
    apply Q.max_lub; [lra|].
    assert (0 <= t * t * t)%Q by (apply Qmult_le_0_compat; nra). lra.
  - intros Hh. assert (t < 0)%Q as Ht0 by (unfold t; lra).
    apply Qlt_le_trans with (1 - t * t * t)%Q; [|apply Q.le_max_r].
    assert (0 < t * t * (- t))%Q by (apply Qmult_lt_0_compat; nra).
    nra.
Qed.

Section DampingOverQ.
Variable NUM_RESIDUALS NUM_PARAMETERS : option nat.
Variable linear_solve : list Q -> list Q -> list Q.
Variable isApprox : list Q -> list Q -> bool.
Variable uninit : Q.

Local Abbreviation iteration :=
  (iteration NUM_RESIDUALS NUM_PARAMETERS linear_solve isApprox).
Local Abbreviation visited :=
  (visited NUM_RESIDUALS NUM_PARAMETERS linear_solve isApprox uninit).
Local Abbreviation step_rho := (step_rho NUM_PARAMETERS linear_solve).

(** What the body does to [u] and [v] on each of its paths. *)
Lemma iteration_damping function (ls : @LoopState Q) :
  match (iteration function ls).1 with
  | StepTooSmall =>
      ls_u (iteration function ls).2 = ls_u ls
      /\ ls_v (iteration function ls).2 = ls_v ls
  | Accepted =>
      (0 < step_rho function ls)%Q
      /\ ls_u (iteration function ls).2
         = (ls_u ls * damping_factor (step_rho function ls))%S
      /\ ls_v (iteration function ls).2 = 2%Q
  | Rejected | FailedLinearSolve =>
      ls_u (iteration function ls).2 = (ls_u ls * ls_v ls)%S
      /\ ls_v (iteration function ls).2 = (ls_v ls * 2%Q)%S
  end.
Proof.
  unfold iteration.
  destruct (step_solved _ _ _ _ _); [|split; reflexivity].
  destruct (step_too_small _ _ _ _); [split; reflexivity|].
  destruct (s_zero <? _)%S eqn:E; [|split; reflexivity].
  destruct (Update _ _ _ _ _) as [st s3]. cbn [fst snd ls_u ls_v].
  split; [|split; reflexivity].
  apply Q_ltb_lt in E. exact E.
Qed.

(** In every state in which the loop condition is evaluated, [v >= 2]. *)
Lemma visited_v function x s ls : visited function x s ls -> (2 <= ls_v ls)%Q.
Proof.
  induction 1 as [|ls Hv IH Hs Hi Ho].
  - unfold Solve_init. destruct (Update _ _ _ _ _) as [st s1].
    cbn [ls_v s_of_Z Q_scalar]. unfold inject_Z. lra.
  - pose proof (iteration_damping function ls) as Hd.
    destruct (iteration function ls).1; cbn [next_i ls_v].
    + contradiction.
    + destruct Hd as (_ & _ & ->). lra.
    + destruct Hd as (_ & ->). cbn [s_mul Q_scalar]. rewrite Qred_correct. lra.
    + destruct Hd as (_ & ->). cbn [s_mul Q_scalar]. rewrite Qred_correct. lra.
Qed.


End DampingOverQ.


Example parabola_first_step :
  let ls := Solve_init (Some 1%nat) (Some 1%nat) 0%Q parabola [0%Q]
                       (solver_1x1 unit_scale_parameters 0) in
  ls_u ls = 1%Q
  /\ step_rho (Some 1%nat) solve_1x1 parabola ls = (5 # 16)%Q
  /\ ls_u (iteration (Some 1%nat) (Some 1%nat) solve_1x1 Q_isApprox
                     parabola ls).2 = (539 # 512)%Q.
Proof. vm_compute. repeat split. Qed.


(** Runs of [Solve] on each path that keeps [x]: with the residual constant,
    four rejected steps from [x = 7]; an exit on the step-size test in the
    first iteration from [x = 10^20]; with a linear solver that returns
    zero, four failed linear solves from [x = 7].  Each run returns [x] as
    it was.  On the path of an accepted step (the first step on the
    parabola from [x = 0]) [x] becomes [x_new = -1/2]. *)
Lemma x_modified_only_on_accepted_step_witness :
  (let run := Solve_run (Some 1%nat) (Some 1%nat) solve_1x1 Q_isApprox 0%Q
                        constant_residual [7%Q]
                        (solver_1x1 four_iterations_parameters 0) in
   run.1.1 = [Rejected; Rejected; Rejected; Rejected]
   /\ status (results run.2) = HIT_MAX_ITERATIONS
   /\ run.1.2 = [7%Q])
  /\ (let run := Solve_run (Some 1%nat) (Some 1%nat) solve_1x1 Q_isApprox 0%Q
                           constant_residual [inject_Z (10 ^ 20)]
                           (solver_1x1 four_iterations_parameters 0) in
      run.1.1 = [StepTooSmall]
      /\ status (results run.2) = RELATIVE_STEP_SIZE_TOO_SMALL
      /\ run.1.2 = [inject_Z (10 ^ 20)])
  /\ (let run := Solve_run (Some 1%nat) (Some 1%nat) zero_solver Q_isApprox 0%Q
                           constant_residual [7%Q]
                           (solver_1x1 four_iterations_parameters 0) in
      run.1.1 = [FailedLinearSolve; FailedLinearSolve; FailedLinearSolve;
                 FailedLinearSolve]
      /\ num_failed_linear_solves (results run.2) = 4
      /\ run.1.2 = [7%Q])
  /\ (let ls := Solve_init (Some 1%nat) (Some 1%nat) 0%Q parabola [0%Q]
                          (solver_1x1 unit_scale_parameters 0) in
      let step := iteration (Some 1%nat) (Some 1%nat) solve_1x1 Q_isApprox
                            parabola ls in
      step.1 = Accepted
      /\ step_x_new (Some 1%nat) solve_1x1 parabola ls = [(-1 # 2)%Q]
      /\ ls_x step.2 = step_x_new (Some 1%nat) solve_1x1 parabola ls).
Proof.
  split; [|split; [|split]].
  - assert ((Solve_run (Some 1%nat) (Some 1%nat) solve_1x1 Q_isApprox 0%Q
                       constant_residual [7%Q]
                       (solver_1x1 four_iterations_parameters 0)).1.1
            = [Rejected; Rejected; Rejected; Rejected]) as E
      by (vm_compute; reflexivity).
    split; [exact E|]. split; [vm_compute; reflexivity|].
    apply (proj2 (proj2 (x_modified_only_on_accepted_step
                           (Some 1%nat) (Some 1%nat) solve_1x1 Q_isApprox 0%Q
                           constant_residual))).
    rewrite E. intros Hin.
    repeat (apply elem_of_cons in Hin as [Hin | Hin]; [discriminate|]).
    try inversion Hin.
  - assert ((Solve_run (Some 1%nat) (Some 1%nat) solve_1x1 Q_isApprox 0%Q
                       constant_residual [inject_Z (10 ^ 20)]
                       (solver_1x1 four_iterations_parameters 0)).1.1
            = [StepTooSmall]) as E
      by (vm_compute; reflexivity).
    split; [exact E|]. split; [vm_compute; reflexivity|].
    apply (proj2 (proj2 (x_modified_only_on_accepted_step
                           (Some 1%nat) (Some 1%nat) solve_1x1 Q_isApprox 0%Q
                           constant_residual))).
    rewrite E. intros Hin.
    repeat (apply elem_of_cons in Hin as [Hin | Hin]; [discriminate|]).
    try inversion Hin.
  - assert ((Solve_run (Some 1%nat) (Some 1%nat) zero_solver Q_isApprox 0%Q
                       constant_residual [7%Q]
                       (solver_1x1 four_iterations_parameters 0)).1.1
            = [FailedLinearSolve; FailedLinearSolve; FailedLinearSolve;
               FailedLinearSolve]) as E
      by (vm_compute; reflexivity).
    split; [exact E|]. split; [vm_compute; reflexivity|].
    apply (proj2 (proj2 (x_modified_only_on_accepted_step
                           (Some 1%nat) (Some 1%nat) zero_solver Q_isApprox 0%Q
                           constant_residual))).
    rewrite E. intros Hin.
    repeat (apply elem_of_cons in Hin as [Hin | Hin]; [discriminate|]).
    try inversion Hin.
  - cbn zeta.
    assert ((iteration (Some 1%nat) (Some 1%nat) solve_1x1 Q_isApprox parabola
               (Solve_init (Some 1%nat) (Some 1%nat) 0%Q parabola [0%Q]
                           (solver_1x1 unit_scale_parameters 0))).1
            = Accepted) as E
      by (vm_compute; reflexivity).
    split; [exact E|]. split; [vm_compute; reflexivity|].
    exact (proj1 (proj2 (proj1 (x_modified_only_on_accepted_step
                                  (Some 1%nat) (Some 1%nat) solve_1x1
                                  Q_isApprox 0%Q parabola) _)) E).
Defined.

Lemma failed_linear_solve_escalates_damping_witness :
  (iteration (Some 1%nat) (Some 1%nat) solve_1x1 Q_isApprox
             shifted_identity singular_state).1 = FailedLinearSolve.
Proof.
  apply (failed_linear_solve_escalates_damping
           (Some 1%nat) (Some 1%nat) solve_1x1 Q_isApprox 0%Q
           shifted_identity singular_state).
  vm_compute. reflexivity.
Defined.

Lemma Update_normal_equations_and_status_witness :
  (Update (Some 1%nat) (Some 1%nat) parabola [0%Q]
          (solver_1x1 default_parameters 0)).1 = RUNNING.
Proof.
  apply (Update_normal_equations_and_status
           (Some 1%nat) (Some 1%nat) parabola [0%Q]
           (solver_1x1 default_parameters 0)).
  vm_compute. split; reflexivity.
Defined.

(** The count that [Solve] returns starts from whatever the solver object
    held: a solver whose counter holds 7 returns 7 from a run without a
    failed linear solve. *)
Example stale_failed_linear_solves :
  num_failed_linear_solves
    (Solve_1x1 shifted_identity [0%Q] (solver_1x1 default_parameters 7)) = 7
  /\ failed_solves
       (Solve_run (Some 1%nat) (Some 1%nat) solve_1x1 Q_isApprox 0%Q
                  shifted_identity [0%Q]
                  (solver_1x1 default_parameters 7)).1.1 = 0.
Proof. vm_compute. split; reflexivity. Qed.

(** * Buffers written by loops *)

Section Writes.
Context {A : Type}.

Lemma fold_left_bind {B C : Type} (f : C -> B -> C) (g : A -> list B)
    (l : list A) (c : C) :
  fold_left f (l ≫= g) c = fold_left (fun c x => fold_left f (g x) c) l c.
Proof.
  revert c. induction l as [|x l IH]; intros c; [reflexivity|].
  rewrite bind_cons, fold_left_app. simpl. apply IH.
Qed.

Lemma fold_left_fmap {B C : Type} (f : C -> B -> C) (g : A -> B)
    (l : list A) (c : C) :
  fold_left f (g <$> l) c = fold_left (fun c x => f c (g x)) l c.
Proof.
  revert c. induction l as [|x l IH]; intros c; [reflexivity|].
  simpl. apply IH.
Qed.

Lemma fold_left_ext {B : Type} (f g : B -> A -> B) (l : list A) (b : B) :
  (forall b x, x ∈ l -> f b x = g b x) -> fold_left f l b = fold_left g l b.
Proof.
  revert b. induction l as [|x l IH]; intros b Hfg; [reflexivity|].
  simpl. rewrite Hfg by left. apply IH. intros b' y Hy. apply Hfg. right.
  exact Hy.
Qed.

Lemma fold_write_length (ws : list (nat * A)) (l : list A) :
  length (fold_left write ws l) = length l.
Proof.
  revert l. induction ws as [|w ws IH]; intros l; [reflexivity|].
  simpl. rewrite IH. unfold write. apply length_insert.
Qed.

(** An offset that no store names keeps its value. *)
Lemma fold_write_miss (ws : list (nat * A)) (l : list A) (k : nat) :
  (forall x, (k, x) ∉ ws) -> fold_left write ws l !! k = l !! k.
Proof.
  revert l. induction ws as [|[k' x'] ws IH]; intros l Hk; [reflexivity|].
  simpl. rewrite IH.
  - unfold write. simpl. apply list_lookup_insert_ne. intros ->.
    apply (Hk x'). left.
  - intros x Hin. apply (Hk x). right. exact Hin.
Qed.

(** An offset inside the buffer to which every store writes the same value
    holds that value. *)
Lemma fold_write_hit (ws : list (nat * A)) (l : list A) (k : nat) (x : A) :
  (k < length l)%nat ->
  (exists x', (k, x') ∈ ws) ->
  (forall x', (k, x') ∈ ws -> x' = x) ->
  fold_left write ws l !! k = Some x.
Proof.
  intros Hk. induction ws as [|[k' x'] ws IH] using rev_ind.
  - intros [x' Hin]. inversion Hin.
  - intros [y Hin] Hsame. rewrite fold_left_app. simpl. unfold write at 1.
    simpl. destruct (decide (k' = k)) as [->|Hne].
    + rewrite list_lookup_insert_eq by (rewrite fold_write_length; exact Hk).
      f_equal. apply Hsame. apply elem_of_app. right. left.
    + rewrite list_lookup_insert_ne by exact Hne. apply IH.
      * apply elem_of_app in Hin as [Hin | Hin]; [exists y; exact Hin|].
        apply list_elem_of_singleton in Hin. congruence.
      * intros z Hz. apply Hsame. apply elem_of_app. left. exact Hz.
Qed.

Lemma fold_write_block_length (ws : list (nat * nat * A)) (ls : list (list A)) :
  length (fold_left write_block ws ls) = length ls.
Proof.
  revert ls. induction ws as [|w ws IH]; intros ls; [reflexivity|].
  simpl. rewrite IH. unfold write_block. apply length_alter.
Qed.

(** The stores into several buffers, seen from one of them. *)
Lemma fold_write_block_lookup (ws : list (nat * nat * A)) (ls : list (list A))
    (i : nat) :
  fold_left write_block ws ls !! i =
    fold_left write
      (omap (fun w : nat * nat * A =>
               if decide (w.1.1 = i) then Some (w.1.2, w.2) else None) ws)
    <$> ls !! i.
Proof.
  revert ls. induction ws as [|[[i' k] x] ws IH]; intros ls.
  - simpl. destruct (ls !! i); reflexivity.
  - cbn [fold_left omap list_omap]. rewrite IH. unfold write_block at 1.
    cbn [fst snd]. rewrite list_lookup_alter.
    destruct (decide (i' = i)) as [->|Hne].
    + destruct (ls !! i); reflexivity.
    + reflexivity.
Qed.

(** A sequence of stores that writes [f k x] over every value [x] it
    reaches, and reaches every [k] for which [f k x] differs from [x], is
    the indexed map [imap f]. *)
Lemma fold_write_imap (ws : list (nat * A)) (l : list A) (f : nat -> A -> A) :
  (forall k x y, l !! k = Some x -> (k, y) ∈ ws -> y = f k x) ->
  (forall k x, l !! k = Some x -> (forall y, (k, y) ∉ ws) -> f k x = x) ->
  fold_left write ws l = imap f l.
Proof.
  intros Hhit Hmiss. apply list_eq. intros k. rewrite list_lookup_imap.
  destruct (l !! k) as [x|] eqn:Ek.
  - destruct (decide (k ∈ ws.*1)) as [Hin | Hout].
    + apply list_elem_of_fmap in Hin as ([k' y] & Ek' & Hin). simpl in Ek'.
      subst k'. simpl. apply fold_write_hit.
      * apply lookup_lt_Some in Ek. exact Ek.
      * exists y. exact Hin.
      * intros y' Hy'. apply (Hhit _ _ _ Ek Hy').
    + assert (forall y, (k, y) ∉ ws) as Hno.
      { intros y Hy. apply Hout. apply list_elem_of_fmap. exists (k, y).
        split; [reflexivity | exact Hy]. }
      rewrite fold_write_miss by exact Hno. rewrite Ek. simpl. f_equal.
      symmetry. apply Hmiss; assumption.
  - simpl. apply lookup_ge_None. rewrite fold_write_length.
    apply lookup_ge_None. exact Ek.
Qed.

Lemma fold_write_block_imap (ws : list (nat * nat * A)) (ls : list (list A))
    (f : nat -> nat -> A -> A) :
  (forall i k block x y,
     ls !! i = Some block -> block !! k = Some x -> (i, k, y) ∈ ws ->
     y = f i k x) ->
  (forall i k block x,
     ls !! i = Some block -> block !! k = Some x ->
     (forall y, (i, k, y) ∉ ws) -> f i k x = x) ->
  fold_left write_block ws ls = imap (fun i block => imap (f i) block) ls.
Proof.
  intros Hhit Hmiss. apply list_eq. intros i.
  rewrite fold_write_block_lookup, list_lookup_imap.
  destruct (ls !! i) as [block|] eqn:Ei; [|reflexivity]. simpl. f_equal.
  apply fold_write_imap.
  - intros k x y Ek Hin. apply list_elem_of_omap in Hin as ([[i' k'] y'] & Hin & E).
    simpl in E. destruct (decide (i' = i)) as [->|]; [|discriminate].
    inversion E; subst. apply (Hhit _ _ _ _ _ Ei Ek Hin).
  - intros k x Ek Hno. apply (Hmiss _ _ _ _ Ei Ek). intros y Hin.
    apply (Hno y). apply list_elem_of_omap. exists (i, k, y).
    split; [exact Hin|]. simpl. rewrite decide_True by reflexivity.
    reflexivity.
Qed.

(** A loop that replaces, at pairwise distinct offsets, the value it finds
    by a function of it, stores values computed from the initial buffer. *)
Lemma fold_read_modify_write {K : Type} (ks : list K) (key : K -> nat)
    (g : K -> option A -> A) (l : list A) :
  NoDup (key <$> ks) ->
  fold_left (fun l k => <[key k := g k (l !! key k)]> l) ks l
  = fold_left write ((fun k => (key k, g k (l !! key k))) <$> ks) l.
Proof.
  revert l. induction ks as [|k ks IH]; intros l Hnd; [reflexivity|].
  rewrite fmap_cons in Hnd. apply NoDup_cons in Hnd as [Hk Hnd].
  cbn [fold_left fmap list_fmap]. rewrite IH by exact Hnd.
  unfold write at 2. cbn [fst snd]. f_equal.
  apply list_fmap_ext. intros n k' Hk'. f_equal. f_equal.
  apply list_lookup_insert_ne. intros E. apply Hk. rewrite E.
  apply list_elem_of_fmap. exists k'. split; [reflexivity|].
  apply list_elem_of_lookup. eauto.
Qed.

Lemma imap_imap (f g : nat -> A -> A) (l : list A) :
  imap f (imap g l) = imap (fun i x => f i (g i x)) l.
Proof.
  apply list_eq. intros i. rewrite !list_lookup_imap.
  destruct (l !! i); reflexivity.
Qed.
End Writes.

Lemma imap_imap_blocks {A : Type} (f g : nat -> nat -> A -> A)
    (ls : list (list A)) :
  imap (fun i block => imap (f i) block)
       (imap (fun i block => imap (g i) block) ls)
  = imap (fun i block => imap (fun k x => f i k (g i k x)) block) ls.
Proof.
  rewrite imap_imap. apply imap_ext. intros i block _. apply imap_imap.
Qed.

(** An offset [c * n + r] with [r < n] determines [c] and [r]. *)
Lemma offset_unique (n c r c' r' : nat) :
  (r < n)%nat -> (r' < n)%nat -> (c * n + r = c' * n + r')%nat ->
  c = c' /\ r = r'.
Proof.
  intros Hr Hr' E. apply (Nat.div_mod_unique n); [exact Hr | exact Hr' | lia].
Qed.

(** * Properties of TinySolverFunctionAutoDiffAdapter *)

Section JetProperties.
Context {T : Type} `{Scalar T}.

Lemma basis_length N i : length (basis (T:=T) N i) = N.
Proof. unfold basis. rewrite length_insert, length_replicate. reflexivity. Qed.

(** The seed of direction [i] is the [i]-th standard basis vector. *)
Lemma basis_lookup N i j :
  (j < N)%nat ->
  basis N i !! j = Some (if decide (i = j) then s_one else s_zero).
Proof.
  intros Hj. unfold basis. destruct (decide (i = j)) as [->|Hne].
  - apply list_lookup_insert_eq. rewrite length_replicate. exact Hj.
  - rewrite list_lookup_insert_ne by exact Hne.
    apply lookup_replicate_2, Hj.
Qed.

Lemma rd_basis N i j :
  (j < N)%nat -> rd (basis N i) j = if decide (i = j) then s_one else s_zero.
Proof. intros Hj. unfold rd. rewrite basis_lookup by exact Hj. reflexivity. Qed.
End JetProperties.

Section AdapterProperties.
Context {T : Type} `{Scalar T}.
Variable kNumResiduals kNumParameters : nat.
Variable kImpossibleValue : T.
Variable cost_functor_ : CostFunctor T.

Local Abbreviation adapter_jet_parameters :=
  (adapter_jet_parameters kNumParameters).
Local Abbreviation adapter_jet_residuals :=
  (adapter_jet_residuals kNumResiduals kNumParameters kImpossibleValue).
Local Abbreviation set_row := (set_row kNumResiduals kNumParameters).
Local Abbreviation adapter_copy_out :=
  (adapter_copy_out kNumResiduals kNumParameters).
Local Abbreviation adapter_call :=
  (adapter_call kNumResiduals kNumParameters kImpossibleValue cost_functor_).

Lemma adapter_jet_parameters_lookup parameters i :
  (i < kNumParameters)%nat ->
  adapter_jet_parameters parameters !! i
  = Some (mkJet (rd parameters i) (basis kNumParameters i)).
Proof.
  intros Hi. unfold adapter_jet_parameters.
  rewrite list_lookup_fmap, lookup_seq_lt by exact Hi. reflexivity.
Qed.

(** The last loop of [operator()] as a sequence of stores, one per residual
    into [residuals] and one per coefficient into [jacobian]. *)
Lemma adapter_copy_out_writes jets residuals jacobian :
  adapter_copy_out jets residuals jacobian =
    (fold_left write
       ((fun r => (r, a (rd_jet jets r))) <$> seq 0 kNumResiduals) residuals,
     fold_left write
       (r ← seq 0 kNumResiduals;
        (fun c => ((c * kNumResiduals + r)%nat, rd (v (rd_jet jets r)) c))
          <$> seq 0 kNumParameters)
       jacobian).
Proof.
  unfold adapter_copy_out. rewrite fold_left_fmap, fold_left_bind.
  generalize (seq 0 kNumResiduals). intros rs. revert residuals jacobian.
  induction rs as [|r rs IH]; intros residuals jacobian; [reflexivity|].
  cbn [fold_left]. rewrite IH. f_equal. f_equal.
  unfold set_row. rewrite fold_left_fmap. reflexivity.
Qed.

(** C8: with a Jacobian requested, [operator()] seeds input jet [i] with
    the value [parameters[i]] and the [i]-th standard basis vector as
    derivative, calls the jet instance of the functor once on these jets
    (all directions at once) and, when the call succeeds, stores the value
    of output jet [r] in [residuals[r]] and its derivative vector in row
    [r] of the column-major Jacobian; when the call fails it returns
    [false] and stores nothing.  With a null Jacobian it calls the scalar
    instance of the functor on the caller's buffers. *)
Theorem adapter_seeds_basis_and_copies_jets parameters residuals jacobian :
  length residuals = kNumResiduals ->
  length jacobian = (kNumResiduals * kNumParameters)%nat ->
  let seeds := adapter_jet_parameters parameters in
  let run := call_jet cost_functor_ seeds adapter_jet_residuals in
  (length seeds = kNumParameters
   /\ forall i, (i < kNumParameters)%nat ->
        seeds !! i = Some (mkJet (rd parameters i) (basis kNumParameters i))
        /\ forall j, (j < kNumParameters)%nat ->
             rd (basis kNumParameters i) j
             = if decide (i = j) then s_one else s_zero)
  /\ (run.1 = true ->
      exists residuals' jacobian',
        adapter_call parameters residuals (Some jacobian)
        = (true, residuals', Some jacobian')
        /\ length residuals' = kNumResiduals
        /\ length jacobian' = (kNumResiduals * kNumParameters)%nat
        /\ forall r, (r < kNumResiduals)%nat ->
             rd residuals' r = a (rd_jet run.2 r)
             /\ forall c, (c < kNumParameters)%nat ->
                  m_at kNumResiduals jacobian' r c = rd (v (rd_jet run.2 r)) c)
  /\ (run.1 = false ->
      adapter_call parameters residuals (Some jacobian)
      = (false, residuals, Some jacobian))
  /\ adapter_call parameters residuals None
     = (let '(ok, residuals') :=
          call_scalar cost_functor_ parameters residuals in
        (ok, residuals', None)).
Proof.
  intros Hres Hjac seeds run. split; [|split; [|split]].
  - split.
    + unfold seeds, adapter_jet_parameters. rewrite length_map, length_seq.
      reflexivity.
    + intros i Hi. split; [apply adapter_jet_parameters_lookup, Hi|].
      intros j Hj. apply rd_basis, Hj.
  - intros Hok. unfold adapter_call. fold seeds. fold run.
    destruct run as [ok outs] eqn:Erun. simpl in Hok. subst ok.
    rewrite adapter_copy_out_writes. eexists _, _. split; [reflexivity|].
    rewrite !fold_write_length. split; [exact Hres|]. split; [exact Hjac|].
    intros r Hr. split.
    + unfold rd at 1.
      rewrite (fold_write_hit _ residuals _ (a (rd_jet outs r)));
        [reflexivity|lia|..].
      * exists (a (rd_jet outs r)). apply list_elem_of_fmap. exists r.
        split; [reflexivity|]. apply elem_of_seq. lia.
      * intros x Hx. apply list_elem_of_fmap in Hx as (r' & E & _).
        inversion E. reflexivity.
    + intros c Hc. unfold m_at, rd at 1.
      assert ((c + 1) * kNumResiduals <= kNumParameters * kNumResiduals)%nat
        as Hle by (apply Nat.mul_le_mono_r; lia).
      rewrite (fold_write_hit _ jacobian _ (rd (v (rd_jet outs r)) c));
        [reflexivity| lia |..].
      * eexists. apply list_elem_of_bind. exists r. split.
        -- apply list_elem_of_fmap. exists c. split; [reflexivity|].
           apply elem_of_seq. lia.
        -- apply elem_of_seq. lia.
      * intros x Hx. apply list_elem_of_bind in Hx as (r' & Hx & Hr').
        apply list_elem_of_fmap in Hx as (c' & E & Hc').
        apply elem_of_seq in Hr', Hc'. inversion E as [[Ek Ex]].
        destruct (offset_unique kNumResiduals c' r' c r) as [-> ->];
          [lia | lia | lia | reflexivity].
  - intros Hok. unfold adapter_call. fold seeds. fold run.
    destruct run as [ok outs]. simpl in Hok. subst ok. reflexivity.
  - reflexivity.
Qed.
End AdapterProperties.

(** The adapter on the functor of the usage example in the header, at
    [(x, y, z) = (1, 2, 3)]: the residuals are [17] and [6], the Jacobian is
    the one the hand-written cost function of the header stores,
    column by column [1, 0 | 2, z | 4, y]. *)
Example adapter_on_MyFunctor :
  adapter_call 2 3 (-1)%Q MyFunctor [1%Q; 2%Q; 3%Q] [0%Q; 0%Q]
               (Some (replicate 6 0%Q))
  = (true, [17%Q; 6%Q], Some [1%Q; 0%Q; 2%Q; 3%Q; 4%Q; 2%Q]).
Proof. vm_compute. reflexivity. Qed.

Lemma adapter_seeds_basis_and_copies_jets_witness :
  exists residuals' jacobian',
    adapter_call 2 3 (-1)%Q MyFunctor [1%Q; 2%Q; 3%Q] [0%Q; 0%Q]
                 (Some (replicate 6 0%Q))
    = (true, residuals', Some jacobian').
Proof.
  destruct (proj1 (proj2 (adapter_seeds_basis_and_copies_jets
                            2 3 (-1)%Q MyFunctor [1%Q; 2%Q; 3%Q] [0%Q; 0%Q]
                            (replicate 6 0%Q) eq_refl eq_refl)) eq_refl)
    as (residuals' & jacobian' & E & _).
  exists residuals', jacobian'. exact E.
Defined.

(** A functor whose jet instance returns [false]: [operator()] returns
    before its copying loop and both buffers keep the caller's values. *)
Example adapter_on_failing_functor :
  adapter_call 2 3 (-1)%Q failing_CostFunctor [1%Q; 2%Q; 3%Q] [0%Q; 0%Q]
               (Some (replicate 6 0%Q))
  = (false, [0%Q; 0%Q], Some (replicate 6 0%Q)).
Proof. vm_compute. reflexivity. Qed.

(** * The single-precision pass count *)

Section Float32Properties.
Local Open Scope Z_scope.

(** [nearest_even] does not exceed an integer bound of the fraction. *)
Lemma nearest_even_le (X D K : Z) :
  0 < D -> X <= K * D -> Float32.nearest_even X D <= K.
Proof.
  intros HD HX. unfold Float32.nearest_even.
  pose proof (Z.div_mod X D ltac:(lia)) as E.
  pose proof (Z.mod_pos_bound X D HD) as Hr.
  repeat case_match; rewrite ?Z.ltb_lt, ?Z.ltb_ge in *; nia.
Qed.

(** A fraction more than one half above [K] is rounded to at least
    [K + 1]. *)
Lemma nearest_even_gt (X D K : Z) :
  0 < D -> D < 2 * (X - K * D) -> K + 1 <= Float32.nearest_even X D.
Proof.
  intros HD HX. unfold Float32.nearest_even.
  pose proof (Z.div_mod X D ltac:(lia)) as E.
  pose proof (Z.mod_pos_bound X D HD) as Hr.
  repeat case_match; rewrite ?Z.ltb_lt, ?Z.ltb_ge in *; nia.
Qed.

Lemma nearest_even_exact (X : Z) : Float32.nearest_even X 1 = X.
Proof.
  unfold Float32.nearest_even. rewrite Z.div_1_r, Z.mod_1_r. reflexivity.
Qed.

(** The computed exponent is a lower bound of the binade of [N / D]. *)
Lemma exponent_lower (N D : Z) :
  0 < N -> 0 < D ->
  D * 2 ^ Z.max 0 (Float32.exponent N D)
  <= N * 2 ^ Z.max 0 (- Float32.exponent N D).
Proof.
  intros HN HD. unfold Float32.exponent.
  destruct (Z.log2_spec N HN) as [HN1 HN2].
  destruct (Z.log2_spec D HD) as [HD1 HD2].
  pose proof (Z.log2_nonneg N) as HlN. pose proof (Z.log2_nonneg D) as HlD.
  set (lN := Z.log2 N) in *. set (lD := Z.log2 D) in *.
  destruct (_ <? _) eqn:E; [|apply Z.ltb_ge in E; exact E].
  clear E. destruct (Z_le_gt_dec 1 (lN - lD)) as [Hge | Hlt].
  - rewrite (Z.max_r 0 (lN - lD - 1)), (Z.max_l 0 (- (lN - lD - 1))) by lia.
    rewrite Z.pow_0_r, Z.mul_1_r.
    apply Z.le_trans with (2 ^ lN); [|exact HN1].
    replace lN with (Z.succ lD + (lN - lD - 1)) at 2 by lia.
    rewrite Z.pow_add_r by lia.
    apply Z.mul_le_mono_nonneg_r; [apply Z.pow_nonneg; lia | lia].
  - rewrite (Z.max_l 0 (lN - lD - 1)), (Z.max_r 0 (- (lN - lD - 1))) by lia.
    rewrite Z.pow_0_r, Z.mul_1_r.
    apply Z.le_trans with (2 ^ Z.succ lD); [lia|].
    replace (Z.succ lD) with (lN + - (lN - lD - 1)) by lia.
    rewrite Z.pow_add_r by lia.
    apply Z.mul_le_mono_nonneg_r; [apply Z.pow_nonneg; lia | lia].
Qed.

(** For a fraction below [2^24] the exponent is at most 23. *)
Lemma exponent_upper (N D : Z) :
  0 < N -> 0 < D -> N < D * 2 ^ 24 -> Float32.exponent N D <= 23.
Proof.
  intros HN HD Hlt. pose proof (exponent_lower N D HN HD) as Hlo.
  destruct (Z_le_gt_dec (Float32.exponent N D) 23) as [Hle | Hgt]; [exact Hle|].
  exfalso. set (e := Float32.exponent N D) in *.
  rewrite (Z.max_r 0 e), (Z.max_l 0 (- e)) in Hlo by lia.
  rewrite Z.pow_0_r, Z.mul_1_r in Hlo.
  assert (2 ^ 24 <= 2 ^ e) by (apply Z.pow_le_mono_r; lia).
  assert (D * 2 ^ 24 <= D * 2 ^ e) by (apply Z.mul_le_mono_nonneg_l; lia).
  lia.
Qed.

Lemma Qceiling_unique (x : Q) (c : Z) :
  (inject_Z c - 1 < x)%Q -> (x <= inject_Z c)%Q -> Qceiling x = c.
Proof.
  intros Hlo Hhi.
  pose proof (Qle_ceiling x) as H1. pose proof (Qceiling_lt x) as H2.
  assert (inject_Z (c - 1) < inject_Z (Qceiling x))%Q as Ha.
  { apply Qlt_le_trans with x; [|exact H1].
    unfold Z.sub. rewrite inject_Z_plus. exact Hlo. }
  assert (inject_Z (Qceiling x - 1) < inject_Z c)%Q as Hb.
  { apply Qlt_le_trans with x; [exact H2 | exact Hhi]. }
  rewrite <- Zlt_Qlt in Ha, Hb. lia.
Qed.

(** The ceiling of a significand [m] scaled by [2^-k]. *)
Lemma Qceiling_scaled (m k c : Z) :
  0 <= k -> (c - 1) * 2 ^ k < m -> m <= c * 2 ^ k ->
  Qceiling (inject_Z m * Qpower 2 (- k)) = c.
Proof.
  intros Hk Hlo Hhi.
  assert (0 < 2 ^ k) as Hp by (apply Z.pow_pos_nonneg; lia).
  assert (0 < inject_Z (2 ^ k))%Q as HpQ.
  { replace 0%Q with (inject_Z 0) by reflexivity. rewrite <- Zlt_Qlt. exact Hp. }
  assert (inject_Z m * Qpower 2 (- k) == inject_Z m / inject_Z (2 ^ k))%Q as E.
  { rewrite Qpower_opp. unfold Qdiv. apply Qmult_comp; [reflexivity|].
    apply Qinv_comp. symmetry. apply (Zpower_Qpower 2 k Hk). }
  apply Qceiling_unique; rewrite E.
  - apply Qlt_shift_div_l; [exact HpQ|].
    assert (inject_Z ((c - 1) * 2 ^ k) < inject_Z m)%Q as Hq
      by (rewrite <- Zlt_Qlt; exact Hlo).
    rewrite inject_Z_mult in Hq. unfold Z.sub in Hq.
    rewrite inject_Z_plus in Hq. exact Hq.
  - apply Qle_shift_div_r; [exact HpQ|].
    rewrite <- inject_Z_mult, <- Zle_Qle. exact Hhi.
Qed.

(** The quotient the source intends, by its defining inequalities. *)
Lemma ceil_div_spec (P S : Z) :
  0 < S -> (ceil_div P S - 1) * S < P <= ceil_div P S * S.
Proof.
  intros HS. unfold ceil_div.
  pose proof (Z.div_mod (P + S - 1) S ltac:(lia)) as E.
  pose proof (Z.mod_pos_bound (P + S - 1) S HS) as Hr. nia.
Qed.

(** Rounding a quotient of two integers below [2^24] to single precision
    does not move it across an integer. *)
Lemma round_ceiling (N D P S : Z) :
  0 < N -> 0 < D -> 0 < P < 2 ^ 24 -> 0 < S < 2 ^ 24 -> N * S = P * D ->
  Qceiling (Float32.round N D) = ceil_div P S.
Proof.
  intros HN HD HP HS E. unfold Float32.round.
  destruct (N =? 0) eqn:E0; [apply Z.eqb_eq in E0; lia|]. clear E0.
  pose proof (exponent_lower N D HN HD) as Hlo.
  assert (N < D * 2 ^ 24) as HND by nia.
  pose proof (exponent_upper N D HN HD HND) as Hup.
  set (e := Float32.exponent N D) in *.
  rewrite (Z.max_l 0 (e - 23)), (Z.max_r 0 (23 - e)) by lia.
  rewrite Z.pow_0_r, Z.mul_1_r.
  pose proof (ceil_div_spec P S ltac:(lia)) as [Hc1 Hc2].
  set (c := ceil_div P S) in *. set (k := 23 - e).
  assert (0 < 2 ^ k) as Hp by (apply Z.pow_pos_nonneg; lia).
  replace (e - 23) with (- k) by lia.
  assert (S < 2 * 2 ^ k) as HSk.
  { destruct (Z_le_gt_dec 0 e) as [He | He].
    - rewrite (Z.max_r 0 e), (Z.max_l 0 (- e)), Z.pow_0_r, Z.mul_1_r in Hlo
        by lia.
      assert (0 < 2 ^ e) as Hpe by (apply Z.pow_pos_nonneg; lia).
      assert (2 ^ e * (2 * 2 ^ k) = 2 ^ 24) as Epow.
      { rewrite <- (Z.pow_succ_r 2 k), <- Z.pow_add_r by lia.
        f_equal. lia. }
      assert (S * 2 ^ e <= P) by nia. nia.
    - assert (2 ^ 23 <= 2 ^ k) by (apply Z.pow_le_mono_r; lia). lia. }
  apply Qceiling_scaled; [lia|..].
  - assert ((c - 1) * 2 ^ k + 1 <= Float32.nearest_even (N * 2 ^ k) D); [|lia].
    apply nearest_even_gt; [exact HD|].
    assert (D <= S * (N - (c - 1) * D)) by nia.
    assert (S * D < 2 * 2 ^ k * (S * (N - (c - 1) * D))) by nia.
    nia.
  - apply nearest_even_le; [exact HD|].
    assert (N <= c * D) by nia. nia.
Qed.

(** An [int] below [2^24] converts to [float] without rounding. *)
Lemma of_int_exact (n : Z) :
  0 < n < 2 ^ 24 ->
  (Float32.of_int n == inject_Z n)%Q /\ 0 < Qnum (Float32.of_int n).
Proof.
  intros Hn.
  assert (Float32.of_int n == inject_Z n)%Q as E.
  { unfold Float32.of_int, Float32.round.
    destruct (n =? 0) eqn:E0; [apply Z.eqb_eq in E0; lia|]. clear E0.
    pose proof (exponent_upper n 1 ltac:(lia) ltac:(lia) ltac:(lia)) as Hup.
    set (e := Float32.exponent n 1) in *.
    rewrite (Z.max_l 0 (e - 23)), (Z.max_r 0 (23 - e)) by lia.
    rewrite Z.pow_0_r, Z.mul_1_r, nearest_even_exact.
    replace (e - 23) with (- (23 - e)) by lia.
    rewrite Qpower_opp, inject_Z_mult, (Zpower_Qpower 2 (23 - e)) by lia.
    change (inject_Z 2) with 2%Q.
    assert (~ 2 ^ (23 - e) == 0)%Q as Hq
      by (apply Qpower_not_0; discriminate).
    revert Hq. generalize (2 ^ (23 - e))%Q. intros q Hq.
    field. exact Hq. }
  split; [exact E|].
  assert (0 < Float32.of_int n)%Q as Hpos.
  { rewrite E. replace 0%Q with (inject_Z 0) by reflexivity.
    rewrite <- Zlt_Qlt. lia. }
  unfold Qlt in Hpos. simpl in Hpos. lia.
Qed.

(** For fewer than [2^24] parameters and a stride below [2^24] the pass
    count computed in single precision is the intended quotient. *)
Lemma num_strides_exact (P S : Z) :
  0 <= P < 2 ^ 24 -> 0 < S < 2 ^ 24 -> num_strides P S = ceil_div P S.
Proof.
  intros HP HS. unfold num_strides, Float32.ceil_to_int, Float32.div.
  destruct (Z.eq_dec P 0) as [-> | HP0].
  - unfold ceil_div. rewrite Z.div_small by lia. reflexivity.
  - destruct (of_int_exact P ltac:(lia)) as [EP HPn].
    destruct (of_int_exact S HS) as [ES HSn].
    apply round_ceiling; [nia | nia | lia | lia |].
    unfold Qeq in EP, ES. simpl in EP, ES. nia.
Qed.

End Float32Properties.

(** * Properties of DynamicAutoDiffCostFunction *)

Section Positions.

Lemma fold_left_add (l : list nat) (n : nat) :
  fold_left Nat.add l n = (n + sum_list l)%nat.
Proof.
  revert n. induction l as [|x l IH]; intros n; simpl; [lia|].
  rewrite IH. lia.
Qed.

Lemma num_parameters_sum (sizes : list nat) :
  num_parameters sizes = sum_list sizes.
Proof. unfold num_parameters. apply fold_left_add. Qed.

(** The loop nest visits the cursors [0 .. num_parameters - 1] in order. *)
Lemma parameter_positions_cursors (sizes : list nat) (i c : nat) :
  (fun p : nat * nat * nat => p.2) <$> parameter_positions sizes i c
  = seq c (sum_list sizes).
Proof.
  revert i c. induction sizes as [|size sizes IH]; intros i c; [reflexivity|].
  cbn [parameter_positions sum_list sum_list_with].
  rewrite fmap_app, IH, seq_app. f_equal.
  rewrite <- list_fmap_compose.
  rewrite (list_fmap_ext _ (Nat.add c) (seq 0 size)) by reflexivity.
  rewrite fmap_add_seq. f_equal. lia.
Qed.

(** The position [(i, j, cursor)] is visited when [j] is an index into
    block [i], and its cursor is the start of the block plus [j]. *)
Lemma parameter_positions_elem_gen (sizes : list nat) (i0 c0 i j c : nat) :
  (i, j, c) ∈ parameter_positions sizes i0 c0 <->
  exists n size, i = (i0 + n)%nat /\ sizes !! n = Some size /\ (j < size)%nat
                 /\ c = (c0 + block_offset sizes n + j)%nat.
Proof.
  revert i0 c0. induction sizes as [|size sizes IH]; intros i0 c0.
  - simpl. split; [intros Hin; inversion Hin|].
    intros (n & size & _ & E & _). rewrite lookup_nil in E. discriminate.
  - cbn [parameter_positions]. rewrite elem_of_app, list_elem_of_fmap, IH.
    unfold block_offset. split.
    + intros [(j' & E & Hj') | (n & size' & -> & En & Hj & ->)].
      * inversion E; subst. apply elem_of_seq in Hj'. exists 0%nat, size.
        simpl. repeat split; lia.
      * exists (S n), size'. simpl. repeat split; [lia | exact En | exact Hj | lia].
    + intros (n & size' & -> & En & Hj & ->). destruct n as [|n].
      * left. simpl in En. inversion En; subst. exists j.
        split; [f_equal; [f_equal|]; simpl; lia | apply elem_of_seq; lia].
      * right. exists n, size'. simpl in *.
        repeat split; [lia | exact En | exact Hj | lia].
Qed.

Lemma parameter_positions_elem (sizes : list nat) (i j c : nat) :
  (i, j, c) ∈ parameter_positions sizes 0 0 <->
  exists size, sizes !! i = Some size /\ (j < size)%nat
               /\ c = (block_offset sizes i + j)%nat.
Proof.
  rewrite parameter_positions_elem_gen. split.
  - intros (n & size & -> & En & Hj & ->). exists size. auto.
  - intros (size & Ei & Hj & ->). exists i, size. auto.
Qed.

Lemma block_offset_bound (sizes : list nat) (i size : nat) :
  sizes !! i = Some size ->
  (block_offset sizes i + size <= sum_list sizes)%nat.
Proof.
  intros Ei. unfold block_offset.
  rewrite <- (take_drop_middle sizes i size Ei) at 2.
  rewrite sum_list_with_app. simpl. lia.
Qed.

(** Every cursor below the number of parameters is visited. *)
Lemma parameter_positions_cover (sizes : list nat) (c : nat) :
  (c < sum_list sizes)%nat ->
  exists i j, (i, j, c) ∈ parameter_positions sizes 0 0.
Proof.
  intros Hc.
  assert (c ∈ (fun p : nat * nat * nat => p.2)
              <$> parameter_positions sizes 0 0) as Hin.
  { rewrite parameter_positions_cursors. apply elem_of_seq. lia. }
  apply list_elem_of_fmap in Hin as ([[i j] c'] & E & Hin). simpl in E.
  subst c'. exists i, j. exact Hin.
Qed.

Lemma parameter_positions_NoDup (sizes : list nat) :
  NoDup ((fun p : nat * nat * nat => p.2) <$> parameter_positions sizes 0 0).
Proof. rewrite parameter_positions_cursors. apply NoDup_seq. Qed.
End Positions.

Lemma NoDup_fmap_elem_inj {A B : Type} (f : A -> B) (l : list A) (x y : A) :
  NoDup (f <$> l) -> x ∈ l -> y ∈ l -> f x = f y -> x = y.
Proof.
  intros Hnd Hx Hy E.
  apply list_elem_of_lookup in Hx as [n Hn].
  apply list_elem_of_lookup in Hy as [m Hm].
  assert (n = m) as ->.
  { apply (NoDup_lookup _ n m (f x) Hnd); rewrite list_lookup_fmap.
    - rewrite Hn. reflexivity.
    - rewrite Hm, E. reflexivity. }
  congruence.
Qed.

Section DynamicProperties.
Context {T : Type} `{Scalar T}.
Variable Stride : nat.
Variable functor_ : DynamicCostFunctor T.
Variable parameter_block_sizes : list nat.
Variable num_residuals : nat.
Variable default_jet : Jet T.

Local Abbreviation P := (num_parameters parameter_block_sizes).
Local Abbreviation positions := (parameter_positions parameter_block_sizes 0 0).
Local Abbreviation initial_input_jets :=
  (initial_input_jets parameter_block_sizes default_jet).
Local Abbreviation seed_input_jets :=
  (seed_input_jets Stride parameter_block_sizes).
Local Abbreviation copy_jacobian :=
  (copy_jacobian parameter_block_sizes num_residuals).
Local Abbreviation copy_residuals := (copy_residuals num_residuals).
Local Abbreviation seed_vector := (seed_vector Stride).
Local Abbreviation entry_position :=
  (entry_position parameter_block_sizes num_residuals).

(** *** The loops of one pass in closed form *)

Lemma seed_input_jets_length lo hi jets :
  length (seed_input_jets lo hi jets) = length jets.
Proof.
  unfold seed_input_jets, for_each_parameter.
  generalize positions. intros ps. revert jets.
  induction ps as [|[[i j] c] ps IH]; intros jets; [reflexivity|].
  cbn [fold_left]. rewrite IH, length_insert. reflexivity.
Qed.

(** The seeding loop rewrites the derivative vector of every jet and keeps
    its value. *)
Lemma seed_input_jets_imap lo hi jets :
  length jets = P ->
  seed_input_jets lo hi jets
  = imap (fun cursor jet => mkJet (a jet) (seed_vector lo hi cursor)) jets.
Proof.
  intros Hlen. unfold seed_input_jets, for_each_parameter.
  pose (g := fun (p : nat * nat * nat) (o : option (Jet T)) =>
               mkJet (a (default zero_jet o)) (seed_vector lo hi p.2)).
  rewrite (fold_left_ext _ (fun l p => <[p.2 := g p (l !! p.2)]> l)).
  2:{ intros l [[i j] c] _. reflexivity. }
  rewrite (fold_read_modify_write _ (fun p => p.2) g)
    by apply parameter_positions_NoDup.
  apply fold_write_imap.
  - intros k x y Ek Hin.
    apply list_elem_of_fmap in Hin as ([[i j] c] & E & _). simpl in E.
    inversion E; subst. rewrite Ek. reflexivity.
  - intros k x Ek Hno. exfalso. apply lookup_lt_Some in Ek.
    rewrite Hlen, num_parameters_sum in Ek.
    destruct (parameter_positions_cover _ _ Ek) as (i & j & Hin).
    eapply Hno. apply list_elem_of_fmap. exists (i, j, k).
    split; [reflexivity | exact Hin].
Qed.

Lemma initial_input_jets_length parameters :
  length (initial_input_jets parameters) = P.
Proof.
  unfold initial_input_jets, for_each_parameter.
  generalize positions. intros ps.
  assert (length (replicate P default_jet) = P) as E
    by apply length_replicate.
  revert E. generalize (replicate P default_jet).
  induction ps as [|[[i j] c] ps IH]; intros jets E; [exact E|].
  cbn [fold_left]. apply IH. rewrite length_insert. exact E.
Qed.

(** The jet at the cursor of position [(i, j)] holds [parameters[i][j]]. *)
Lemma initial_input_jets_lookup parameters i j c :
  (i, j, c) ∈ positions ->
  initial_input_jets parameters !! c
  = Some (mkJet (rd (default [] (parameters !! i)) j) (v default_jet)).
Proof.
  intros Hin. unfold initial_input_jets, for_each_parameter.
  pose (g := fun (p : nat * nat * nat) (o : option (Jet T)) =>
               mkJet (rd (default [] (parameters !! p.1.1)) p.1.2)
                     (v (default zero_jet o))).
  rewrite (fold_left_ext _ (fun l p => <[p.2 := g p (l !! p.2)]> l)).
  2:{ intros l [[i' j'] c'] _. reflexivity. }
  rewrite (fold_read_modify_write _ (fun p => p.2) g)
    by apply parameter_positions_NoDup.
  assert (c < P)%nat as Hc.
  { apply parameter_positions_elem in Hin as (size & Ei & Hj & ->).
    pose proof (block_offset_bound _ _ _ Ei). rewrite num_parameters_sum. lia. }
  apply fold_write_hit.
  - rewrite length_replicate. exact Hc.
  - eexists. apply list_elem_of_fmap. exists (i, j, c).
    split; [reflexivity | exact Hin].
  - intros y Hy. apply list_elem_of_fmap in Hy as (p & E & Hp).
    inversion E as [[Ec Ey]].
    assert (p = (i, j, c)) as ->.
    { apply (NoDup_fmap_elem_inj (fun p : nat * nat * nat => p.2) positions);
        [apply parameter_positions_NoDup | exact Hp | exact Hin | ].
      simpl. congruence. }
    simpl. rewrite lookup_replicate_2 by exact Hc. reflexivity.
Qed.

Lemma copy_residuals_imap outs residuals :
  copy_residuals outs residuals
  = imap (fun k old => if (k <? num_residuals)%nat
                       then a (rd_jet outs k) else old) residuals.
Proof.
  unfold copy_residuals.
  transitivity
    (fold_left write ((fun k => (k, a (rd_jet outs k))) <$> seq 0 num_residuals)
               residuals);
    [rewrite fold_left_fmap; reflexivity|].
  apply fold_write_imap.
  - intros k x y _ Hin. apply list_elem_of_fmap in Hin as (k' & E & Hk').
    inversion E; subst. apply elem_of_seq in Hk'.
    rewrite (proj2 (Nat.ltb_lt _ _)) by lia. reflexivity.
  - intros k x _ Hno. destruct (k <? num_residuals)%nat eqn:E; [|reflexivity].
    apply Nat.ltb_lt in E. exfalso. eapply Hno. apply list_elem_of_fmap.
    exists k. split; [reflexivity|]. apply elem_of_seq. lia.
Qed.

(** The stores of the loop that copies the pieces of the Jacobian. *)
Lemma copy_jacobian_writes lo hi outs jacobians :
  copy_jacobian lo hi outs jacobians
  = fold_left write_block
      (p ← positions;
       if (lo <=? p.2)%nat && (p.2 <? hi)%nat
       then (fun k => (p.1.1,
                       (k * default 0%nat (parameter_block_sizes !! p.1.1)
                        + p.1.2)%nat,
                       rd (v (rd_jet outs k)) (p.2 - lo)))
              <$> seq 0 num_residuals
       else [])
      jacobians.
Proof.
  unfold copy_jacobian, for_each_parameter. rewrite fold_left_bind.
  apply fold_left_ext. intros jacs [[i j] c] _. cbn [fst snd].
  destruct ((lo <=? c)%nat && (c <? hi)%nat); [|reflexivity].
  rewrite fold_left_fmap. reflexivity.
Qed.

Lemma entry_position_Some i idx k c :
  entry_position i idx = Some (k, c) <->
  exists size,
    parameter_block_sizes !! i = Some size
    /\ (idx mod size < size)%nat /\ (k < num_residuals)%nat
    /\ idx = (k * size + idx mod size)%nat
    /\ c = (block_offset parameter_block_sizes i + idx mod size)%nat.
Proof.
  unfold entry_position.
  destruct (parameter_block_sizes !! i) as [size|] eqn:Ei; simpl.
  - destruct (decide (idx < num_residuals * size)%nat) as [Hlt | Hge].
    + assert (size <> 0)%nat as Hs by nia.
      pose proof (Nat.div_mod_eq idx size) as Edm.
      pose proof (Nat.mod_upper_bound idx size Hs) as Hm.
      assert (idx / size < num_residuals)%nat as Hk.
      { apply Nat.Div0.div_lt_upper_bound. lia. }
      split.
      * intros E. inversion E; subst. exists size. repeat split; try lia.
      * intros (size' & E & _ & _ & Eidx & ->). inversion E; subst size'.
        f_equal. f_equal.
        destruct (offset_unique size k (idx mod size) (idx / size)
                    (idx mod size)) as [-> _]; [lia | lia | lia | reflexivity].
    + split; [discriminate|].
      intros (size' & E & Hm & Hk & Eidx & _). inversion E; subst size'.
      exfalso. apply Hge.
      assert ((k + 1) * size <= num_residuals * size)%nat
        by (apply Nat.mul_le_mono_r; lia). lia.
  - rewrite decide_False by lia. split; [discriminate|].
    intros (size & E & _). discriminate.
Qed.

(** The copying loop overwrites the entries of the Jacobians that belong to
    the cursors [lo .. hi - 1] with the derivative components of the output
    jets, and only those. *)
Lemma copy_jacobian_imap lo hi outs jacobians :
  copy_jacobian lo hi outs jacobians
  = imap (fun i block =>
            imap (fun idx old =>
                    match entry_position i idx with
                    | Some (k, c) =>
                        if (lo <=? c)%nat && (c <? hi)%nat
                        then rd (v (rd_jet outs k)) (c - lo)
                        else old
                    | None => old
                    end) block)
         jacobians.
Proof.
  rewrite copy_jacobian_writes. apply fold_write_block_imap.
  - intros i idx block x y _ _ Hin.
    apply list_elem_of_bind in Hin as ([[i' j] c] & Hin & Hp). cbn [fst snd] in Hin.
    destruct ((lo <=? c)%nat && (c <? hi)%nat) eqn:Er; [|inversion Hin].
    apply list_elem_of_fmap in Hin as (k & E & Hk). inversion E; subst.
    apply elem_of_seq in Hk.
    apply parameter_positions_elem in Hp as (size & Ei & Hj & ->).
    rewrite Ei. simpl.
    assert (entry_position i' (k * size + j)%nat
            = Some (k, (block_offset parameter_block_sizes i' + j)%nat)) as ->.
    { apply entry_position_Some. exists size.
      assert ((k * size + j) mod size = j)%nat as ->.
      { rewrite Nat.add_comm, Nat.Div0.mod_add. apply Nat.mod_small, Hj. }
      repeat split; [exact Ei | exact Hj | lia]. }
    rewrite Er. reflexivity.
  - intros i idx block x _ _ Hno.
    destruct (entry_position i idx) as [[k c]|] eqn:Ee; [|reflexivity].
    destruct ((lo <=? c)%nat && (c <? hi)%nat) eqn:Er; [|reflexivity].
    exfalso. apply entry_position_Some in Ee as (size & Ei & Hm & Hk & Eidx & ->).
    eapply (Hno _). apply list_elem_of_bind.
    exists (i, (idx mod size)%nat,
            (block_offset parameter_block_sizes i + idx mod size)%nat).
    cbn [fst snd]. rewrite Er. split.
    + apply list_elem_of_fmap. exists k. rewrite Ei. simpl.
      split; [rewrite <- Eidx; reflexivity | apply elem_of_seq; lia].
    + apply parameter_positions_elem. exists size. auto.
Qed.

(** *** The sequence of passes *)

Variable parameters : list (list T).

Local Abbreviation pass_input :=
  (pass_input Stride parameter_block_sizes default_jet parameters).
Local Abbreviation functor_run :=
  (functor_run Stride functor_ parameter_block_sizes num_residuals default_jet
               parameters).
Local Abbreviation jacobians_after :=
  (jacobians_after Stride functor_ parameter_block_sizes num_residuals
                   default_jet parameters).
Local Abbreviation residuals_after :=
  (residuals_after Stride functor_ parameter_block_sizes num_residuals
                   default_jet parameters).
Local Abbreviation state_after :=
  (state_after Stride functor_ parameter_block_sizes num_residuals default_jet
               parameters).
Local Abbreviation pass_body :=
  (pass_body Stride functor_ parameter_block_sizes num_residuals).
Local Abbreviation passes :=
  (passes Stride functor_ parameter_block_sizes num_residuals).
Local Abbreviation Evaluate :=
  (Evaluate Stride functor_ parameter_block_sizes num_residuals default_jet).
Local Abbreviation strides := (num_strides (Z.of_nat P) (Z.of_nat Stride)).

Lemma pass_input_length p : length (pass_input p) = P.
Proof.
  unfold pass_input. rewrite length_imap. apply initial_input_jets_length.
Qed.

(** Whatever derivative vectors the previous pass left in [input_jets], the
    seeding loop of pass [p] produces [pass_input p]. *)
Lemma seed_state_after p jacobians residuals :
  seed_input_jets (p * Stride) (Nat.min ((p + 1) * Stride) P)
                  (input_jets (state_after p jacobians residuals))
  = pass_input p.
Proof.
  rewrite seed_input_jets_imap.
  - destruct p as [|q]; cbn [state_after input_jets]; [reflexivity|].
    unfold pass_input at 1. rewrite imap_imap. reflexivity.
  - destruct p as [|q]; cbn [state_after input_jets];
      [apply initial_input_jets_length | apply pass_input_length].
Qed.

Lemma call_state_after p jacobians residuals :
  dyn_call_jet functor_ (pass_input p)
               (output_jets (state_after p jacobians residuals))
  = functor_run p.
Proof. destruct p; reflexivity. Qed.

Lemma entry_position_cursor i idx k c :
  entry_position i idx = Some (k, c) -> (c < P)%nat.
Proof.
  intros E. apply entry_position_Some in E as (size & Ei & Hm & _ & _ & ->).
  pose proof (block_offset_bound _ _ _ Ei). rewrite num_parameters_sum. lia.
Qed.

Lemma jacobians_after_step p jacobians :
  copy_jacobian (p * Stride) (Nat.min ((p + 1) * Stride) P) (functor_run p).2
                (jacobians_after p jacobians)
  = jacobians_after (S p) jacobians.
Proof.
  rewrite copy_jacobian_imap. unfold jacobians_after.
  rewrite imap_imap_blocks. apply imap_ext. intros i block _.
  apply imap_ext. intros idx old _.
  destruct (entry_position i idx) as [[k c]|] eqn:Ee; [|reflexivity].
  pose proof (entry_position_cursor _ _ _ _ Ee) as Hc.
  destruct ((p * Stride <=? c)%nat && (c <? Nat.min ((p + 1) * Stride) P)%nat)
    eqn:Er.
  - apply andb_true_iff in Er as [E1 E2].
    apply Nat.leb_le in E1. apply Nat.ltb_lt in E2.
    rewrite (proj2 (Nat.ltb_lt c (S p * Stride))) by lia.
    assert (Stride <> 0)%nat as Hs by lia.
    assert (c / Stride = p)%nat as ->.
    { symmetry. apply (Nat.div_unique c Stride p (c - p * Stride)); lia. }
    assert (c mod Stride = c - p * Stride)%nat as ->.
    { symmetry. apply (Nat.mod_unique c Stride p (c - p * Stride)); lia. }
    reflexivity.
  - apply andb_false_iff in Er.
    destruct (c <? p * Stride)%nat eqn:E1.
    + apply Nat.ltb_lt in E1.
      rewrite (proj2 (Nat.ltb_lt c (S p * Stride))) by lia. reflexivity.
    + apply Nat.ltb_ge in E1.
      rewrite (proj2 (Nat.ltb_ge c (S p * Stride))); [reflexivity|].
      destruct Er as [Er | Er];
        [apply Nat.leb_gt in Er | apply Nat.ltb_ge in Er]; lia.
Qed.

Lemma residuals_after_step p residuals :
  (if Z.of_nat p =? strides - 1
   then copy_residuals (functor_run p).2 (residuals_after p residuals)
   else residuals_after p residuals)
  = residuals_after (S p) residuals.
Proof.
  unfold residuals_after. destruct (Z.of_nat p =? strides - 1) eqn:E.
  - apply Z.eqb_eq in E. rewrite decide_False by lia.
    rewrite decide_True by lia. rewrite <- E, Nat2Z.id. reflexivity.
  - apply Z.eqb_neq in E.
    destruct (decide (0 <= strides - 1 < Z.of_nat p)) as [Hd | Hd].
    + rewrite decide_True by lia. reflexivity.
    + rewrite decide_False by lia. reflexivity.
Qed.

(** One pass from the state that the passes before it leave. *)
Lemma pass_body_state_after p jacobians residuals :
  pass_body p (state_after p jacobians residuals)
  = if (functor_run p).1
    then (true, state_after (S p) jacobians residuals)
    else (false,
          {| input_jets := pass_input p;
             output_jets := (functor_run p).2;
             ps_jacobians := jacobians_after p jacobians;
             ps_residuals := residuals_after p residuals;
             ps_calls := pass_input <$> seq 0 (S p) |}).
Proof.
  unfold pass_body. rewrite seed_state_after, call_state_after.
  pose proof (jacobians_after_step p jacobians) as Ej.
  pose proof (residuals_after_step p residuals) as Er.
  unfold state_after.
  cbn [input_jets output_jets ps_jacobians ps_residuals ps_calls].
  destruct (functor_run p) as [ok outs]. cbn [fst snd] in *.
  rewrite Ej, Er, seq_S, fmap_app. destruct ok; reflexivity.
Qed.

Lemma jacobians_after_0 jacobians : jacobians_after 0 jacobians = jacobians.
Proof.
  unfold jacobians_after. apply list_eq. intros i. rewrite list_lookup_imap.
  destruct (jacobians !! i) as [block|]; [|reflexivity]. simpl. f_equal.
  apply list_eq. intros idx. rewrite list_lookup_imap.
  destruct (block !! idx) as [old|]; [|reflexivity]. simpl. f_equal.
  destruct (entry_position i idx) as [[k c]|]; reflexivity.
Qed.

Lemma residuals_after_early p residuals :
  Z.of_nat p < strides -> residuals_after p residuals = residuals.
Proof. intros Hp. unfold residuals_after. rewrite decide_False by lia. reflexivity. Qed.

Lemma state_after_0 jacobians residuals :
  state_after 0 jacobians residuals
  = {| input_jets := initial_input_jets parameters;
       output_jets := replicate num_residuals default_jet;
       ps_jacobians := jacobians; ps_residuals := residuals;
       ps_calls := [] |}.
Proof.
  unfold state_after. rewrite jacobians_after_0.
  unfold residuals_after. rewrite decide_False by lia. reflexivity.
Qed.

(** The passes run one after the other as long as the functor succeeds. *)
Lemma passes_state_after n p jacobians residuals :
  (forall q, (p <= q < p + n)%nat -> (functor_run q).1 = true) ->
  passes n p (state_after p jacobians residuals)
  = (true, state_after (p + n) jacobians residuals).
Proof.
  revert p. induction n as [|n IH]; intros p Hok.
  - rewrite Nat.add_0_r. reflexivity.
  - cbn [passes]. rewrite pass_body_state_after, (Hok p) by lia.
    rewrite IH by (intros q Hq; apply Hok; lia).
    replace (S p + n)%nat with (p + S n)%nat by lia. reflexivity.
Qed.

(** They stop at the first pass in which it fails. *)
Lemma passes_first_failure n p f jacobians residuals :
  (p <= f < p + n)%nat ->
  (forall q, (p <= q < f)%nat -> (functor_run q).1 = true) ->
  (functor_run f).1 = false ->
  passes n p (state_after p jacobians residuals)
  = (false,
     {| input_jets := pass_input f;
        output_jets := (functor_run f).2;
        ps_jacobians := jacobians_after f jacobians;
        ps_residuals := residuals_after f residuals;
        ps_calls := pass_input <$> seq 0 (S f) |}).
Proof.
  revert p. induction n as [|n IH]; intros p Hf Hok Hfail; [lia|].
  cbn [passes]. rewrite pass_body_state_after.
  destruct (decide (p = f)) as [-> | Hne].
  - rewrite Hfail. reflexivity.
  - rewrite (Hok p) by lia. apply IH; [lia | | exact Hfail].
    intros q Hq. apply Hok. lia.
Qed.

(** Either every one of [n] passes succeeds or there is a first that
    fails. *)
Lemma first_failure (n : nat) :
  (forall q, (q < n)%nat -> (functor_run q).1 = true)
  \/ exists f, (f < n)%nat
               /\ (forall q, (q < f)%nat -> (functor_run q).1 = true)
               /\ (functor_run f).1 = false.
Proof.
  induction n as [|n [Hall | (f & Hf & Hok & Hfail)]].
  - left. intros q Hq. lia.
  - destruct (functor_run n).1 eqn:E.
    + left. intros q Hq. destruct (decide (q = n)) as [-> | Hne];
        [exact E | apply Hall; lia].
    + right. exists n. split; [lia|]. split; [|exact E].
      intros q Hq. apply Hall, Hq.
  - right. exists f. split; [lia|]. split; assumption.
Qed.

(** *** Entries of the Jacobians *)

Lemma jacobian_entry_after p jacobians i idx :
  jacobian_entry (jacobians_after p jacobians) i idx
  = (fun old =>
       match entry_position i idx with
       | Some (k, c) =>
           if (c <? p * Stride)%nat
           then rd (v (rd_jet (functor_run (c / Stride)).2 k)) (c mod Stride)
           else old
       | None => old
       end) <$> jacobian_entry jacobians i idx.
Proof.
  unfold jacobian_entry, jacobians_after. rewrite list_lookup_imap.
  destruct (jacobians !! i) as [block|]; [|reflexivity]. simpl.
  rewrite list_lookup_imap. reflexivity.
Qed.

(** The offset [k * size + j] in block [i] is the entry of residual [k] and
    of the cursor of position [(i, j)]. *)
Lemma entry_position_of_position i j c k :
  (i, j, c) ∈ positions -> (k < num_residuals)%nat ->
  entry_position
    i (k * default 0%nat (parameter_block_sizes !! i) + j)%nat
  = Some (k, c).
Proof.
  intros Hin Hk. apply parameter_positions_elem in Hin as (size & Ei & Hj & ->).
  rewrite Ei. simpl. apply entry_position_Some. exists size.
  assert ((k * size + j) mod size = j)%nat as ->.
  { rewrite Nat.add_comm, Nat.Div0.mod_add. apply Nat.mod_small, Hj. }
  repeat split; [exact Ei | exact Hj | exact Hk].
Qed.

(** *** Evaluate *)

Lemma Evaluate_success residuals jacobians :
  num_residuals <> 0%nat ->
  (forall q, (q < Z.to_nat strides)%nat -> (functor_run q).1 = true) ->
  Evaluate parameters residuals (Some jacobians)
  = Some {| ev_ok := true;
            ev_residuals := residuals_after (Z.to_nat strides) residuals;
            ev_jacobians := jacobians_after (Z.to_nat strides) jacobians;
            ev_calls := pass_input <$> seq 0 (Z.to_nat strides) |}.
Proof.
  intros HR Hok. unfold Evaluate.
  rewrite (proj2 (Nat.eqb_neq _ _) HR), <- state_after_0.
  rewrite passes_state_after by (intros q Hq; apply Hok; lia).
  reflexivity.
Qed.

Lemma Evaluate_failure f residuals jacobians :
  num_residuals <> 0%nat ->
  (f < Z.to_nat strides)%nat ->
  (forall q, (q < f)%nat -> (functor_run q).1 = true) ->
  (functor_run f).1 = false ->
  Evaluate parameters residuals (Some jacobians)
  = Some {| ev_ok := false;
            ev_residuals := residuals;
            ev_jacobians := jacobians_after f jacobians;
            ev_calls := pass_input <$> seq 0 (S f) |}.
Proof.
  intros HR Hf Hok Hfail. unfold Evaluate.
  rewrite (proj2 (Nat.eqb_neq _ _) HR), <- state_after_0.
  rewrite (passes_first_failure _ 0 f) by (try lia; auto with lia).
  cbn [ps_residuals ps_jacobians ps_calls].
  rewrite residuals_after_early by lia. reflexivity.
Qed.

(** C9: when the functor returns [false] in pass [f], after succeeding in
    the passes before it, [Evaluate] returns [false] at once, having
    invoked the functor [f + 1] times: the residual buffer is as the caller
    passed it, while the Jacobian entries of the cursors below
    [f * Stride], written by the earlier passes, hold the derivatives those
    passes computed; all other entries are as the caller passed them. *)
Theorem Evaluate_is_not_atomic_on_failure f residuals jacobians :
  num_residuals <> 0%nat ->
  (f < Z.to_nat strides)%nat ->
  (forall q, (q < f)%nat -> (functor_run q).1 = true) ->
  (functor_run f).1 = false ->
  exists ev,
    Evaluate parameters residuals (Some jacobians) = Some ev
    /\ ev_ok ev = false
    /\ ev_residuals ev = residuals
    /\ length (ev_calls ev) = S f
    /\ (forall i j c k,
          (i, j, c) ∈ positions -> (k < num_residuals)%nat ->
          jacobian_entry (ev_jacobians ev) i
            (k * default 0%nat (parameter_block_sizes !! i) + j)%nat
          = (fun old =>
               if (c <? f * Stride)%nat
               then rd (v (rd_jet (functor_run (c / Stride)).2 k))
                       (c mod Stride)
               else old)
            <$> jacobian_entry jacobians i
                  (k * default 0%nat (parameter_block_sizes !! i) + j)%nat)
    /\ (forall i idx,
          entry_position i idx = None ->
          jacobian_entry (ev_jacobians ev) i idx
          = jacobian_entry jacobians i idx).
Proof.
  intros HR Hf Hok Hfail. eexists.
  split; [apply (Evaluate_failure f); assumption|].
  cbn [ev_ok ev_residuals ev_calls ev_jacobians].
  split; [reflexivity|]. split; [reflexivity|].
  split; [rewrite length_fmap, length_seq; reflexivity|]. split.
  - intros i j c k Hin Hk. rewrite jacobian_entry_after.
    rewrite (entry_position_of_position _ _ _ _ Hin Hk). reflexivity.
  - intros i idx Ee. rewrite jacobian_entry_after, Ee.
    destruct (jacobian_entry jacobians i idx); reflexivity.
Qed.

Lemma seed_vector_length lo hi c : length (seed_vector lo hi c) = Stride.
Proof.
  unfold seed_vector. destruct (_ && _);
    rewrite ?length_insert, length_replicate; reflexivity.
Qed.

Lemma seed_vector_lookup lo hi c d :
  (d < Stride)%nat ->
  seed_vector lo hi c !! d
  = Some (if decide ((lo <= c < hi)%nat /\ d = (c - lo)%nat)
          then s_one else s_zero).
Proof.
  intros Hd. unfold seed_vector.
  destruct ((lo <=? c)%nat && (c <? hi)%nat) eqn:Er.
  - apply andb_true_iff in Er as [E1 E2].
    apply Nat.leb_le in E1. apply Nat.ltb_lt in E2.
    destruct (decide (d = (c - lo)%nat)) as [-> | Hne].
    + rewrite list_lookup_insert_eq by (rewrite length_replicate; exact Hd).
      rewrite decide_True by lia. reflexivity.
    + rewrite list_lookup_insert_ne by congruence.
      rewrite lookup_replicate_2 by exact Hd.
      rewrite decide_False by tauto. reflexivity.
  - rewrite lookup_replicate_2 by exact Hd.
    rewrite decide_False; [reflexivity|]. intros [Hr _].
    apply andb_false_iff in Er as [Er | Er];
      [apply Nat.leb_gt in Er | apply Nat.ltb_ge in Er]; lia.
Qed.

(** The jets of pass [q]: the value of each parameter, a derivative vector
    of [Stride] zeros, and a one in slot [d] of the parameter at cursor
    [q * Stride + d]. *)
Lemma pass_input_lookup q c :
  (c < P)%nat ->
  exists jet,
    pass_input q !! c = Some jet
    /\ (forall i j, (i, j, c) ∈ positions ->
          a jet = rd (default [] (parameters !! i)) j)
    /\ length (v jet) = Stride
    /\ forall d, (d < Stride)%nat ->
         v jet !! d
         = Some (if decide (c = (q * Stride + d)%nat) then s_one else s_zero).
Proof.
  intros Hc. unfold pass_input.
  destruct (lookup_lt_is_Some_2 (initial_input_jets parameters) c) as [jet0 E0].
  { rewrite initial_input_jets_length. exact Hc. }
  eexists. rewrite list_lookup_imap, E0. simpl.
  split; [reflexivity|]. cbn [a v]. split; [|split].
  - intros i j Hin. rewrite (initial_input_jets_lookup _ _ _ _ Hin) in E0.
    inversion E0. reflexivity.
  - apply seed_vector_length.
  - intros d Hd. rewrite seed_vector_lookup by exact Hd. f_equal.
    destruct (decide (c = (q * Stride + d)%nat)) as [-> | Hne].
    + rewrite decide_True by lia. reflexivity.
    + rewrite decide_False by lia. reflexivity.
Qed.

(** C5 (as amended): with Jacobians requested, fewer than [2^24]
    parameters, a stride from 1 to below [2^24], and a functor that returns
    [true] in every pass, [Evaluate] returns [true] after exactly
    [ceil(P / Stride)] passes.  Pass [q] invokes the functor on jets whose
    derivative slots are all zero except for a one in slot [d] of the
    parameter at cursor [q * Stride + d]; it writes the Jacobian entries of
    the cursors [q * Stride .. (q + 1) * Stride - 1] and no other entry;
    the residual buffer is untouched before the last pass and receives the
    values of the output jets of the last pass. *)
Theorem Evaluate_runs_ceil_passes residuals jacobians :
  num_residuals <> 0%nat ->
  (0 < Stride)%nat ->
  Z.of_nat P < 2 ^ 24 ->
  Z.of_nat Stride < 2 ^ 24 ->
  let n := Z.to_nat (ceil_div (Z.of_nat P) (Z.of_nat Stride)) in
  (forall q, (q < n)%nat -> (functor_run q).1 = true) ->
  exists ev,
    Evaluate parameters residuals (Some jacobians) = Some ev
    /\ ev_ok ev = true
    /\ length (ev_calls ev) = n
    /\ (forall q, (q < n)%nat -> ev_calls ev !! q = Some (pass_input q))
    /\ (forall q c, (c < P)%nat ->
          exists jet,
            pass_input q !! c = Some jet
            /\ (forall i j, (i, j, c) ∈ positions ->
                  a jet = rd (default [] (parameters !! i)) j)
            /\ length (v jet) = Stride
            /\ forall d, (d < Stride)%nat ->
                 v jet !! d
                 = Some (if decide (c = (q * Stride + d)%nat)
                         then s_one else s_zero))
    /\ (forall q, (q <= n)%nat ->
          passes q 0
                 {| input_jets := initial_input_jets parameters;
                    output_jets := replicate num_residuals default_jet;
                    ps_jacobians := jacobians; ps_residuals := residuals;
                    ps_calls := [] |}
          = (true, state_after q jacobians residuals))
    /\ (forall q i idx,
          (forall k c, entry_position i idx = Some (k, c) ->
                       ~ (q * Stride <= c < (q + 1) * Stride)%nat) ->
          jacobian_entry (jacobians_after (S q) jacobians) i idx
          = jacobian_entry (jacobians_after q jacobians) i idx)
    /\ (forall i j c k,
          (i, j, c) ∈ positions -> (k < num_residuals)%nat ->
          jacobian_entry (ev_jacobians ev) i
            (k * default 0%nat (parameter_block_sizes !! i) + j)%nat
          = (fun _ => rd (v (rd_jet (functor_run (c / Stride)).2 k))
                         (c mod Stride))
            <$> jacobian_entry jacobians i
                  (k * default 0%nat (parameter_block_sizes !! i) + j)%nat)
    /\ (forall i idx,
          entry_position i idx = None ->
          jacobian_entry (ev_jacobians ev) i idx
          = jacobian_entry jacobians i idx)
    /\ (forall q, (q < n)%nat -> residuals_after q residuals = residuals)
    /\ ((0 < P)%nat ->
        ev_residuals ev = copy_residuals (functor_run (n - 1)).2 residuals
        /\ forall k, (k < num_residuals)%nat -> (k < length residuals)%nat ->
             ev_residuals ev !! k = Some (a (rd_jet (functor_run (n - 1)).2 k))).
Proof.
  intros HR HS HP HSb n Hok.
  assert (strides = ceil_div (Z.of_nat P) (Z.of_nat Stride)) as En
    by (apply num_strides_exact; lia).
  assert (Z.to_nat strides = n) as En' by (rewrite En; reflexivity).
  pose proof (ceil_div_spec (Z.of_nat P) (Z.of_nat Stride) ltac:(lia))
    as [Hc1 Hc2].
  assert (0 <= ceil_div (Z.of_nat P) (Z.of_nat Stride)) as Hc0 by nia.
  assert (P <= n * Stride)%nat as Hcover by (unfold n; nia).
  eexists. split.
  { apply Evaluate_success; [exact HR|]. rewrite En'. exact Hok. }
  cbn [ev_ok ev_residuals ev_calls ev_jacobians]. rewrite En'.
  split; [reflexivity|].
  split; [rewrite length_fmap, length_seq; reflexivity|].
  split.
  { intros q Hq. rewrite list_lookup_fmap, lookup_seq_lt by exact Hq.
    reflexivity. }
  split; [intros q c Hc; apply pass_input_lookup, Hc|].
  split.
  { intros q Hq. rewrite <- state_after_0.
    apply passes_state_after. intros q' Hq'. apply Hok. lia. }
  split.
  { intros q i idx Hout. rewrite !jacobian_entry_after.
    destruct (entry_position i idx) as [[k c]|] eqn:Ee; [|reflexivity].
    specialize (Hout k c eq_refl).
    destruct (c <? q * Stride)%nat eqn:E1.
    - apply Nat.ltb_lt in E1.
      rewrite (proj2 (Nat.ltb_lt c (S q * Stride))) by lia. reflexivity.
    - apply Nat.ltb_ge in E1.
      rewrite (proj2 (Nat.ltb_ge c (S q * Stride))) by lia. reflexivity. }
  split.
  { intros i j c k Hin Hk. rewrite jacobian_entry_after.
    rewrite (entry_position_of_position _ _ _ _ Hin Hk).
    pose proof (entry_position_cursor _ _ _ _
                  (entry_position_of_position _ _ _ _ Hin Hk)) as Hc.
    rewrite (proj2 (Nat.ltb_lt c (n * Stride))) by lia. reflexivity. }
  split.
  { intros i idx Ee. rewrite jacobian_entry_after, Ee.
    destruct (jacobian_entry jacobians i idx); reflexivity. }
  split.
  { intros q Hq. apply residuals_after_early. lia. }
  intros HP0.
  assert (1 <= n)%nat as Hn1 by (unfold n; nia).
  assert (residuals_after n residuals
          = copy_residuals (functor_run (n - 1)).2 residuals) as Er.
  { unfold residuals_after. rewrite decide_True by lia.
    replace (Z.to_nat (strides - 1)) with (n - 1)%nat by lia. reflexivity. }
  split; [exact Er|].
  intros k Hk Hlen. rewrite Er, copy_residuals_imap, list_lookup_imap.
  destruct (lookup_lt_is_Some_2 residuals k Hlen) as [old ->]. simpl.
  rewrite (proj2 (Nat.ltb_lt _ _) Hk). reflexivity.
Qed.

(** Whatever the functor does, no pass writes a Jacobian entry of a cursor
    at or beyond [num_strides * Stride]. *)
Lemma Evaluate_leaves_uncovered residuals jacobians ev i idx k c :
  Evaluate parameters residuals (Some jacobians) = Some ev ->
  entry_position i idx = Some (k, c) ->
  (Z.to_nat strides * Stride <= c)%nat ->
  jacobian_entry (ev_jacobians ev) i idx = jacobian_entry jacobians i idx.
Proof.
  intros Eev Ee Hc.
  assert (num_residuals <> 0%nat) as HR.
  { intros E0. unfold Evaluate in Eev. rewrite E0 in Eev. discriminate. }
  assert (exists f, (f <= Z.to_nat strides)%nat
                    /\ ev_jacobians ev = jacobians_after f jacobians)
    as (f & Hf & ->).
  { destruct (first_failure (Z.to_nat strides))
      as [Hall | (f & Hf & Hok & Hfail)].
    - rewrite Evaluate_success in Eev by assumption.
      inversion Eev; subst. exists (Z.to_nat strides). split; [lia|reflexivity].
    - rewrite (Evaluate_failure f) in Eev by assumption.
      inversion Eev; subst. exists f. split; [lia|reflexivity]. }
  rewrite jacobian_entry_after, Ee.
  assert (f * Stride <= Z.to_nat strides * Stride)%nat
    by (apply Nat.mul_le_mono_r; exact Hf).
  rewrite (proj2 (Nat.ltb_ge c (f * Stride))) by lia.
  destruct (jacobian_entry jacobians i idx); reflexivity.
Qed.

(** With a positive number of residuals [Evaluate] returns. *)
Lemma Evaluate_total residuals jacobians :
  num_residuals <> 0%nat ->
  exists ev, Evaluate parameters residuals (Some jacobians) = Some ev.
Proof.
  intros HR.
  destruct (first_failure (Z.to_nat strides)) as [Hall | (f & Hf & Hok & Hfail)].
  - eexists. apply Evaluate_success; assumption.
  - eexists. apply (Evaluate_failure f); assumption.
Qed.

End DynamicProperties.

(** * Functors that are generic in the width of their jets *)

Section ExpressionFunctors.
Context {T : Type} `{Scalar T}.

(** The jet arithmetic acts on every derivative component alike. *)
Lemma eval_jet_agree (N M c c' : nat) (ins ins' : list (Jet T)) (e : Expr) :
  (c < N)%nat -> (c' < M)%nat ->
  Forall2 (jets_agree N M c c') ins ins' ->
  jets_agree N M c c' (eval_jet N ins e) (eval_jet M ins' e).
Proof.
  intros Hc Hc' Hins.
  induction e as [i | z | e1 IH1 e2 IH2 | e1 IH1 e2 IH2 | e1 IH1 e2 IH2
                  | e1 IH1 e2 IH2]; cbn [eval_jet].
  - pose proof (proj1 (Forall2_lookup _ _ _) Hins i) as Hi.
    destruct Hi as [x y Hxy|]; simpl; [exact Hxy|].
    unfold jets_agree. cbn [a v]. rewrite !length_replicate.
    rewrite !lookup_replicate_2 by assumption. auto.
  - unfold jets_agree. cbn [a v]. rewrite !length_replicate.
    rewrite !lookup_replicate_2 by assumption. auto.
  - destruct IH1 as (Ea1 & L1 & L1' & E1), IH2 as (Ea2 & L2 & L2' & E2).
    unfold jets_agree, jet_add. cbn [a v].
    rewrite !length_zip_with, !lookup_zip_with, Ea1, Ea2, L1, L2, L1', L2', E1, E2.
    repeat split; lia.
  - destruct IH1 as (Ea1 & L1 & L1' & E1), IH2 as (Ea2 & L2 & L2' & E2).
    unfold jets_agree, jet_sub. cbn [a v].
    rewrite !length_zip_with, !lookup_zip_with, Ea1, Ea2, L1, L2, L1', L2', E1, E2.
    repeat split; lia.
  - destruct IH1 as (Ea1 & L1 & L1' & E1), IH2 as (Ea2 & L2 & L2' & E2).
    unfold jets_agree, jet_mul. cbn [a v].
    rewrite !length_zip_with, !length_map, !lookup_zip_with, !list_lookup_fmap.
    rewrite Ea1, Ea2, L1, L2, L1', L2', E1, E2.
    repeat split; lia.
  - destruct IH1 as (Ea1 & L1 & L1' & E1), IH2 as (Ea2 & L2 & L2' & E2).
    unfold jets_agree, jet_div. cbn [a v].
    rewrite !length_zip_with, !lookup_zip_with, Ea1, Ea2, L1, L2, L1', L2', E1, E2.
    repeat split; lia.
Qed.

(** Every functor written in the expression language is generic in the
    width of its jets. *)
Lemma expr_functor_width_generic (guard : Expr) (es : list Expr) :
  width_generic (expr_functor (T:=T) guard es).
Proof.
  intros N M c c' ins ins' outs outs' Hc Hc' Hins.
  pose proof (eval_jet_agree N M c c' ins ins' guard Hc Hc' Hins) as (Eg & _).
  cbn [expr_functor dyn_call_jet]. rewrite Eg.
  destruct (a (eval_jet M ins' guard) <? s_zero)%S; cbn [fst snd];
    (split; [reflexivity|]); [discriminate|]. intros _.
  induction es as [|e es IH]; [constructor|].
  constructor; [apply eval_jet_agree; assumption | exact IH].
Qed.
End ExpressionFunctors.

Section StrideInvariance.
Context {T : Type} `{Scalar T}.
Variable F : nat -> DynamicCostFunctor T.
Hypothesis F_generic : width_generic F.
Variable parameter_block_sizes : list nat.
Variable num_residuals : nat.
Variable default_jet : Jet T.
Variable parameters : list (list T).
Variable Stride : nat.

Local Abbreviation P := (num_parameters parameter_block_sizes).
Local Abbreviation input_strided :=
  (pass_input Stride parameter_block_sizes default_jet parameters).
Local Abbreviation input_single :=
  (pass_input P parameter_block_sizes default_jet parameters 0).
Local Abbreviation run_strided :=
  (functor_run Stride (F Stride) parameter_block_sizes num_residuals
               default_jet parameters).
Local Abbreviation run_single :=
  (functor_run P (F P) parameter_block_sizes num_residuals default_jet
               parameters 0).

(** Slot [d] of the jets of pass [q] of the strided evaluation carries the
    seed that slot [q * Stride + d] carries in the single pass. *)
Lemma pass_inputs_agree q d :
  (d < Stride)%nat -> (q * Stride + d < P)%nat ->
  Forall2 (jets_agree Stride P d (q * Stride + d)) (input_strided q)
          input_single.
Proof.
  intros Hd Hc. apply Forall2_same_length_lookup_2.
  { rewrite !pass_input_length. reflexivity. }
  intros c x y. unfold pass_input. rewrite !list_lookup_imap.
  destruct (initial_input_jets _ _ _ !! c) as [jet0|] eqn:E0; [|discriminate].
  assert (c < P)%nat as Hlt.
  { apply lookup_lt_Some in E0. rewrite initial_input_jets_length in E0.
    exact E0. }
  simpl. intros Ex Ey. inversion Ex; inversion Ey; subst.
  unfold jets_agree. cbn [a v]. rewrite !seed_vector_length.
  rewrite !seed_vector_lookup by lia.
  repeat split. f_equal.
  destruct (decide (c = (q * Stride + d)%nat)) as [-> | Hne].
  - rewrite !decide_True by lia. reflexivity.
  - rewrite !decide_False by lia. reflexivity.
Qed.

Lemma runs_agree q d :
  (d < Stride)%nat -> (q * Stride + d < P)%nat ->
  (run_strided q).1 = run_single.1
  /\ ((run_strided q).1 = true ->
      Forall2 (jets_agree Stride P d (q * Stride + d))
              (run_strided q).2 run_single.2).
Proof.
  intros Hd Hc. destruct q as [|q]; cbn [functor_run];
    apply F_generic; try lia; apply pass_inputs_agree; assumption.
Qed.

(** Agreeing arrays of jets give the same reads. *)
Lemma jets_agree_rd (N M c c' : nat) (outs outs' : list (Jet T)) (k : nat) :
  Forall2 (jets_agree N M c c') outs outs' ->
  a (rd_jet outs k) = a (rd_jet outs' k)
  /\ rd (v (rd_jet outs k)) c = rd (v (rd_jet outs' k)) c'.
Proof.
  intros Hagree. unfold rd_jet, rd.
  pose proof (proj1 (Forall2_lookup _ _ _) Hagree k) as Hk.
  destruct Hk as [x y (Ea & _ & _ & Ev)|]; simpl.
  - rewrite Ea, Ev. auto.
  - auto.
Qed.

(** X13: stride invariance for fewer than [2^24] parameters: for a functor that
    is generic in the width of its jets, [Evaluate] with jets of width
    [Stride] and [Evaluate] with jets of width [P] (a single pass over all
    seed directions) return the same flag and leave the same residuals and
    the same Jacobians.  No law of arithmetic is used: the two evaluations
    perform the same operations on the same numbers. *)
Theorem stride_invariance_below_2_24 residuals jacobians :
  num_residuals <> 0%nat ->
  (1 <= P)%nat -> Z.of_nat P < 2 ^ 24 ->
  (1 <= Stride)%nat -> Z.of_nat Stride < 2 ^ 24 ->
  (fun ev => (ev_ok ev, ev_residuals ev, ev_jacobians ev))
    <$> Evaluate Stride (F Stride) parameter_block_sizes num_residuals
                 default_jet parameters residuals (Some jacobians)
  = (fun ev => (ev_ok ev, ev_residuals ev, ev_jacobians ev))
    <$> Evaluate P (F P) parameter_block_sizes num_residuals
                 default_jet parameters residuals (Some jacobians).
Proof.
  intros HR HP1 HP HS1 HS.
  assert (num_strides (Z.of_nat P) (Z.of_nat Stride)
          = ceil_div (Z.of_nat P) (Z.of_nat Stride)) as En
    by (apply num_strides_exact; lia).
  assert (num_strides (Z.of_nat P) (Z.of_nat P) = 1) as En1.
  { rewrite num_strides_exact by lia. unfold ceil_div.
    replace (Z.of_nat P + Z.of_nat P - 1)
      with (1 * Z.of_nat P + (Z.of_nat P - 1)) by lia.
    rewrite Z.div_add_l, Z.div_small by lia. reflexivity. }
  pose proof (ceil_div_spec (Z.of_nat P) (Z.of_nat Stride) ltac:(lia))
    as [Hc1 Hc2].
  set (n := Z.to_nat (ceil_div (Z.of_nat P) (Z.of_nat Stride))).
  assert (1 <= n)%nat as Hn1 by (unfold n; nia).
  assert (P <= n * Stride)%nat as Hcover by (unfold n; nia).
  assert ((n - 1) * Stride < P)%nat as Hlast by (unfold n; nia).
  destruct run_single.1 eqn:Eok.
  - (* every pass succeeds *)
    assert (forall q, (q < n)%nat -> (run_strided q).1 = true) as Hall.
    { intros q Hq. destruct (runs_agree q 0) as [-> _]; [lia | nia | exact Eok]. }
    rewrite Evaluate_success; [|exact HR | rewrite En; exact Hall].
    rewrite Evaluate_success;
      [|exact HR | rewrite En1; intros q Hq; replace q with 0%nat by lia;
                   exact Eok].
    rewrite En, En1. fold n. change (Z.to_nat 1) with 1%nat.
    cbn [fmap option_fmap option_map].
    cbn [ev_ok ev_residuals ev_jacobians]. f_equal. f_equal; [f_equal|].
    + unfold residuals_after. rewrite En, En1. fold n.
      rewrite !decide_True by lia.
      replace (Z.to_nat (ceil_div (Z.of_nat P) (Z.of_nat Stride) - 1))
        with (n - 1)%nat by (unfold n; lia).
      replace (Z.to_nat (1 - 1)) with 0%nat by lia.
      rewrite !copy_residuals_imap. apply imap_ext. intros k old _.
      destruct (k <? num_residuals)%nat; [|reflexivity].
      destruct (runs_agree (n - 1) 0) as [_ Hagree]; [lia | lia |].
      assert (n - 1 < n)%nat as Hq by lia.
      apply (proj1 (jets_agree_rd _ _ _ _ _ _ k (Hagree (Hall _ Hq)))).
    + unfold jacobians_after. apply imap_ext. intros i block _.
      apply imap_ext. intros idx old _.
      destruct (entry_position _ _ i idx) as [[k c]|] eqn:Ee; [|reflexivity].
      pose proof (entry_position_cursor _ _ _ _ _ _ Ee) as Hc.
      rewrite (proj2 (Nat.ltb_lt c (n * Stride))) by lia.
      rewrite (proj2 (Nat.ltb_lt c (1 * P))) by lia.
      rewrite (Nat.div_small c P), (Nat.mod_small c P) by lia.
      pose proof (Nat.div_mod_eq c Stride) as Edm.
      pose proof (Nat.mod_upper_bound c Stride ltac:(lia)) as Hm.
      assert (c / Stride < n)%nat as Hq
        by (apply Nat.Div0.div_lt_upper_bound; lia).
      destruct (runs_agree (c / Stride) (c mod Stride)) as [_ Hagree];
        [lia | lia |].
      replace (c / Stride * Stride + c mod Stride)%nat with c in Hagree by lia.
      apply (proj2 (jets_agree_rd _ _ _ _ _ _ k (Hagree (Hall _ Hq)))).
  - (* the first pass fails in both *)
    assert ((run_strided 0).1 = false) as Efail.
    { destruct (runs_agree 0 0) as [-> _]; [lia | lia | exact Eok]. }
    rewrite (Evaluate_failure _ _ _ _ _ _ 0);
      [|exact HR | rewrite En; fold n; lia | intros q Hq; lia | exact Efail].
    rewrite (Evaluate_failure _ _ _ _ _ _ 0);
      [|exact HR | rewrite En1; lia | intros q Hq; lia | exact Eok].
    cbn [fmap option_fmap option_map ev_ok ev_residuals ev_jacobians].
    rewrite !jacobians_after_0. reflexivity.
Qed.
End StrideInvariance.

(** * Evaluate on concrete functors *)

(** Strides 1, 2 and 4 on a functor with three parameters in two blocks:
    three, two and one pass, and the same outcome as the single pass of
    width three. *)
Example stride_invariance_on_three_parameters :
  let run S :=
    (fun ev => (ev_ok ev, ev_residuals ev, ev_jacobians ev,
                length (ev_calls ev)))
      <$> Evaluate S (three_parameter_functor S) [1; 2]%nat 2 zero_jet
                   [[2%Q]; [3%Q; 4%Q]] [0%Q; 0%Q]
                   (Some [[0%Q; 0%Q]; [0%Q; 0%Q; 0%Q; 0%Q]]) in
  let outcome n :=
    Some (true, [8%Q; (-5)%Q], [[2%Q; 0%Q]; [2%Q; 1 # 2; 1%Q; (-2)%Q]], n) in
  run 1%nat = outcome 3%nat /\ run 2%nat = outcome 2%nat
  /\ run 3%nat = outcome 1%nat /\ run 4%nat = outcome 1%nat.
Proof. vm_compute. repeat split. Qed.

(** C5, as stated, fails: a functor that returns [false] in the first of
    two passes ends [Evaluate] after one pass, and the residuals are never
    copied. *)
Lemma failed_pass_ends_the_passes :
  ~ (forall (functor : DynamicCostFunctor Q) sizes R parameters residuals
            jacobians ev,
       Evaluate 1 functor sizes R zero_jet parameters residuals
                (Some jacobians) = Some ev ->
       Z.of_nat (length (ev_calls ev))
       = ceil_div (Z.of_nat (num_parameters sizes)) 1).
Proof.
  intros Hall.
  specialize (Hall (always_failing_functor 1) [2%nat] 1%nat [[3%Q; 4%Q]]
                   [0%Q] [[0%Q; 0%Q]] _ eq_refl).
  vm_compute in Hall. discriminate.
Qed.

Example failed_pass_leaves_residuals :
  (fun ev => (ev_ok ev, ev_residuals ev, length (ev_calls ev)))
    <$> Evaluate 1 (always_failing_functor 1) [2%nat] 1 zero_jet
                 [[3%Q; 4%Q]] [0%Q] (Some [[0%Q; 0%Q]])
  = Some (false, [0%Q], 1%nat).
Proof. vm_compute. reflexivity. Qed.

Lemma Evaluate_runs_ceil_passes_witness :
  exists ev,
    Evaluate 2 (three_parameter_functor 2) [1; 2]%nat 2 zero_jet
             [[2%Q]; [3%Q; 4%Q]] [0%Q; 0%Q]
             (Some [[0%Q; 0%Q]; [0%Q; 0%Q; 0%Q; 0%Q]]) = Some ev
    /\ ev_ok ev = true /\ length (ev_calls ev) = 2%nat.
Proof.
  destruct (Evaluate_runs_ceil_passes
              2 (three_parameter_functor 2) [1; 2]%nat 2 zero_jet
              [[2%Q]; [3%Q; 4%Q]] [0%Q; 0%Q]
              [[0%Q; 0%Q]; [0%Q; 0%Q; 0%Q; 0%Q]])
    as (ev & E & Hok & Hlen & _).
  - discriminate.
  - lia.
  - vm_compute. reflexivity.
  - vm_compute. reflexivity.
  - intros q Hq. destruct q as [|[|q]]; [reflexivity | reflexivity |].
    vm_compute in Hq. lia.
  - exists ev. auto.
Defined.

(** A failure in the second of two passes: [Evaluate] returns [false], the
    residual is not written, and the Jacobian holds the column of the first
    pass. *)
Lemma Evaluate_is_not_atomic_on_failure_witness :
  exists ev,
    Evaluate 1 rejects_seed_of_x1 [2%nat] 1 zero_jet [[3%Q; 4%Q]] [0%Q]
             (Some [[0%Q; 0%Q]]) = Some ev
    /\ ev_ok ev = false /\ ev_residuals ev = [0%Q].
Proof.
  destruct (Evaluate_is_not_atomic_on_failure
              1 rejects_seed_of_x1 [2%nat] 1 zero_jet [[3%Q; 4%Q]]
              1 [0%Q] [[0%Q; 0%Q]])
    as (ev & E & Hok & Hres & _).
  - discriminate.
  - vm_compute. lia.
  - intros q Hq. destruct q as [|q]; [reflexivity | lia].
  - reflexivity.
  - exists ev. auto.
Defined.

Example second_pass_failure_keeps_first_column :
  Evaluate 1 rejects_seed_of_x1 [2%nat] 1 zero_jet [[3%Q; 4%Q]] [0%Q]
           (Some [[0%Q; 0%Q]])
  = Some {| ev_ok := false; ev_residuals := [0%Q];
            ev_jacobians := [[1%Q; 0%Q]];
            ev_calls := [[mkJet 3%Q [1%Q]; mkJet 4%Q [0%Q]];
                         [mkJet 3%Q [0%Q]; mkJet 4%Q [1%Q]]] |}.
Proof. vm_compute. reflexivity. Qed.

(** * The pass count beyond [2^24] parameters *)

Lemma coordinate_functor_succeeds index N Stride sizes R dj parameters q :
  (functor_run Stride (coordinate_functor index N) sizes R dj parameters q).1
  = true.
Proof. destruct q; reflexivity. Qed.

Lemma coordinate_functor_output index N Stride sizes R dj parameters q :
  (functor_run Stride (coordinate_functor index N) sizes R dj parameters q).2
  = [default (mkJet s_zero (replicate N s_zero))
             (pass_input Stride sizes dj parameters q !! index)].
Proof. destruct q; reflexivity. Qed.

(** One block of [N = 2^24 + 1] parameters, one residual equal to the last
    parameter, Jacobian buffer zeroed.  With [Stride = 1] the entry of the
    last parameter is never written; the single pass of width [N] writes
    the derivative, one. *)
Lemma last_column (N : nat) parameters residuals :
  Z.of_nat N = 16777217 ->
  (exists ev,
     Evaluate 1 (coordinate_functor (N - 1) 1) [N] 1 zero_jet parameters
              residuals (Some [replicate N 0%Q]) = Some ev
     /\ jacobian_entry (ev_jacobians ev) 0 (N - 1) = Some 0%Q)
  /\ (exists ev,
        Evaluate N (coordinate_functor (N - 1) N) [N] 1 zero_jet parameters
                 residuals (Some [replicate N 0%Q]) = Some ev
        /\ jacobian_entry (ev_jacobians ev) 0 (N - 1) = Some 1%Q).
Proof.
  intros HN.
  assert (num_strides 16777217 1 = 16777216) as E1 by (vm_compute; reflexivity).
  assert (num_strides 16777217 16777217 = 1) as EN by (vm_compute; reflexivity).
  assert ((0%nat, (N - 1)%nat, (N - 1)%nat) ∈ parameter_positions [N] 0 0) as Hpos.
  { apply parameter_positions_elem. exists N.
    split; [reflexivity|]. split; [lia | reflexivity]. }
  pose proof (entry_position_of_position [N] 1 0 (N - 1) (N - 1) 0 Hpos
                ltac:(lia)) as Ee.
  change (0 * default 0%nat ([N] !! 0%nat) + (N - 1))%nat with (N - 1)%nat in Ee.
  assert (jacobian_entry [replicate N 0%Q] 0 (N - 1) = Some 0%Q) as Eold.
  { unfold jacobian_entry. cbn [lookup list_lookup mbind option_bind].
    apply lookup_replicate_2. lia. }
  split.
  - destruct (Evaluate_total 1 (coordinate_functor (N - 1) 1) [N] 1 zero_jet
                parameters residuals [replicate N 0%Q] ltac:(lia)) as [ev Eev].
    exists ev. split; [exact Eev|]. rewrite <- Eold.
    apply (Evaluate_leaves_uncovered _ _ _ _ _ _ _ _ _ _ _ 0 (N - 1)%nat Eev Ee).
    change (num_parameters [N]) with N. rewrite HN.
    change (Z.of_nat 1) with 1. rewrite E1. lia.
  - eexists. split.
    + apply Evaluate_success; [lia|]. intros q _.
      apply coordinate_functor_succeeds.
    + cbn [ev_jacobians]. change (num_parameters [N]) with N. rewrite HN, EN.
      change (Z.to_nat 1) with 1%nat.
      rewrite jacobian_entry_after, Ee, Eold.
      rewrite (proj2 (Nat.ltb_lt (N - 1) (1 * N))) by lia.
      rewrite Nat.div_small, Nat.mod_small by lia.
      rewrite coordinate_functor_output.
      destruct (pass_input_lookup N [N] zero_jet parameters 0 (N - 1))
        as (jet & Ejet & _ & _ & Ev).
      { change (num_parameters [N]) with N. lia. }
      rewrite Ejet. cbn [fmap option_fmap option_map default rd_jet lookup
                         list_lookup].
      unfold rd, id. rewrite (Ev (N - 1)%nat) by lia.
      rewrite decide_True by lia. reflexivity.
Qed.

(** C4 (the code does not do this beyond [2^24] parameters): for
    [2^24 + 1] parameters the number of passes is computed as
    [int(ceil(16777217 / float(Stride)))], in which the count is first
    rounded to the [float] [16777216]; with [Stride = 1] only [16777216]
    passes run instead of [16777217] (with [Stride = 4], [4194304] instead
    of [4194305]), and the Jacobian column of the last parameter is never
    written: for a residual equal to that parameter it keeps the zero of
    the caller's buffer, where the single pass of width [P] stores the
    derivative, one. *)
Theorem strided_evaluation_skips_last_parameter :
  num_strides 16777217 1 = 16777216 /\ ceil_div 16777217 1 = 16777217
  /\ num_strides 16777217 4 = 4194304 /\ ceil_div 16777217 4 = 4194305
  /\ forall parameters residuals,
       let N := Z.to_nat 16777217 in
       (exists ev,
          Evaluate 1 (coordinate_functor (N - 1) 1) [N] 1 zero_jet parameters
                   residuals (Some [replicate N 0%Q]) = Some ev
          /\ jacobian_entry (ev_jacobians ev) 0 (N - 1) = Some 0%Q)
       /\ (exists ev,
             Evaluate N (coordinate_functor (N - 1) N) [N] 1 zero_jet
                      parameters residuals (Some [replicate N 0%Q]) = Some ev
             /\ jacobian_entry (ev_jacobians ev) 0 (N - 1) = Some 1%Q).
Proof.
  split; [vm_compute; reflexivity|]. split; [vm_compute; reflexivity|].
  split; [vm_compute; reflexivity|]. split; [vm_compute; reflexivity|].
  intros parameters residuals.
  apply (last_column (Z.to_nat 16777217) parameters residuals).
  apply Z2Nat.id. discriminate.
Qed.

(** * Further properties of TinySolver::Solve *)

Section SolveProperties.
Context {T : Type} `{Scalar T}.
Variable NUM_RESIDUALS NUM_PARAMETERS : option nat.
Variable linear_solve : list T -> list T -> list T.
Variable isApprox : list T -> list T -> bool.
Variable uninit : T.

Local Abbreviation Update := (Update NUM_RESIDUALS NUM_PARAMETERS).
Local Abbreviation Initialize := (Initialize NUM_RESIDUALS NUM_PARAMETERS uninit).
Local Abbreviation iteration :=
  (iteration NUM_RESIDUALS NUM_PARAMETERS linear_solve isApprox).
Local Abbreviation loop := (loop NUM_RESIDUALS NUM_PARAMETERS linear_solve isApprox).
Local Abbreviation Solve_init := (Solve_init NUM_RESIDUALS NUM_PARAMETERS uninit).
Local Abbreviation Solve_run :=
  (Solve_run NUM_RESIDUALS NUM_PARAMETERS linear_solve isApprox uninit).
Local Abbreviation Solve :=
  (Solve NUM_RESIDUALS NUM_PARAMETERS linear_solve isApprox uninit).
Local Abbreviation step_solved :=
  (step_solved NUM_PARAMETERS linear_solve isApprox).
Local Abbreviation step_too_small := (step_too_small NUM_PARAMETERS linear_solve).
Local Abbreviation step_rho := (step_rho NUM_PARAMETERS linear_solve).
Local Abbreviation step_x_new := (step_x_new NUM_PARAMETERS linear_solve).
Local Abbreviation parameter_count := (parameter_count NUM_PARAMETERS).
Local Abbreviation residual_count := (residual_count NUM_RESIDUALS).

(** [Update] returns one of three statuses. *)
Lemma Update_three_statuses function x s :
  (Update function x s).1 = RUNNING
  \/ (Update function x s).1 = GRADIENT_TOO_SMALL
  \/ (Update function x s).1 = ERROR_TOO_SMALL.
Proof.
  unfold Update.
  destruct (fn_eval_jacobian function x (error_ s) (jacobian_ s)) as [[ok r] J].
  repeat case_match; simpl; auto.
Qed.

(** After [Update] the normal equations are those of the Jacobian and the
    error in the buffers. *)
Lemma Update_normal_equations function x s :
  let s' := (Update function x s).2 in
  jtj_ s' = m_JtJ (residual_count function) (parameter_count function)
                  (jacobian_ s')
  /\ g_ s' = m_Jtv (residual_count function) (parameter_count function)
                   (jacobian_ s') (error_ s').
Proof.
  unfold Update.
  destruct (fn_eval_jacobian function x (error_ s) (jacobian_ s)) as [[ok r] J].
  repeat case_match; simpl; auto.
Qed.

Lemma iteration_break_status function ls :
  (iteration function ls).1 = StepTooSmall ->
  status (results (ls_solver (iteration function ls).2))
  = RELATIVE_STEP_SIZE_TOO_SMALL.
Proof.
  unfold iteration.
  destruct (step_solved function ls); [|discriminate].
  destruct (step_too_small function ls); [reflexivity|].
  destruct (s_zero <? step_rho function ls)%S; [|discriminate].
  destruct (Update _ _ _) as [st s3]. discriminate.
Qed.

(** An iteration that reaches [++i] does not assign
    RELATIVE_STEP_SIZE_TOO_SMALL. *)
Lemma iteration_next_status function ls :
  status (results (ls_solver ls)) <> RELATIVE_STEP_SIZE_TOO_SMALL ->
  (iteration function ls).1 <> StepTooSmall ->
  status (results (ls_solver (iteration function ls).2))
  <> RELATIVE_STEP_SIZE_TOO_SMALL.
Proof.
  intros Hs. unfold iteration.
  destruct (step_solved function ls); [|intros _; exact Hs].
  destruct (step_too_small function ls); [intros E; contradiction|].
  destruct (s_zero <? step_rho function ls)%S; [|intros _; exact Hs].
  match goal with |- context [Update ?f ?x ?s] =>
    pose proof (Update_three_statuses f x s) as Hu;
    destruct (Update f x s) as [st s3] end.
  simpl in *. intros _ E. rewrite E in Hu.
  destruct Hu as [Hu | [Hu | Hu]]; discriminate.
Qed.

(** *** How the loop ends *)

(** A loop that ends with the status still RUNNING has used up its [n]
    values of [i], and none of its iterations left by [break]. *)
Lemma loop_still_running function n ls :
  status (results (ls_solver (loop function n ls).2)) = RUNNING ->
  ls_i (loop function n ls).2 = ls_i ls + Z.of_nat n
  /\ length (loop function n ls).1 = n
  /\ StepTooSmall ∉ (loop function n ls).1.
Proof.
  pattern n, ls, (loop function n ls). apply loop_ind; clear n ls;
    cbn [fst snd].
  - intros ls _. split; [lia|]. split; [reflexivity|]. apply not_elem_of_nil.
  - intros n ls Hs E. contradiction.
  - intros n ls _ Eo E. rewrite (iteration_break_status _ _ Eo) in E.
    discriminate.
  - intros n ls _ Ho IH E. destruct (IH E) as (Hi & Hl & Hn).
    cbn [next_i ls_i] in Hi. rewrite iteration_i in Hi.
    split; [lia|]. split; [cbn [length]; lia|].
    intros Hin. apply elem_of_cons in Hin as [Hin | Hin]; [|contradiction].
    apply Ho. symmetry. exact Hin.
Qed.

Lemma completed_iterations_cons o os :
  completed_iterations (o :: os)
  = (if Outcome_eqb o StepTooSmall then 0 else 1) + completed_iterations os.
Proof.
  unfold completed_iterations. cbn [List.filter].
  destruct (Outcome_eqb o StepTooSmall); cbn [negb length]; lia.
Qed.

(** The counter [i] counts the iterations that reached [++i]; an iteration
    that leaves by [break] is the last one, and it is the only way to the
    status RELATIVE_STEP_SIZE_TOO_SMALL. *)
Lemma loop_break function n ls :
  status (results (ls_solver ls)) <> RELATIVE_STEP_SIZE_TOO_SMALL ->
  ls_i (loop function n ls).2
  = ls_i ls + completed_iterations (loop function n ls).1
  /\ (forall k, (loop function n ls).1 !! k = Some StepTooSmall ->
        S k = length (loop function n ls).1)
  /\ (status (results (ls_solver (loop function n ls).2))
      = RELATIVE_STEP_SIZE_TOO_SMALL
      <-> last (loop function n ls).1 = Some StepTooSmall).
Proof.
  pattern n, ls, (loop function n ls). apply loop_ind; clear n ls;
    cbn [fst snd].
  - intros ls Hs. split; [unfold completed_iterations; simpl; lia|].
    split; [intros k E; discriminate|]. simpl. split; [contradiction|discriminate].
  - intros n ls _ Hs. split; [unfold completed_iterations; simpl; lia|].
    split; [intros k E; discriminate|]. simpl. split; [contradiction|discriminate].
  - intros n ls _ Eo _. rewrite iteration_i.
    split; [unfold completed_iterations; simpl; lia|].
    split.
    + intros [|k] E; [reflexivity | discriminate].
    + rewrite (iteration_break_status _ _ Eo). simpl. split; reflexivity.
  - intros n ls _ Ho IH Hs.
    destruct IH as (Hi & Hk & Hl).
    { cbn [next_i ls_solver]. apply iteration_next_status; assumption. }
    cbn [next_i ls_i] in Hi. rewrite iteration_i in Hi.
    rewrite completed_iterations_cons.
    destruct (Outcome_eqb (iteration function ls).1 StepTooSmall) eqn:E.
    { apply Outcome_eqb_eq in E. contradiction. }
    split; [lia|]. split.
    + intros [|k] Ek.
      * simpl in Ek. inversion Ek. contradiction.
      * simpl in Ek. cbn [length]. f_equal. apply Hk, Ek.
    + rewrite Hl. destruct (loop function n _).1 as [|o' os'] eqn:El.
      * simpl. split; [discriminate|]. intros Ek. inversion Ek. contradiction.
      * reflexivity.
Qed.

(** X1: [Solve] reports HIT_MAX_ITERATIONS only when the loop ran out of
    iterations: the status was still RUNNING after [max_iterations]
    iterations (none, when [max_iterations <= 0]), each of which reached
    [++i], and [results.iterations] is that number. *)
Theorem hit_max_iterations_after_all_iterations function x s :
  status (Solve function x s) = HIT_MAX_ITERATIONS ->
  iterations (Solve function x s) = Z.max 0 (max_iterations (params s))
  /\ length (Solve_run function x s).1.1
     = Z.to_nat (max_iterations (params s))
  /\ StepTooSmall ∉ (Solve_run function x s).1.1.
Proof.
  destruct (Solve_unfold NUM_RESIDUALS NUM_PARAMETERS linear_solve isApprox
              uninit function x s) as (-> & -> & _).
  pose proof (loop_still_running function
                (Z.to_nat (max_iterations (params s)))
                (Solve_init function x s)) as Hrun.
  pose proof (loop_status NUM_RESIDUALS NUM_PARAMETERS linear_solve isApprox
                function (Z.to_nat (max_iterations (params s)))
                (Solve_init function x s)
                (proj1 (Solve_init_results NUM_RESIDUALS NUM_PARAMETERS uninit
                          function x s))) as Hst.
  destruct (Solve_init_results NUM_RESIDUALS NUM_PARAMETERS uninit
              function x s) as (_ & _ & _ & H0).
  rewrite H0 in Hrun.
  destruct (loop _ _ _) as [os ls]. cbn [fst snd] in *.
  unfold Solve_finish. cbn [results status iterations].
  destruct (Status_eqb (status (results (ls_solver ls))) RUNNING) eqn:E.
  - intros _. apply Status_eqb_eq in E. destruct (Hrun E) as (Hi & Hl & Hn).
    split; [lia|]. split; assumption.
  - intros E'. rewrite E' in Hst.
    destruct Hst as [Hst | [Hst | [Hst | Hst]]]; discriminate.
Qed.

(** X2: [results.iterations] is the number of iterations that reached
    [++i]; the iteration that leaves the loop through the step-size test
    is not counted, nothing runs after it, and Solve reports
    RELATIVE_STEP_SIZE_TOO_SMALL exactly when the last iteration left that
    way. *)
Theorem step_size_exit_is_last_and_not_counted function x s :
  let os := (Solve_run function x s).1.1 in
  iterations (Solve function x s) = completed_iterations os
  /\ (forall k, os !! k = Some StepTooSmall -> S k = length os)
  /\ (status (Solve function x s) = RELATIVE_STEP_SIZE_TOO_SMALL
      <-> last os = Some StepTooSmall).
Proof.
  cbn zeta.
  destruct (Solve_unfold NUM_RESIDUALS NUM_PARAMETERS linear_solve isApprox
              uninit function x s) as (-> & -> & _).
  assert (status (results (ls_solver (Solve_init function x s)))
          <> RELATIVE_STEP_SIZE_TOO_SMALL) as Hs0.
  { unfold Solve_init.
    pose proof (Update_three_statuses function x (Initialize function s)) as Hu.
    destruct (Update _ _ _) as [st s1]. cbn [ls_solver set_status results status].
    simpl in Hu. intros E. rewrite E in Hu.
    destruct Hu as [Hu | [Hu | Hu]]; discriminate. }
  pose proof (loop_break function (Z.to_nat (max_iterations (params s)))
                (Solve_init function x s) Hs0) as (Hi & Hk & Hl).
  destruct (Solve_init_results NUM_RESIDUALS NUM_PARAMETERS uninit
              function x s) as (_ & _ & _ & H0).
  rewrite H0 in Hi.
  destruct (loop _ _ _) as [os ls]. cbn [fst snd] in *.
  unfold Solve_finish. cbn [results status iterations].
  split; [lia|]. split; [exact Hk|].
  rewrite <- Hl.
  destruct (Status_eqb (status (results (ls_solver ls))) RUNNING) eqn:E.
  - apply Status_eqb_eq in E. rewrite E. split; discriminate.
  - reflexivity.
Qed.

(** *** Runs without an iteration *)

Lemma loop_no_iteration function n ls :
  (loop function n ls).1 = [] <->
  n = O \/ status (results (ls_solver ls)) <> RUNNING.
Proof.
  split.
  - destruct n as [|n]; [auto|]. intros E. right. intros Hs.
    rewrite (loop_running NUM_RESIDUALS NUM_PARAMETERS linear_solve isApprox
               function n ls Hs) in E.
    cbn zeta in E. destruct (iteration function ls).1; discriminate.
  - intros [-> | Hs]; [reflexivity|].
    rewrite (loop_stopped NUM_RESIDUALS NUM_PARAMETERS linear_solve isApprox
               function n ls Hs).
    reflexivity.
Qed.

Lemma loop_no_iteration_state function n ls :
  (loop function n ls).1 = [] -> (loop function n ls).2 = ls.
Proof.
  intros E. apply loop_no_iteration in E as [-> | Hs]; [reflexivity|].
  rewrite (loop_stopped NUM_RESIDUALS NUM_PARAMETERS linear_solve isApprox
             function n ls Hs).
  reflexivity.
Qed.

(** X3: [Solve] runs no iteration exactly when the first [Update] does not
    return RUNNING or [max_iterations <= 0].  It then leaves [x] as it
    was, reports zero iterations and the count of failed linear solves it
    found in the object, the status of that [Update] (HIT_MAX_ITERATIONS
    in place of RUNNING), and the norms of the buffers that [Update]
    left. *)
Theorem Solve_without_iteration function x s :
  let first := Update function x (Initialize function s) in
  let run := Solve_run function x s in
  (run.1.1 = [] <->
     first.1 <> RUNNING \/ max_iterations (params s) <= 0)
  /\ (run.1.1 = [] ->
      run.1.2 = x
      /\ iterations (Solve function x s) = 0
      /\ num_failed_linear_solves (Solve function x s)
         = num_failed_linear_solves (results s)
      /\ status (Solve function x s)
         = (if Status_eqb first.1 RUNNING then HIT_MAX_ITERATIONS
            else first.1)
      /\ error_magnitude (Solve function x s) = norm (error_ first.2)
      /\ gradient_magnitude (Solve function x s) = norm (g_ first.2)).
Proof.
  cbn zeta.
  destruct (Solve_unfold NUM_RESIDUALS NUM_PARAMETERS linear_solve isApprox
              uninit function x s) as (-> & -> & -> & _).
  assert (status (results (ls_solver (Solve_init function x s)))
          = (Update function x (Initialize function s)).1
          /\ error_ (ls_solver (Solve_init function x s))
             = error_ (Update function x (Initialize function s)).2
          /\ g_ (ls_solver (Solve_init function x s))
             = g_ (Update function x (Initialize function s)).2)
    as (Hst & He & Hg).
  { unfold Solve_init. destruct (Update _ _ _) as [st s1]. auto. }
  destruct (Solve_init_results NUM_RESIDUALS NUM_PARAMETERS uninit
              function x s) as (_ & Hn & _ & H0).
  split.
  - rewrite loop_no_iteration, Hst. split; intros [E | E]; auto.
    + right. lia.
    + left. lia.
  - intros E. rewrite (loop_no_iteration_state _ _ _ E).
    unfold Solve_finish. cbn [results iterations num_failed_linear_solves
                              status error_magnitude gradient_magnitude].
    rewrite Hst, He, Hg, Hn, H0.
    split; [apply Solve_init_x|]. auto 10.
Qed.

(** *** The buffers belong to the current point *)

Section FillsBuffers.
Variable function : Function T.
Variable r J : list T -> list T.
Hypothesis function_fills :
  fills_buffers (residual_count function) (parameter_count function)
                function r J.

Local Abbreviation R := (residual_count function).
Local Abbreviation P := (parameter_count function).
Local Abbreviation at_current_point := (at_current_point R P r J).
Local Abbreviation sized s :=
  (length (error_ s) = R /\ length (jacobian_ s) = (R * P)%nat).

Lemma Update_fills x s :
  sized s ->
  let s' := (Update function x s).2 in
  let gradient_small :=
    (maxCoeff (map s_abs (g_ s')) <? gradient_threshold (params s))%S in
  let error_small := (norm (error_ s') <? error_threshold (params s))%S in
  sized s'
  /\ error_ s' = v_neg (r x) /\ jacobian_ s' = J x
  /\ jtj_ s' = m_JtJ R P (J x)
  /\ g_ s' = m_Jtv R P (J x) (v_neg (r x))
  /\ ((Update function x s).1 = GRADIENT_TOO_SMALL -> gradient_small = true)
  /\ ((Update function x s).1 = ERROR_TOO_SMALL ->
      gradient_small = false /\ error_small = true)
  /\ ((Update function x s).1 = RUNNING ->
      gradient_small = false /\ error_small = false).
Proof.
  intros [He Hj].
  destruct (function_fills x (error_ s) (jacobian_ s) He Hj)
    as (Er & EJ & Hr & HJ).
  unfold Update.
  destruct (fn_eval_jacobian function x (error_ s) (jacobian_ s))
    as [[ok res] jac].
  cbn [fst snd] in Er, EJ. subst res jac.
  destruct (maxCoeff _ <? _)%S eqn:E1; [|destruct (norm _ <? _)%S eqn:E2];
    cbn [fst snd error_ jacobian_ jtj_ g_]; rewrite ?E1, ?E2;
    (split; [split; [unfold v_neg; rewrite length_map; exact Hr | exact HJ]|]);
    repeat (split; [reflexivity|]);
    repeat split; intros; try discriminate; reflexivity.
Qed.

Lemma Solve_init_at_current_point x s :
  sized (Initialize function s) ->
  sized (ls_solver (Solve_init function x s))
  /\ at_current_point (Solve_init function x s).
Proof.
  intros Hsz. unfold Solve_init.
  pose proof (Update_fills x (Initialize function s) Hsz) as Hu.
  pose proof (Update_results NUM_RESIDUALS NUM_PARAMETERS function x
                (Initialize function s)) as [_ Hp].
  destruct (Update _ _ _) as [st s1]. cbn [fst snd] in Hu, Hp.
  cbn zeta in Hu. rewrite <- Hp in Hu.
  unfold at_current_point.
  cbn [ls_solver ls_x set_status error_ jacobian_ jtj_ g_ results status
       params].
  destruct Hu as (Hs & He & Hj & Hjtj & Hg & H1 & H2 & H3).
  split; [exact Hs|]. auto 10.
Qed.

Lemma iteration_at_current_point ls :
  sized (ls_solver ls) -> at_current_point ls ->
  sized (ls_solver (iteration function ls).2)
  /\ at_current_point (iteration function ls).2.
Proof.
  intros Hsz Hat. unfold iteration.
  destruct (step_solved function ls).
  2:{ split; [exact Hsz | exact Hat]. }
  destruct (step_too_small function ls).
  { split; [exact Hsz|]. unfold at_current_point in *.
    cbn [ls_solver ls_x set_status error_ jacobian_ jtj_ g_ results status
         params].
    destruct Hat as (He & Hj & Hjtj & Hg & _).
    repeat (split; [assumption|]).
    repeat split; intros; discriminate. }
  destruct (s_zero <? step_rho function ls)%S.
  2:{ split; [exact Hsz | exact Hat]. }
  match goal with |- context [Update ?f ?x ?s] =>
    pose proof (Update_fills x s Hsz) as Hu;
    pose proof (Update_results NUM_RESIDUALS NUM_PARAMETERS f x s) as [_ Hp];
    destruct (Update f x s) as [st s3] end.
  cbn [fst snd] in Hu, Hp. cbn zeta in Hu. rewrite <- Hp in Hu.
  unfold at_current_point.
  cbn [ls_solver ls_x set_status error_ jacobian_ jtj_ g_ results status
       params].
  destruct Hu as (Hs & He & Hj & Hjtj & Hg & H1 & H2 & H3).
  split; [exact Hs|]. auto 10.
Qed.

Lemma loop_at_current_point n ls :
  sized (ls_solver ls) -> at_current_point ls ->
  sized (ls_solver (loop function n ls).2)
  /\ at_current_point (loop function n ls).2.
Proof.
  pattern n, ls, (loop function n ls). apply loop_ind; clear n ls;
    cbn [fst snd]; auto.
  - intros _ ls _ _. apply iteration_at_current_point.
  - intros n ls _ _ IH Hsz Hat.
    destruct (iteration_at_current_point ls Hsz Hat) as [Hsz' Hat'].
    apply IH; [exact Hsz' | exact Hat'].
Qed.

(** X4: for a cost function that overwrites its two output buffers with
    values determined by [x], everything [Solve] reports belongs to the
    vector it returns in [*x_and_min]: [error_], [jacobian_], [jtj_] and
    [g_] are those of the evaluation at the returned [x], the two
    magnitudes are the norms of that error and gradient, and the status is
    the verdict of the two tests of [Update] there: the gradient test holds
    under GRADIENT_TOO_SMALL, fails while the error test holds under
    ERROR_TOO_SMALL, and both fail under HIT_MAX_ITERATIONS. *)
Theorem Solve_reports_the_returned_point x s :
  length (error_ (Initialize function s)) = R ->
  length (jacobian_ (Initialize function s)) = (R * P)%nat ->
  let x' := (Solve_run function x s).1.2 in
  let s' := (Solve_run function x s).2 in
  let error := v_neg (r x') in
  let g := m_Jtv R P (J x') error in
  let gradient_small :=
    (maxCoeff (map s_abs g) <? gradient_threshold (params s))%S in
  let error_small := (norm error <? error_threshold (params s))%S in
  error_ s' = error /\ jacobian_ s' = J x' /\ jtj_ s' = m_JtJ R P (J x')
  /\ g_ s' = g
  /\ error_magnitude (Solve function x s) = norm error
  /\ gradient_magnitude (Solve function x s) = norm g
  /\ (status (Solve function x s) = GRADIENT_TOO_SMALL ->
      gradient_small = true)
  /\ (status (Solve function x s) = ERROR_TOO_SMALL ->
      gradient_small = false /\ error_small = true)
  /\ (status (Solve function x s) = HIT_MAX_ITERATIONS ->
      gradient_small = false /\ error_small = false).
Proof.
  intros He Hj. cbn zeta.
  destruct (Solve_init_at_current_point x s (conj He Hj)) as [Hsz Hat].
  pose proof (loop_at_current_point (Z.to_nat (max_iterations (params s)))
                _ Hsz Hat) as [_ Hend].
  pose proof (loop_params NUM_RESIDUALS NUM_PARAMETERS linear_solve isApprox
                function (Z.to_nat (max_iterations (params s)))
                (Solve_init function x s)) as Hp.
  pose proof (loop_status NUM_RESIDUALS NUM_PARAMETERS linear_solve isApprox
                function (Z.to_nat (max_iterations (params s)))
                (Solve_init function x s)
                (proj1 (Solve_init_results NUM_RESIDUALS NUM_PARAMETERS
                          uninit function x s))) as Hst.
  destruct (Solve_init_results NUM_RESIDUALS NUM_PARAMETERS uninit
              function x s) as (_ & _ & Hp0 & _).
  rewrite Hp0 in Hp.
  unfold Solve, Solve_run.
  destruct (loop _ _ _) as [os ls]. cbn [fst snd] in *.
  unfold at_current_point in Hend. cbn zeta in Hend. rewrite Hp in Hend.
  destruct Hend as (Ee & EJ & Ejtj & Eg & H1 & H2 & H3).
  unfold Solve_finish.
  cbn [error_ jacobian_ jtj_ g_ results error_magnitude gradient_magnitude
       status].
  rewrite <- Eg, <- Ee.
  repeat (split; [assumption || reflexivity|]).
  destruct (Status_eqb (status (results (ls_solver ls))) RUNNING) eqn:E.
  - apply Status_eqb_eq in E.
    split; [discriminate|]. split; [discriminate|]. intros _. exact (H3 E).
  - split; [exact H1|]. split; [exact H2|]. intros E'. exfalso.
    rewrite E' in Hst. destruct Hst as [Hst | [Hst | [Hst | Hst]]];
      discriminate.
Qed.

End FillsBuffers.

End SolveProperties.

(** * Runs of Solve on the residual [x - 3] *)

Lemma hit_max_iterations_after_all_iterations_witness :
  iterations (Solve_1x1 shifted_identity [0%Q]
                        (solver_1x1 two_iterations_parameters 0)) = 2.
Proof.
  apply (hit_max_iterations_after_all_iterations
           (Some 1%nat) (Some 1%nat) solve_1x1 Q_isApprox 0%Q
           shifted_identity [0%Q] (solver_1x1 two_iterations_parameters 0)).
  vm_compute. reflexivity.
Defined.

Lemma shifted_identity_fills_buffers :
  fills_buffers 1 1 shifted_identity
                (fun x => [Qred (rd x 0 - 3)]) (fun _ => [1%Q]).
Proof. intros x residuals jacobian _ _. repeat split. Qed.

Lemma Solve_reports_the_returned_point_witness :
  let run :=
    Solve_run (Some 1%nat) (Some 1%nat) solve_1x1 Q_isApprox 0%Q
              shifted_identity [0%Q] (solver_1x1 default_parameters 0) in
  error_ run.2 = v_neg [Qred (rd run.1.2 0 - 3)].
Proof.
  exact (proj1 (Solve_reports_the_returned_point
                  (Some 1%nat) (Some 1%nat) solve_1x1 Q_isApprox 0%Q
                  shifted_identity (fun x => [Qred (rd x 0 - 3)])
                  (fun _ => [1%Q]) shifted_identity_fills_buffers
                  [0%Q] (solver_1x1 default_parameters 0)
                  eq_refl eq_refl)).
Defined.

(** * The damping parameter in exact arithmetic *)

Lemma Q_fold_add_nonneg (l : list Q) (acc : Q) :
  (0 <= acc)%Q -> Forall (fun y => 0 <= y)%Q l ->
  (0 <= fold_left s_add l acc)%Q.
Proof.
  intros Hacc Hl. revert acc Hacc.
  induction Hl as [|y l Hy _ IH]; intros acc Hacc; [exact Hacc|].
  cbn [fold_left]. apply IH. cbn [s_add Q_scalar]. rewrite Qred_correct.
  lra.
Qed.

(** A squared norm is a sum of squares. *)
Lemma Q_squaredNorm_nonneg (a : list Q) : (0 <= squaredNorm a)%Q.
Proof.
  unfold squaredNorm, dot, v_sum. apply Q_fold_add_nonneg.
  - cbn. discriminate.
  - induction a as [|y a IH]; [constructor|]. cbn [zip_with].
    constructor; [|exact IH]. cbn [s_mul Q_scalar]. rewrite Qred_correct.
    nra.
Qed.

Lemma Q_fold_max_ge (l : list Q) (acc : Q) :
  (acc <= fold_left s_max l acc)%Q
  /\ Forall (fun y => y <= fold_left s_max l acc)%Q l.
Proof.
  revert acc. induction l as [|y l IH]; intros acc.
  - split; [apply Qle_refl | constructor].
  - cbn [fold_left]. destruct (IH (s_max acc y)) as [Hacc Hl].
    assert (acc <= s_max acc y /\ y <= s_max acc y)%Q as [H1 H2].
    { unfold s_max. cbn [s_ltb Q_scalar]. destruct (Q_ltb acc y) eqn:E.
      - apply Q_ltb_lt in E. split; [apply Qlt_le_weak, E | apply Qle_refl].
      - apply Q_ltb_ge in E. split; [apply Qle_refl | exact E]. }
    split; [eapply Qle_trans; eassumption|].
    constructor; [eapply Qle_trans; eassumption | exact Hl].
Qed.

(** [maxCoeff] is an upper bound of the coefficients. *)
Lemma Q_maxCoeff_ge (l : list Q) :
  Forall (fun y => y <= maxCoeff l)%Q l.
Proof.
  destruct l as [|y l]; [constructor|]. cbn [maxCoeff].
  destruct (Q_fold_max_ge l y) as [Hy Hl]. constructor; assumption.
Qed.

Lemma Q_maxCoeff_nonneg (l : list Q) :
  Forall (fun y => 0 <= y)%Q l -> (0 <= maxCoeff l)%Q.
Proof.
  destruct l as [|y l]; intros Hl.
  - cbn. discriminate.
  - pose proof (Q_maxCoeff_ge (y :: l)) as Hge.
    apply Forall_cons in Hl as [Hy _]. apply Forall_cons in Hge as [Hge _].
    eapply Qle_trans; eassumption.
Qed.

(** What the sign test on the gain ratio means for the error. *)
Lemma Q_ratio_sign (actual predicted : Q) :
  (0 < Qred (actual / predicted))%Q ->
  ((0 < predicted)%Q -> (0 < actual)%Q)
  /\ ((predicted < 0)%Q -> (actual < 0)%Q).
Proof.
  rewrite Qred_correct. intros Hpos. split; intros Hp.
  - assert (actual == actual / predicted * predicted)%Q as E
      by (field; lra).
    rewrite E. apply Qmult_lt_0_compat; assumption.
  - assert (- actual == actual / predicted * - predicted)%Q as E
      by (field; lra).
    assert (0 < - actual)%Q; [|lra].
    rewrite E. apply Qmult_lt_0_compat; [assumption | lra].
Qed.

Section DampingInvariant.
Variable NUM_RESIDUALS NUM_PARAMETERS : option nat.
Variable linear_solve : list Q -> list Q -> list Q.
Variable isApprox : list Q -> list Q -> bool.
Variable uninit : Q.

Local Abbreviation iteration :=
  (iteration NUM_RESIDUALS NUM_PARAMETERS linear_solve isApprox).
Local Abbreviation visited :=
  (visited NUM_RESIDUALS NUM_PARAMETERS linear_solve isApprox uninit).
Local Abbreviation Solve_init := (Solve_init NUM_RESIDUALS NUM_PARAMETERS uninit).
Local Abbreviation step_rho := (step_rho NUM_PARAMETERS linear_solve).
Local Abbreviation step_dx := (step_dx NUM_PARAMETERS linear_solve).
Local Abbreviation step_f_x_new := (step_f_x_new NUM_PARAMETERS linear_solve).

(** The body only ever scales [u], by a factor that is positive. *)
Lemma iteration_damping_sign function (ls : @LoopState Q) :
  (2 <= ls_v ls)%Q ->
  (iteration function ls).1 <> StepTooSmall ->
  ((0 < ls_u ls)%Q -> (0 < ls_u (iteration function ls).2)%Q)
  /\ ((ls_u ls == 0)%Q -> (ls_u (iteration function ls).2 == 0)%Q)
  /\ ((0 <= ls_u ls)%Q -> (0 <= ls_u (iteration function ls).2)%Q).
Proof.
  intros Hv Ho.
  pose proof (iteration_damping NUM_RESIDUALS NUM_PARAMETERS linear_solve
                isApprox function ls) as Hd.
  assert (exists factor, (0 < factor)%Q
            /\ (ls_u (iteration function ls).2 == ls_u ls * factor)%Q)
    as (factor & Hf & ->).
  { destruct (iteration function ls).1.
    - contradiction.
    - destruct Hd as (Hrho & -> & _).
      exists (damping_factor (step_rho function ls)). split.
      + destruct (damping_factor_bounds _ Hrho) as (Hlo & _). lra.
      + cbn [s_mul Q_scalar]. apply Qred_correct.
    - destruct Hd as (-> & _). exists (ls_v ls). split; [lra|].
      cbn [s_mul Q_scalar]. apply Qred_correct.
    - destruct Hd as (-> & _). exists (ls_v ls). split; [lra|].
      cbn [s_mul Q_scalar]. apply Qred_correct. }
  split; [|split].
  - intros Hu. apply Qmult_lt_0_compat; assumption.
  - intros ->. ring.
  - intros Hu. apply Qmult_le_0_compat; [exact Hu | apply Qlt_le_weak, Hf].
Qed.

Lemma visited_damping_sign function x s ls :
  visited function x s ls ->
  ((0 < ls_u (Solve_init function x s))%Q -> (0 < ls_u ls)%Q)
  /\ ((ls_u (Solve_init function x s) == 0)%Q -> (ls_u ls == 0)%Q)
  /\ ((0 <= ls_u (Solve_init function x s))%Q -> (0 <= ls_u ls)%Q).
Proof.
  induction 1 as [|ls Hvis IH Hs Hi Ho]; [tauto|].
  pose proof (visited_v _ _ _ _ _ _ _ _ _ Hvis) as Hv.
  destruct (iteration_damping_sign function ls Hv Ho) as (H1 & H2 & H3).
  cbn [next_i ls_u]. tauto.
Qed.

(** X5: the loop of [Solve] only ever multiplies [u], by [v >= 2] or by a
    factor of at least [1/3]: in every state in which the loop condition
    is evaluated, [v >= 2], the damping is positive when the initial
    damping was, and it is zero when the initial damping was zero (a zero
    [initial_scale_factor] or a Jacobian without a non-zero column switches
    the damping off for the whole solve). *)
Theorem damping_keeps_its_sign function x s ls :
  visited function x s ls ->
  (2 <= ls_v ls)%Q
  /\ ((0 < ls_u (Solve_init function x s))%Q -> (0 < ls_u ls)%Q)
  /\ ((ls_u (Solve_init function x s) == 0)%Q -> (ls_u ls == 0)%Q).
Proof.
  intros Hvis. split; [exact (visited_v _ _ _ _ _ _ _ _ _ Hvis)|].
  destruct (visited_damping_sign function x s ls Hvis) as (H1 & H2 & _).
  split; assumption.
Qed.

(** The damping the loop starts with is the scale factor times the largest
    squared column norm of the Jacobian. *)
Lemma initial_damping function x s :
  let ls := Solve_init function x s in
  let R := residual_count NUM_RESIDUALS function in
  let P := parameter_count NUM_PARAMETERS function in
  ls_u ls
  = (initial_scale_factor (params s)
     * maxCoeff (map (fun i => squaredNorm
                                 (m_col R (jacobian_ (ls_solver ls)) i))
                     (seq 0 P)))%S.
Proof.
  cbn zeta. unfold Solve_init.
  pose proof (Update_results NUM_RESIDUALS NUM_PARAMETERS function x
                (Initialize NUM_RESIDUALS NUM_PARAMETERS uninit function s))
    as [_ Hp].
  assert (params (Initialize NUM_RESIDUALS NUM_PARAMETERS uninit function s)
          = params s) as Hp'.
  { unfold Initialize, Initialize_sizes. repeat case_match; reflexivity. }
  pose proof (Update_normal_equations NUM_RESIDUALS NUM_PARAMETERS function x
                (Initialize NUM_RESIDUALS NUM_PARAMETERS uninit function s))
    as [Hj _].
  destruct (Update NUM_RESIDUALS NUM_PARAMETERS function x _) as [st s1].
  cbn [fst snd] in *.
  cbn [ls_u ls_solver set_status params jtj_ jacobian_].
  rewrite Hp, Hp'. f_equal. f_equal. unfold m_diagonal.
  apply map_ext_in. intros i Hi. apply in_seq in Hi.
  rewrite Hj. apply m_JtJ_at; lia.
Qed.

(** X6: with a non-negative [initial_scale_factor] the damping [u] is
    never negative: it starts as the scale factor times the largest squared
    column norm of the Jacobian and is only ever multiplied by positive
    factors. *)
Theorem damping_is_never_negative function x s ls :
  visited function x s ls ->
  (0 <= initial_scale_factor (params s))%Q ->
  (0 <= ls_u ls)%Q.
Proof.
  intros Hvis Hscale.
  apply (visited_damping_sign function x s ls Hvis).
  rewrite initial_damping. cbn zeta. cbn [s_mul Q_scalar].
  rewrite Qred_correct. apply Qmult_le_0_compat; [exact Hscale|].
  apply Q_maxCoeff_nonneg. apply Forall_forall. intros y Hy.
  apply list_elem_of_fmap in Hy as (i & -> & _).
  apply Q_squaredNorm_nonneg.
Qed.

(** X7: the step is accepted on the sign of the ratio of the actual
    reduction [|error|^2 - |f(x_new)|^2] to the predicted reduction
    [dx . (u dx + g)], and the predicted reduction is not tested on its
    own: an accepted step with a positive predicted reduction strictly
    reduces the squared error, and an accepted step with a negative
    predicted reduction strictly increases it. *)
Theorem accepted_step_and_predicted_reduction function (ls : @LoopState Q) :
  (iteration function ls).1 = Accepted ->
  let dx := step_dx function ls in
  let predicted :=
    dot dx (v_add (v_scale (ls_u ls) dx) (g_ (ls_solver ls))) in
  let error2 := squaredNorm (error_ (ls_solver ls)) in
  let new_error2 := squaredNorm (step_f_x_new function ls) in
  ((0 < predicted)%Q -> (new_error2 < error2)%Q)
  /\ ((predicted < 0)%Q -> (error2 < new_error2)%Q).
Proof.
  intros Ho. cbn zeta.
  pose proof (iteration_damping NUM_RESIDUALS NUM_PARAMETERS linear_solve
                isApprox function ls) as Hd.
  rewrite Ho in Hd. destruct Hd as (Hrho & _).
  unfold step_rho in Hrho. cbn zeta in Hrho.
  cbn [s_div s_sub Q_scalar] in Hrho.
  apply Q_ratio_sign in Hrho as [Hp Hn].
  rewrite Qred_correct in Hp, Hn. split; intros Hs.
  - specialize (Hp Hs). lra.
  - specialize (Hn Hs). lra.
Qed.

End DampingInvariant.

(** * The damping on the residual [1 + x + 3/2 x^2] *)

(** The state after the first iteration from [x = 0], a state in which the
    loop condition is evaluated. *)
Lemma parabola_second_state :
  visited (Some 1%nat) (Some 1%nat) solve_1x1 Q_isApprox 0%Q parabola [0%Q]
          (solver_1x1 unit_scale_parameters 0)
          (next_i (iteration (Some 1%nat) (Some 1%nat) solve_1x1 Q_isApprox
                             parabola
                             (Solve_init (Some 1%nat) (Some 1%nat) 0%Q
                                         parabola [0%Q]
                                         (solver_1x1 unit_scale_parameters 0))).2).
Proof.
  apply visited_next.
  - apply visited_init.
  - vm_compute. reflexivity.
  - vm_compute. reflexivity.
  - vm_compute. discriminate.
Qed.

Lemma damping_keeps_its_sign_witness :
  (0 < ls_u (next_i (iteration (Some 1%nat) (Some 1%nat) solve_1x1 Q_isApprox
                               parabola
                               (Solve_init (Some 1%nat) (Some 1%nat) 0%Q
                                           parabola [0%Q]
                                           (solver_1x1 unit_scale_parameters 0))).2))%Q.
Proof.
  refine (proj1 (proj2 (damping_keeps_its_sign
                          (Some 1%nat) (Some 1%nat) solve_1x1 Q_isApprox 0%Q
                          parabola [0%Q] (solver_1x1 unit_scale_parameters 0)
                          _ parabola_second_state)) _).
  vm_compute. reflexivity.
Defined.

Lemma damping_is_never_negative_witness :
  (0 <= ls_u (next_i (iteration (Some 1%nat) (Some 1%nat) solve_1x1 Q_isApprox
                                parabola
                                (Solve_init (Some 1%nat) (Some 1%nat) 0%Q
                                            parabola [0%Q]
                                            (solver_1x1 unit_scale_parameters 0))).2))%Q.
Proof.
  refine (damping_is_never_negative
            (Some 1%nat) (Some 1%nat) solve_1x1 Q_isApprox 0%Q
            parabola [0%Q] (solver_1x1 unit_scale_parameters 0)
            _ parabola_second_state _).
  vm_compute. discriminate.
Defined.

Lemma accepted_step_and_predicted_reduction_witness :
  let ls := Solve_init (Some 1%nat) (Some 1%nat) 0%Q parabola [0%Q]
                       (solver_1x1 unit_scale_parameters 0) in
  (squaredNorm (step_f_x_new (Some 1%nat) solve_1x1 parabola ls)
   < squaredNorm (error_ (ls_solver ls)))%Q.
Proof.
  intros ls.
  refine (proj1 (accepted_step_and_predicted_reduction
                   (Some 1%nat) (Some 1%nat) solve_1x1 Q_isApprox
                   parabola ls _) _).
  - vm_compute. reflexivity.
  - vm_compute. reflexivity.
Defined.

(** * TinySolver::Initialize *)

Section InitializeProperties.
Context {T : Type} `{Scalar T}.
Variable NUM_RESIDUALS NUM_PARAMETERS : option nat.
Variable uninit : T.

Local Abbreviation Initialize := (Initialize NUM_RESIDUALS NUM_PARAMETERS uninit).
Local Abbreviation parameter_count := (parameter_count NUM_PARAMETERS).
Local Abbreviation residual_count := (residual_count NUM_RESIDUALS).

Lemma resize_length n (l : list T) : length (resize uninit n l) = n.
Proof.
  unfold resize. destruct (decide (length l = n)) as [E | _]; [exact E|].
  apply length_replicate.
Qed.

Lemma resize_fits n (l : list T) : length l = n -> resize uninit n l = l.
Proof. intros E. unfold resize. rewrite decide_True by exact E. reflexivity. Qed.

Lemma resize_resize n (l : list T) :
  resize uninit n (resize uninit n l) = resize uninit n l.
Proof. apply resize_fits, resize_length. Qed.

Lemma Initialize_sizes_lengths nr np (s : TinySolver T) :
  let s' := Initialize_sizes uninit nr np s in
  length (error_ s') = nr /\ length (f_x_new_ s') = nr
  /\ length (jacobian_ s') = (nr * np)%nat
  /\ length (jtj_ s') = (np * np)%nat
  /\ length (jtj_augmented_ s') = (np * np)%nat.
Proof. cbn. rewrite !resize_length. auto. Qed.

Lemma Initialize_sizes_idempotent nr np (s : TinySolver T) :
  Initialize_sizes uninit nr np (Initialize_sizes uninit nr np s)
  = Initialize_sizes uninit nr np s.
Proof. unfold Initialize_sizes. cbn. rewrite !resize_resize. reflexivity. Qed.

(** X8: [Initialize] does nothing when both sizes are static.  When one of
    them is dynamic, it gives [error_], [f_x_new_], [jacobian_], [jtj_] and
    [jtj_augmented_] the sizes [R], [R], [R x P], [P x P], [P x P] with
    which [Update] and [Solve] read the function's output, taking each
    dynamic size from the function and each static one from the template
    argument.  A buffer that already has its size keeps its contents, so a
    second [Initialize] changes nothing; [params], [results], [dx_],
    [x_new_] and [g_] are never touched. *)
Theorem Initialize_sizes_the_buffers function (s : TinySolver T) :
  let s' := Initialize function s in
  let R := residual_count function in
  let P := parameter_count function in
  (NUM_RESIDUALS <> None /\ NUM_PARAMETERS <> None -> s' = s)
  /\ (NUM_RESIDUALS = None \/ NUM_PARAMETERS = None ->
      length (error_ s') = R /\ length (f_x_new_ s') = R
      /\ length (jacobian_ s') = (R * P)%nat
      /\ length (jtj_ s') = (P * P)%nat
      /\ length (jtj_augmented_ s') = (P * P)%nat)
  /\ (length (error_ s) = R -> error_ s' = error_ s)
  /\ (length (f_x_new_ s) = R -> f_x_new_ s' = f_x_new_ s)
  /\ (length (jacobian_ s) = (R * P)%nat -> jacobian_ s' = jacobian_ s)
  /\ (length (jtj_ s) = (P * P)%nat -> jtj_ s' = jtj_ s)
  /\ (length (jtj_augmented_ s) = (P * P)%nat ->
      jtj_augmented_ s' = jtj_augmented_ s)
  /\ Initialize function s' = s'
  /\ params s' = params s /\ results s' = results s
  /\ dx_ s' = dx_ s /\ x_new_ s' = x_new_ s /\ g_ s' = g_ s.
Proof.
  cbn zeta. unfold Initialize, residual_count, parameter_count.
  destruct NUM_RESIDUALS as [R|], NUM_PARAMETERS as [P|]; cbn [from_option id].
  - split; [reflexivity|]. split; [intros [E | E]; discriminate|].
    repeat (split; [reflexivity|]). reflexivity.
  - split; [intros [_ E]; contradiction|].
    split; [intros _; apply Initialize_sizes_lengths|].
    cbn [Initialize_sizes error_ f_x_new_ jacobian_ jtj_ jtj_augmented_
         params results dx_ x_new_ g_].
    repeat (split; [first [apply resize_fits | apply Initialize_sizes_idempotent
                           | reflexivity]|]).
    reflexivity.
  - split; [intros [E _]; contradiction|].
    split; [intros _; apply Initialize_sizes_lengths|].
    cbn [Initialize_sizes error_ f_x_new_ jacobian_ jtj_ jtj_augmented_
         params results dx_ x_new_ g_].
    repeat (split; [first [apply resize_fits | apply Initialize_sizes_idempotent
                           | reflexivity]|]).
    reflexivity.
  - split; [intros [E _]; contradiction|].
    split; [intros _; apply Initialize_sizes_lengths|].
    cbn [Initialize_sizes error_ f_x_new_ jacobian_ jtj_ jtj_augmented_
         params results dx_ x_new_ g_].
    repeat (split; [first [apply resize_fits | apply Initialize_sizes_idempotent
                           | reflexivity]|]).
    reflexivity.
Qed.

End InitializeProperties.

(** * Further properties of TinySolverFunctionAutoDiffAdapter *)

Section AdapterBuffers.
Context {T : Type} `{Scalar T}.
Variable kNumResiduals kNumParameters : nat.
Variable kImpossibleValue : T.
Variable cost_functor_ : CostFunctor T.

Local Abbreviation adapter_jet_parameters :=
  (adapter_jet_parameters kNumParameters).
Local Abbreviation adapter_jet_residuals :=
  (adapter_jet_residuals kNumResiduals kNumParameters kImpossibleValue).
Local Abbreviation adapter_copy_out :=
  (adapter_copy_out kNumResiduals kNumParameters).
Local Abbreviation adapter_call :=
  (adapter_call kNumResiduals kNumParameters kImpossibleValue cost_functor_).

(** The buffers after the copying loop, entry by entry. *)
Lemma adapter_copy_out_lookup jets residuals jacobian :
  let out := adapter_copy_out jets residuals jacobian in
  length out.1 = length residuals
  /\ length out.2 = length jacobian
  /\ (forall r, (r < kNumResiduals)%nat -> (r < length residuals)%nat ->
        out.1 !! r = Some (a (rd_jet jets r)))
  /\ (forall k, (kNumResiduals <= k)%nat -> out.1 !! k = residuals !! k)
  /\ (forall r c, (r < kNumResiduals)%nat -> (c < kNumParameters)%nat ->
        (c * kNumResiduals + r < length jacobian)%nat ->
        out.2 !! (c * kNumResiduals + r)%nat
        = Some (rd (v (rd_jet jets r)) c))
  /\ (forall k, (kNumResiduals * kNumParameters <= k)%nat ->
        out.2 !! k = jacobian !! k).
Proof.
  cbn zeta. rewrite adapter_copy_out_writes. cbn [fst snd].
  rewrite !fold_write_length.
  split; [reflexivity|]. split; [reflexivity|]. split; [|split; [|split]].
  - intros r Hr Hlen.
    apply fold_write_hit; [exact Hlen|..].
    + exists (a (rd_jet jets r)). apply list_elem_of_fmap. exists r.
      split; [reflexivity|]. apply elem_of_seq. lia.
    + intros x Hx. apply list_elem_of_fmap in Hx as (r' & E & _).
      inversion E. reflexivity.
  - intros k Hk. apply fold_write_miss. intros x Hx.
    apply list_elem_of_fmap in Hx as (r' & E & Hr').
    apply elem_of_seq in Hr'. inversion E. lia.
  - intros r c Hr Hc Hlen.
    apply fold_write_hit; [exact Hlen|..].
    + eexists. apply list_elem_of_bind. exists r. split.
      * apply list_elem_of_fmap. exists c. split; [reflexivity|].
        apply elem_of_seq. lia.
      * apply elem_of_seq. lia.
    + intros x Hx. apply list_elem_of_bind in Hx as (r' & Hx & Hr').
      apply list_elem_of_fmap in Hx as (c' & E & Hc').
      apply elem_of_seq in Hr', Hc'. inversion E as [[Ek Ex]].
      destruct (offset_unique kNumResiduals c' r' c r) as [-> ->];
        [lia | lia | lia | reflexivity].
  - intros k Hk. apply fold_write_miss. intros x Hx.
    apply list_elem_of_bind in Hx as (r' & Hx & Hr').
    apply list_elem_of_fmap in Hx as (c' & E & Hc').
    apply elem_of_seq in Hr', Hc'. inversion E as [[Ek Ex]].
    assert ((c' + 1) * kNumResiduals <= kNumParameters * kNumResiduals)%nat
      by (apply Nat.mul_le_mono_r; lia).
    lia.
Qed.

(** X9: whatever the functor does, [operator()] with a Jacobian requested
    keeps the size of both buffers and writes only [residuals[0 .. R-1]]
    and [jacobian[0 .. R*P-1]]: every entry beyond stays as the caller
    passed it. *)
Theorem adapter_writes_within_its_sizes parameters residuals jacobian :
  exists ok residuals' jacobian',
    adapter_call parameters residuals (Some jacobian)
    = (ok, residuals', Some jacobian')
    /\ length residuals' = length residuals
    /\ length jacobian' = length jacobian
    /\ (forall k, (kNumResiduals <= k)%nat ->
          residuals' !! k = residuals !! k)
    /\ (forall k, (kNumResiduals * kNumParameters <= k)%nat ->
          jacobian' !! k = jacobian !! k).
Proof.
  unfold adapter_call.
  destruct (call_jet cost_functor_ _ _) as [[|] outs].
  - pose proof (adapter_copy_out_lookup outs residuals jacobian)
      as (Hl1 & Hl2 & _ & Hr & _ & Hj).
    destruct (adapter_copy_out outs residuals jacobian) as [res' jac'].
    exists true, res', jac'. auto.
  - exists false, residuals, jacobian. auto.
Qed.

(** X10: the output jets are initialised to [kImpossibleValue] so that
    a residual the functor never assigns shows: when the functor returns
    [true] and has left output jet [r] as it was, [residuals[r]] and the
    whole row [r] of the Jacobian hold [kImpossibleValue]. *)
Theorem adapter_exposes_unassigned_residual parameters residuals jacobian r :
  length residuals = kNumResiduals ->
  length jacobian = (kNumResiduals * kNumParameters)%nat ->
  (r < kNumResiduals)%nat ->
  let run :=
    call_jet cost_functor_ (adapter_jet_parameters parameters)
             adapter_jet_residuals in
  run.1 = true ->
  run.2 !! r = adapter_jet_residuals !! r ->
  exists residuals' jacobian',
    adapter_call parameters residuals (Some jacobian)
    = (true, residuals', Some jacobian')
    /\ rd residuals' r = kImpossibleValue
    /\ forall c, (c < kNumParameters)%nat ->
         m_at kNumResiduals jacobian' r c = kImpossibleValue.
Proof.
  intros Hres Hjac Hr run Hok Hkeep. unfold adapter_call. fold run.
  destruct run as [ok outs]. cbn [fst snd] in Hok, Hkeep. subst ok.
  pose proof (adapter_copy_out_lookup outs residuals jacobian)
    as (_ & _ & Hin & _ & Hjin & _).
  destruct (adapter_copy_out outs residuals jacobian) as [res' jac'].
  cbn [fst snd] in Hin, Hjin.
  assert (rd_jet outs r
          = mkJet kImpossibleValue (replicate kNumParameters kImpossibleValue))
    as Ejet.
  { unfold rd_jet. rewrite Hkeep. unfold adapter_jet_residuals.
    rewrite list_lookup_fmap, lookup_seq_lt by exact Hr. reflexivity. }
  exists res', jac'. split; [reflexivity|]. split.
  - unfold rd. rewrite Hin by lia. rewrite Ejet. reflexivity.
  - intros c Hc. unfold m_at, rd.
    assert ((c + 1) * kNumResiduals <= kNumParameters * kNumResiduals)%nat
      by (apply Nat.mul_le_mono_r; lia).
    rewrite Hjin by lia. rewrite Ejet. cbn [v default].
    fold (rd (replicate kNumParameters kImpossibleValue) c). unfold rd.
    rewrite lookup_replicate_2 by exact Hc. reflexivity.
Qed.

(** X11: wrapped around a functor whose jet instance always succeeds and
    computes its output jets from its input jets, the adapter is a
    function for [TinySolver] that overwrites the solver's two buffers
    completely (nothing of their previous contents remains): the residuals
    are the values of the output jets and the Jacobian is, column by
    column, their derivative components. *)
Theorem adapted_functor_fills_buffers (G : list (Jet T) -> list (Jet T)) :
  (forall ins outs, call_jet cost_functor_ ins outs = (true, G ins)) ->
  fills_buffers kNumResiduals kNumParameters
    (adapter_Function kNumResiduals kNumParameters kImpossibleValue
                      cost_functor_)
    (fun x =>
       map (fun r => a (rd_jet (G (adapter_jet_parameters x)) r))
           (seq 0 kNumResiduals))
    (fun x =>
       c ← seq 0 kNumParameters;
       map (fun r => rd (v (rd_jet (G (adapter_jet_parameters x)) r)) c)
           (seq 0 kNumResiduals)).
Proof.
  intros HG x residuals jacobian Hres Hjac.
  cbn [adapter_Function fn_eval_jacobian]. unfold adapter_call.
  rewrite HG.
  pose proof (adapter_copy_out_lookup (G (adapter_jet_parameters x))
                residuals jacobian) as (Hl1 & Hl2 & Hin & _ & Hjin & _).
  destruct (adapter_copy_out _ residuals jacobian) as [res' jac'].
  cbn [fst snd default] in *. unfold id.
  assert (forall c : nat,
            length (map (fun r => rd (v (rd_jet (G (adapter_jet_parameters x))
                                                 r)) c)
                        (seq 0 kNumResiduals)) = kNumResiduals) as Hcol.
  { intros c. rewrite length_map, length_seq. reflexivity. }
  split; [|split; [|split]].
  - apply list_eq. intros r. rewrite list_lookup_fmap.
    destruct (decide (r < kNumResiduals)%nat) as [Hr | Hr].
    + rewrite Hin by lia. rewrite lookup_seq_lt by exact Hr. reflexivity.
    + rewrite lookup_ge_None_2 by lia.
      rewrite lookup_ge_None_2 by (rewrite length_seq; lia). reflexivity.
  - apply list_eq. intros k.
    destruct (decide (k < kNumResiduals * kNumParameters)%nat) as [Hk | Hk].
    + assert (kNumResiduals <> 0)%nat as HR by (intros ->; lia).
      pose proof (Nat.div_mod_eq k kNumResiduals) as Ek.
      pose proof (Nat.mod_upper_bound k kNumResiduals HR) as Hmod.
      assert (k `div` kNumResiduals < kNumParameters)%nat as Hdiv.
      { apply Nat.Div0.div_lt_upper_bound. lia. }
      replace k with (k `div` kNumResiduals * kNumResiduals
                      + k `mod` kNumResiduals)%nat at 1 2 by lia.
      rewrite Hjin by lia.
      rewrite (lookup_bind_blocks _ kNumResiduals) by (exact Hcol || exact Hmod).
      rewrite lookup_seq_lt by exact Hdiv. cbn [mbind option_bind].
      rewrite list_lookup_fmap, lookup_seq_lt by exact Hmod. reflexivity.
    + rewrite lookup_ge_None_2 by lia.
      rewrite lookup_ge_None_2; [reflexivity|].
      rewrite (length_bind_blocks _ kNumResiduals) by exact Hcol.
      rewrite length_seq. lia.
  - rewrite length_map, length_seq. reflexivity.
  - rewrite (length_bind_blocks _ kNumResiduals) by exact Hcol.
    rewrite length_seq. lia.
Qed.

End AdapterBuffers.

(** * The adapter on concrete functors *)

(** A functor that assigns only its first residual: the second residual
    and its row of the Jacobian come out as [kImpossibleValue], here
    [-1]. *)
Lemma adapter_exposes_unassigned_residual_witness :
  exists residuals' jacobian',
    adapter_call 2 3 (-1)%Q forgetful_functor [1%Q; 2%Q; 3%Q] [0%Q; 0%Q]
                 (Some (replicate 6 0%Q))
    = (true, residuals', Some jacobian')
    /\ rd residuals' 1 = (-1)%Q
    /\ m_row 2 3 jacobian' 1 = [(-1)%Q; (-1)%Q; (-1)%Q].
Proof.
  destruct (adapter_exposes_unassigned_residual
              2 3 (-1)%Q forgetful_functor [1%Q; 2%Q; 3%Q] [0%Q; 0%Q]
              (replicate 6 0%Q) 1 eq_refl eq_refl (le_n 2) eq_refl eq_refl)
    as (residuals' & jacobian' & E & Hr & Hj).
  exists residuals', jacobian'. split; [exact E|]. split; [exact Hr|].
  unfold m_row. cbn [seq map].
  rewrite (Hj 0%nat), (Hj 1%nat), (Hj 2%nat) by lia. reflexivity.
Defined.

Example adapter_on_forgetful_functor :
  adapter_call 2 3 (-1)%Q forgetful_functor [1%Q; 2%Q; 3%Q] [0%Q; 0%Q]
               (Some (replicate 6 0%Q))
  = (true, [1%Q; (-1)%Q],
     Some [1%Q; (-1)%Q; 0%Q; (-1)%Q; 0%Q; (-1)%Q]).
Proof. vm_compute. reflexivity. Qed.

(** The functor of the usage example in the header, wrapped for a
    [TinySolver]: the Jacobian left in the solver's buffer is the one of
    the hand-written cost function of the header. *)
Lemma adapted_functor_fills_buffers_witness :
  (fn_eval_jacobian (adapter_Function 2 3 (-1)%Q MyFunctor)
                    [1%Q; 2%Q; 3%Q] [7%Q; 7%Q] (replicate 6 7%Q)).2
  = [1%Q; 0%Q; 2%Q; 3%Q; 4%Q; 2%Q].
Proof.
  destruct (adapted_functor_fills_buffers
              2 3 (-1)%Q MyFunctor
              (fun ins => map (eval_jet 3 ins) MyFunctor_residuals)
              (fun _ _ => eq_refl)
              [1%Q; 2%Q; 3%Q] [7%Q; 7%Q] (replicate 6 7%Q) eq_refl eq_refl)
    as (_ & E & _).
  rewrite E. vm_compute. reflexivity.
Defined.

(** * Further properties of DynamicAutoDiffCostFunction *)

(** X12: below [2^24] the single-precision pass count covers the
    parameters exactly: with [P] parameters and a stride [S >= 1], both
    below [2^24], [num_strides] passes of [S] slots reach every parameter
    ([P <= num_strides * S]), the pass [c / S] that seeds parameter [c] is
    among them, the last pass is not empty ([(num_strides - 1) * S < P]),
    and without parameters no pass runs. *)
Theorem passes_cover_the_parameters (P Stride : nat) :
  Z.of_nat P < 2 ^ 24 -> (0 < Stride)%nat -> Z.of_nat Stride < 2 ^ 24 ->
  let n := num_strides (Z.of_nat P) (Z.of_nat Stride) in
  (n - 1) * Z.of_nat Stride < Z.of_nat P <= n * Z.of_nat Stride
  /\ (forall c, (c < P)%nat -> 0 <= Z.of_nat (c / Stride) < n)
  /\ (P = 0%nat <-> n = 0).
Proof.
  intros HP HS HS' n.
  assert (n = ceil_div (Z.of_nat P) (Z.of_nat Stride)) as En
    by (apply num_strides_exact; lia).
  pose proof (ceil_div_spec (Z.of_nat P) (Z.of_nat Stride) ltac:(lia)) as Hc.
  rewrite <- En in Hc. split; [exact Hc|]. split.
  - intros c Hlt. split; [lia|].
    assert (c / Stride < Z.to_nat n)%nat; [|lia].
    apply Nat.Div0.div_lt_upper_bound. nia.
  - split; [intros ->; nia | intros E; rewrite E in Hc; lia].
Qed.

Lemma passes_cover_the_parameters_witness :
  num_strides 10 4 = 3.
Proof.
  pose proof (passes_cover_the_parameters 10 4 eq_refl
                (Nat.lt_0_succ 3) eq_refl) as (Hc & _).
  cbn zeta in Hc. change (Z.of_nat 10) with 10 in Hc.
  change (Z.of_nat 4) with 4 in Hc. lia.
Defined.

Section DynamicEdges.
Context {T : Type} `{Scalar T}.
Variable Stride : nat.
Variable functor_ : DynamicCostFunctor T.
Variable parameter_block_sizes : list nat.
Variable num_residuals : nat.
Variable default_jet : Jet T.

Local Abbreviation Evaluate :=
  (Evaluate Stride functor_ parameter_block_sizes num_residuals default_jet).

Lemma num_strides_0 (S : Z) : num_strides 0 S = 0.
Proof. reflexivity. Qed.

(** X14: without parameters (no block, or only empty blocks) no pass
    runs: with Jacobians requested [Evaluate] returns [true] without
    invoking the functor, and the residuals are not computed: the
    residual buffer and the Jacobians come back as the caller passed
    them. *)
Theorem Evaluate_without_parameters parameters residuals jacobians :
  num_residuals <> 0%nat ->
  num_parameters parameter_block_sizes = 0%nat ->
  Evaluate parameters residuals (Some jacobians)
  = Some {| ev_ok := true; ev_residuals := residuals;
            ev_jacobians := jacobians; ev_calls := [] |}.
Proof.
  intros HR HP. unfold Evaluate.
  destruct (num_residuals =? 0)%nat eqn:E; [apply Nat.eqb_eq in E; lia|].
  rewrite HP. change (Z.of_nat 0) with 0. rewrite num_strides_0.
  reflexivity.
Qed.

End DynamicEdges.

(** *** Adding parameter blocks *)

Lemma parameter_positions_app (sizes more : list nat) (i c : nat) :
  parameter_positions (sizes ++ more) i c
  = parameter_positions sizes i c
    ++ parameter_positions more (i + length sizes) (c + sum_list sizes).
Proof.
  revert i c. induction sizes as [|size sizes IH]; intros i c.
  - cbn. rewrite !Nat.add_0_r. reflexivity.
  - cbn [app parameter_positions]. rewrite IH, <- app_assoc.
    cbn [length sum_list sum_list_with]. unfold id. do 3 f_equal; lia.
Qed.

(** X15: [AddParameterBlock] appends: the new block gets the next block
    index and the cursors [P .. P + size - 1] after those of the blocks
    added before, the number of parameters grows by [size], the number of
    residuals is untouched, and every earlier parameter keeps its block
    index, its cursor and, in [Evaluate], its input jet. *)
Theorem AddParameterBlock_appends {T : Type} `{Scalar T}
    (size : nat) (sizes : CostFunctionSizes) (default_jet : Jet T)
    (parameters : list (list T)) :
  let old := parameter_block_sizes_ sizes in
  let new := parameter_block_sizes_ (AddParameterBlock size sizes) in
  num_residuals_ (AddParameterBlock size sizes) = num_residuals_ sizes
  /\ num_parameters new = (num_parameters old + size)%nat
  /\ parameter_positions new 0 0
     = parameter_positions old 0 0
       ++ map (fun j => (length old, j, (num_parameters old + j)%nat))
              (seq 0 size)
  /\ (forall c, (c < num_parameters old)%nat ->
        initial_input_jets new default_jet parameters !! c
        = initial_input_jets old default_jet parameters !! c).
Proof.
  cbn zeta. cbn [AddParameterBlock parameter_block_sizes_ num_residuals_].
  set (old := parameter_block_sizes_ sizes).
  assert (parameter_positions (old ++ [size]) 0 0
          = parameter_positions old 0 0
            ++ map (fun j => (length old, j, (num_parameters old + j)%nat))
                   (seq 0 size)) as Epos.
  { rewrite parameter_positions_app. cbn [parameter_positions].
    rewrite app_nil_r, num_parameters_sum. reflexivity. }
  split; [reflexivity|]. split; [|split; [exact Epos|]].
  - rewrite !num_parameters_sum, sum_list_with_app. cbn. lia.
  - intros c Hc. rewrite num_parameters_sum in Hc.
    destruct (parameter_positions_cover old c Hc) as (i & j & Hin).
    rewrite (initial_input_jets_lookup old default_jet parameters i j c Hin).
    apply initial_input_jets_lookup. rewrite Epos. apply elem_of_app.
    left. exact Hin.
Qed.


(** * Evaluate at the edges *)

(** Two empty parameter blocks: [Evaluate] returns [true] and the residual
    buffer still holds the caller's [5] and [6]. *)
Lemma Evaluate_without_parameters_witness :
  Evaluate 4 (three_parameter_functor 4) [0; 0]%nat 2 zero_jet
           [[]; []] [5%Q; 6%Q] (Some [[]; []])
  = Some {| ev_ok := true; ev_residuals := [5%Q; 6%Q];
            ev_jacobians := [[]; []]; ev_calls := [] |}.
Proof.
  apply (Evaluate_without_parameters 4 (three_parameter_functor 4)
           [0; 0]%nat 2 zero_jet [[]; []] [5%Q; 6%Q] [[]; []]).
  - discriminate.
  - reflexivity.
Defined.

(** Three parameters in two blocks, evaluated with stride two (two passes)
    and with stride three (one pass). *)
Lemma stride_invariance_below_2_24_witness :
  (fun ev => (ev_ok ev, ev_residuals ev, ev_jacobians ev))
    <$> Evaluate 2 (three_parameter_functor 2) [1; 2]%nat 2 zero_jet
                 [[2%Q]; [3%Q; 4%Q]] [0%Q; 0%Q]
                 (Some [[0%Q; 0%Q]; [0%Q; 0%Q; 0%Q; 0%Q]])
  = (fun ev => (ev_ok ev, ev_residuals ev, ev_jacobians ev))
    <$> Evaluate (num_parameters [1; 2]%nat)
                 (three_parameter_functor (num_parameters [1; 2]%nat))
                 [1; 2]%nat 2 zero_jet
                 [[2%Q]; [3%Q; 4%Q]] [0%Q; 0%Q]
                 (Some [[0%Q; 0%Q]; [0%Q; 0%Q; 0%Q; 0%Q]]).
Proof.
  apply (stride_invariance_below_2_24
           three_parameter_functor
           (expr_functor_width_generic
              (Param 0)
              [Add (Mul (Param 0) (Param 1)) (Div (Param 2) (Param 0));
               Sub (Param 1) (Mul (Const 2) (Param 2))])
           [1; 2]%nat 2 zero_jet [[2%Q]; [3%Q; 4%Q]] 2
           [0%Q; 0%Q] [[0%Q; 0%Q]; [0%Q; 0%Q; 0%Q; 0%Q]]).
  - discriminate.
  - vm_compute. lia.
  - vm_compute. reflexivity.
  - lia.
  - vm_compute. reflexivity.
Defined.

(** * The two paths of Evaluate *)

Section TwoPaths.
Context {T : Type} `{Scalar T}.
Variable Stride : nat.
Variable functor_ : DynamicCostFunctor T.
Variable parameter_block_sizes : list nat.
Variable num_residuals : nat.
Variable default_jet : Jet T.
Variable parameters : list (list T).

Local Abbreviation P := (num_parameters parameter_block_sizes).
Local Abbreviation positions := (parameter_positions parameter_block_sizes 0 0).
Local Abbreviation pass_input :=
  (pass_input Stride parameter_block_sizes default_jet parameters).
Local Abbreviation run_pass :=
  (functor_run Stride functor_ parameter_block_sizes num_residuals default_jet
               parameters).
Local Abbreviation Evaluate :=
  (Evaluate Stride functor_ parameter_block_sizes num_residuals default_jet).
Local Abbreviation strides := (num_strides (Z.of_nat P) (Z.of_nat Stride)).

Lemma position_cursor_bound i j c : (i, j, c) ∈ positions -> (c < P)%nat.
Proof.
  intros Hin. apply parameter_positions_elem in Hin as (size & Ei & Hj & ->).
  pose proof (block_offset_bound _ _ _ Ei). rewrite num_parameters_sum. lia.
Qed.

(** In every pass the input jets hold the values of the parameters. *)
Lemma pass_input_values q i j c :
  (i, j, c) ∈ positions ->
  a (rd_jet (pass_input q) c) = rd (default [] (parameters !! i)) j.
Proof.
  intros Hin.
  destruct (pass_input_lookup Stride parameter_block_sizes default_jet
              parameters q c (position_cursor_bound i j c Hin))
    as (jet & Ejet & Ha & _).
  unfold rd_jet. rewrite Ejet. apply Ha, Hin.
Qed.

Hypothesis functor_consistent :
  value_consistent functor_ parameter_block_sizes num_residuals.
Hypothesis parameters_sized :
  Forall2 (fun (block : list T) size => length block = size)
          parameters parameter_block_sizes.

Lemma functor_run_scalar residuals q :
  (run_pass q).1 = (dyn_call_scalar functor_ parameters residuals).1
  /\ ((run_pass q).1 = true ->
      forall k, (k < num_residuals)%nat ->
        a (rd_jet (run_pass q).2 k)
        = rd (dyn_call_scalar functor_ parameters residuals).2 k).
Proof.
  destruct q as [|q]; cbn [functor_run];
    apply functor_consistent;
    first [exact parameters_sized | apply pass_input_length
           | intros i j c; apply pass_input_values].
Qed.

(** X16: requesting the Jacobians does not change what [Evaluate] says
    about the residuals.  For a functor whose jet instance carries the
    computation of its scalar instance, parameter blocks of the registered
    sizes, [1 <= P < 2^24] parameters and a stride from 1 to below [2^24],
    the call with Jacobians returns the flag of the call with
    [jacobians == NULL] and, when that is [true], leaves the same
    residuals. *)
Theorem Jacobian_request_keeps_the_residuals residuals jacobians :
  num_residuals <> 0%nat ->
  (1 <= P)%nat -> Z.of_nat P < 2 ^ 24 ->
  (1 <= Stride)%nat -> Z.of_nat Stride < 2 ^ 24 ->
  length residuals = num_residuals ->
  exists ev ev0,
    Evaluate parameters residuals (Some jacobians) = Some ev
    /\ Evaluate parameters residuals None = Some ev0
    /\ ev_ok ev = ev_ok ev0
    /\ (ev_ok ev = true ->
        forall k, (k < num_residuals)%nat ->
          rd (ev_residuals ev) k = rd (ev_residuals ev0) k).
Proof.
  intros HR HP HP' HS HS' Hlen.
  assert (strides = ceil_div (Z.of_nat P) (Z.of_nat Stride)) as En
    by (apply num_strides_exact; lia).
  pose proof (ceil_div_spec (Z.of_nat P) (Z.of_nat Stride) ltac:(lia)) as Hc.
  rewrite <- En in Hc.
  assert (1 <= strides) as Hn by nia.
  assert (Evaluate parameters residuals None
          = Some {| ev_ok := (dyn_call_scalar functor_ parameters residuals).1;
                    ev_residuals :=
                      (dyn_call_scalar functor_ parameters residuals).2;
                    ev_jacobians := []; ev_calls := [] |}) as E0.
  { unfold Evaluate.
    destruct (num_residuals =? 0)%nat eqn:E; [apply Nat.eqb_eq in E; lia|].
    destruct (dyn_call_scalar functor_ parameters residuals). reflexivity. }
  destruct (dyn_call_scalar functor_ parameters residuals).1 eqn:Eflag.
  - eexists _, _. split; [|split; [exact E0|]].
    + apply Evaluate_success; [exact HR|]. intros q _.
      rewrite (proj1 (functor_run_scalar residuals q)). exact Eflag.
    + cbn [ev_ok ev_residuals]. split; [reflexivity|]. intros _ k Hk.
      unfold residuals_after. rewrite decide_True by lia.
      rewrite copy_residuals_imap. unfold rd at 1.
      rewrite list_lookup_imap.
      destruct (residuals !! k) as [old|] eqn:Ek.
      2:{ apply lookup_ge_None in Ek. lia. }
      cbn [fmap option_fmap option_map default].
      rewrite (proj2 (Nat.ltb_lt _ _) Hk).
      apply (functor_run_scalar residuals); [|exact Hk].
      rewrite (proj1 (functor_run_scalar residuals _)). exact Eflag.
  - eexists _, _. split; [|split; [exact E0|]].
    + apply (Evaluate_failure _ _ _ _ _ _ 0%nat); [exact HR | lia | lia |].
      rewrite (proj1 (functor_run_scalar residuals 0%nat)). exact Eflag.
    + cbn [ev_ok]. split; [reflexivity | discriminate].
Qed.

End TwoPaths.

(** *** Expression functors *)

Section ExpressionValues.
Context {T : Type} `{Scalar T}.

(** The blocks of the registered sizes, laid end to end, are indexed by the
    parameter cursor. *)
Lemma concat_lookup_blocks (blocks : list (list T)) (sizes : list nat)
    (i j : nat) :
  Forall2 (fun (block : list T) size => length block = size) blocks sizes ->
  (exists size, sizes !! i = Some size /\ (j < size)%nat) ->
  concat blocks !! (block_offset sizes i + j)%nat
  = default [] (blocks !! i) !! j.
Proof.
  intros Hshape. revert i.
  induction Hshape as [|block size blocks sizes Hb _ IH]; intros i (sz & Ei & Hj).
  - discriminate.
  - destruct i as [|i].
    + cbn in Ei. inversion Ei; subst sz. cbn.
      apply lookup_app_l. lia.
    + cbn [concat]. unfold block_offset. cbn [take sum_list sum_list_with].
      unfold id at 1. rewrite lookup_app_r by lia.
      replace (size + sum_list_with id (take i sizes) + j - length block)%nat
        with (block_offset sizes i + j)%nat by (unfold block_offset; lia).
      apply IH. exists sz. split; [exact Ei | exact Hj].
Qed.

Lemma concat_length_blocks (blocks : list (list T)) (sizes : list nat) :
  Forall2 (fun (block : list T) size => length block = size) blocks sizes ->
  length (concat blocks) = sum_list sizes.
Proof.
  induction 1 as [|block size blocks sizes Hb _ IH]; [reflexivity|].
  cbn. rewrite length_app, IH, Hb. reflexivity.
Qed.

(** The value part of the jet arithmetic is the scalar arithmetic. *)
Lemma eval_jet_value (N : nat) (sizes : list nat) (blocks : list (list T))
    (ins : list (Jet T)) (e : Expr) :
  Forall2 (fun (block : list T) size => length block = size) blocks sizes ->
  length ins = num_parameters sizes ->
  (forall i j c, (i, j, c) ∈ parameter_positions sizes 0 0 ->
     a (rd_jet ins c) = rd (default [] (blocks !! i)) j) ->
  a (eval_jet N ins e) = eval_scalar (concat blocks) e.
Proof.
  intros Hshape Hlen Hvals.
  induction e as [i | z | e1 IH1 e2 IH2 | e1 IH1 e2 IH2 | e1 IH1 e2 IH2
                  | e1 IH1 e2 IH2]; cbn [eval_jet eval_scalar];
    try (cbn [jet_add jet_sub jet_mul jet_div a]; rewrite IH1, IH2;
         reflexivity).
  - rewrite num_parameters_sum in Hlen.
    destruct (decide (i < sum_list sizes)%nat) as [Hi | Hi].
    + destruct (parameter_positions_cover sizes i Hi) as (bi & j & Hin).
      specialize (Hvals bi j i Hin). unfold rd_jet in Hvals.
      destruct (ins !! i) as [jet|] eqn:Ei.
      2:{ apply lookup_ge_None in Ei. lia. }
      cbn [default] in *. rewrite Hvals.
      apply parameter_positions_elem in Hin as (size & Eb & Hj & ->).
      unfold rd. f_equal. symmetry. apply concat_lookup_blocks; [exact Hshape|].
      exists size. split; assumption.
    + rewrite lookup_ge_None_2 by lia. cbn [default a]. unfold rd.
      rewrite lookup_ge_None_2; [reflexivity|].
      rewrite (concat_length_blocks _ _ Hshape). lia.
  - reflexivity.
Qed.

Lemma expr_functor_value_consistent (guard : Expr) (es : list Expr)
    (N : nat) (sizes : list nat) :
  value_consistent (expr_functor (T:=T) guard es N) sizes (length es).
Proof.
  intros blocks ins outs res Hshape Hlen Hvals.
  cbn [expr_functor dyn_call_jet dyn_call_scalar].
  rewrite (eval_jet_value N sizes blocks ins guard Hshape Hlen Hvals).
  destruct (eval_scalar (concat blocks) guard <? s_zero)%S;
    cbn [fst snd]; [split; [reflexivity | discriminate]|].
  split; [reflexivity|]. intros _ k Hk.
  unfold rd_jet, rd. rewrite !list_lookup_fmap.
  destruct (es !! k) as [e|] eqn:Ek.
  2:{ apply lookup_ge_None in Ek. lia. }
  cbn [fmap option_fmap option_map default].
  apply (eval_jet_value N sizes blocks ins e Hshape Hlen Hvals).
Qed.

End ExpressionValues.

Lemma three_parameters_sized :
  Forall2 (fun (block : list Q) size => length block = size)
          [[2%Q]; [3%Q; 4%Q]] [1; 2]%nat.
Proof. repeat constructor. Qed.

(** Three parameters in two blocks with stride two: the residuals written
    along with the Jacobians are those of the call without Jacobians. *)
Lemma Jacobian_request_keeps_the_residuals_witness :
  exists ev ev0,
    Evaluate 2 (three_parameter_functor 2) [1; 2]%nat 2 zero_jet
             [[2%Q]; [3%Q; 4%Q]] [0%Q; 0%Q]
             (Some [[0%Q; 0%Q]; [0%Q; 0%Q; 0%Q; 0%Q]]) = Some ev
    /\ Evaluate 2 (three_parameter_functor 2) [1; 2]%nat 2 zero_jet
                [[2%Q]; [3%Q; 4%Q]] [0%Q; 0%Q] None = Some ev0
    /\ ev_ok ev = ev_ok ev0.
Proof.
  destruct (Jacobian_request_keeps_the_residuals
              2 (three_parameter_functor 2) [1; 2]%nat 2 zero_jet
              [[2%Q]; [3%Q; 4%Q]]
              (expr_functor_value_consistent _ _ _ _)
              three_parameters_sized
              [0%Q; 0%Q] [[0%Q; 0%Q]; [0%Q; 0%Q; 0%Q; 0%Q]])
    as (ev & ev0 & E & E0 & Hok & _).
  - discriminate.
  - vm_compute. lia.
  - vm_compute. reflexivity.
  - lia.
  - vm_compute. reflexivity.
  - reflexivity.
  - exists ev, ev0. auto.
Defined.
